(** * sail-server: category tree, attribute schema and listing writes

    A shallow embedding of the request handlers of [taxonomy/views.py]
    and [listings/views.py], with the properties of the category-scoped
    attribute subsystem stated and proved over it.

    Conventions of the embedding:
    - a JSON / Python value is a [PyVal]; a JSON object used as a map
      (request payload, model row) is a [gmap string PyVal];
    - a database table is the list of its rows; a handler that writes
      takes the store and returns the store it leaves behind;
    - a handler ends in a [Run]: a response, a raised exception, or
      divergence when a loop of the source does not terminate;
    - Python builtins whose full behaviour is outside the repository
      ([int], [float], [str.strip], [str.lower]) are the fields of the
      class [PyRuntime]; every statement holds for every instance. *)

From Stdlib Require Import ZArith Ascii String.
From stdpp Require Import base tactics option list relations sorting gmap strings.

Local Open Scope string_scope.
Local Open Scope Z_scope.

(** ** Host runtime *)

Class PyRuntime := {
  (** the type of Python floats *)
  pyfloat : Type;
  (** [float(n)] for an int; [None] stands for OverflowError *)
  float_of_int : Z → option pyfloat;
  (** [float(s)] for a str; [None] stands for ValueError *)
  float_of_str : string → option pyfloat;
  (** [int(x)] for a float; [None] stands for the error on inf and nan *)
  int_of_float : pyfloat → option Z;
  (** [int(s)] for a str; [None] stands for ValueError *)
  int_of_str : string → option Z;
  (** truth value of a float *)
  float_truth : pyfloat → bool;
  (** [s.strip()] and [s.lower()] *)
  str_strip : string → string;
  str_lower : string → string;
}.

(** ** Python values *)

Section values.
Context `{PyRuntime}.

#[warnings="-register-all"]
Inductive PyVal :=
| PNone
| PBool (b : bool)
| PInt (n : Z)
| PFloat (x : pyfloat)
| PStr (s : string)
| PList (l : list PyVal)
| PDict (d : list (string * PyVal)).

(** [bool(v)], as used by [not v] and [if v:] *)
Definition truthy (v : PyVal) : bool :=
  match v with
  | PNone => false
  | PBool b => b
  | PInt n => negb (n =? 0)
  | PFloat x => float_truth x
  | PStr s => negb (String.eqb s "")
  | PList l => match l with [] => false | _ => true end
  | PDict d => match d with [] => false | _ => true end
  end.

(** [float(v)] under [try: ... except Exception]; [None] when it raises *)
Definition py_float (v : PyVal) : option pyfloat :=
  match v with
  | PBool b => float_of_int (if b then 1 else 0)
  | PInt n => float_of_int n
  | PFloat x => Some x
  | PStr s => float_of_str s
  | PNone | PList _ | PDict _ => None
  end.

(** [int(v)] under [try: ... except Exception]; [None] when it raises *)
Definition py_int (v : PyVal) : option Z :=
  match v with
  | PBool b => Some (if b then 1 else 0)
  | PInt n => Some n
  | PFloat x => int_of_float x
  | PStr s => int_of_str s
  | PNone | PList _ | PDict _ => None
  end.

(** *** Coercion helpers of the listing views

    [to_bool] and [to_float_or_none] are defined twice in the source,
    inside [ListingCreateRawView.post] and inside
    [ListingUpdateRawView.patch], with the same body. *)

Definition truthy_tokens : list string := ["1"; "true"; "yes"; "on"].

Definition to_bool (v : PyVal) : bool :=
  match v with
  | PBool b => b
  | PStr s => bool_decide (str_lower (str_strip s) ∈ truthy_tokens)
  | _ => false
  end.

Definition to_float_or_none (v : PyVal) : PyVal :=
  match v with
  | PNone => PNone
  | PStr "" => PNone
  | _ => match py_float v with
         | Some x => PFloat x
         | None => PNone
         end
  end.

End values.

(** ** Equality of values

    [x == y] on floats, and whether a float is a NaN, belong to the
    runtime. A NaN is equal to no float, itself included; every other
    float is equal to itself. *)
Class PyFloatCompare `{PyRuntime} := {
  float_eqb : pyfloat → pyfloat → bool;
  float_isnan : pyfloat → bool;
  float_eqb_refl : ∀ x, float_isnan x = false → float_eqb x x = true;
  float_eqb_nan : ∀ x y, float_isnan x = true → float_eqb x y = false;
}.

Section equality.
Context `{PyRuntime} `{!PyFloatCompare}.

(** the value is a float NaN *)
Definition is_nan (v : PyVal) : bool :=
  match v with
  | PFloat x => float_isnan x
  | _ => false
  end.

(** [a == b] for [None], booleans, floats and strings, the values the
    coercions return. [None] where the comparison is not modelled: a
    number against a number of another type, lists and dicts. *)
Definition py_eq (a b : PyVal) : option bool :=
  match a, b with
  | PNone, PNone => Some true
  | PBool x, PBool y => Some (Bool.eqb x y)
  | PFloat x, PFloat y => Some (float_eqb x y)
  | PStr x, PStr y => Some (String.eqb x y)
  | PNone, (PBool _ | PFloat _ | PStr _)
  | (PBool _ | PFloat _ | PStr _), PNone
  | PStr _, (PBool _ | PFloat _)
  | (PBool _ | PFloat _), PStr _ => Some false
  | _, _ => None
  end.

End equality.

(** ** Outcomes of a handler *)

(** What running a piece of the source ends in: a value, an exception
    that leaves the handler (the framework answers it with an error
    response), or no end at all when the fuel of a loop or of a recursion
    runs out. *)
Inductive Run (A : Type) :=
| Done (a : A)
| Raised (exn : string)
| Diverged.
Arguments Done {A} a.
Arguments Raised {A} exn.
Arguments Diverged {A}.

Record Response (B : Type) := mkResponse { status : Z; body : B }.
Arguments mkResponse {B} status body.
Arguments status {B} r.
Arguments body {B} r.

(** ** Sorting

    [list.sort(key=...)] and [order_by(...)] are modelled by one stable
    sort: an element is placed before the first element that is not
    smaller than it, which is what a stable sort driven by [<] yields. *)

Section sorting.
Context {A K : Type} (ltb : K → K → bool) (key : A → K).

Fixpoint insert_by_key (x : A) (l : list A) : list A :=
  match l with
  | [] => [x]
  | y :: l' => if ltb (key y) (key x) then y :: insert_by_key x l' else x :: l
  end.

Definition sort_by_key (l : list A) : list A := foldr insert_by_key [] l.

(** [a] may stand before [b] *)
Definition key_le (a b : A) : Prop := ltb (key b) (key a) = false.

End sorting.

(** Python compares the tuple [(order, name)] lexicographically, and two
    strings by their code points; on UTF-8 encoded strings that is the
    order of [String.ltb]. *)
Definition tuple_ltb (k1 k2 : Z * string) : bool :=
  (k1.1 <? k2.1) || ((k1.1 =? k2.1) && String.ltb k1.2 k2.2).

(** ** Taxonomy records *)

Record Category := mkCategory {
  cat_id : Z;
  cat_parent_id : option Z;
  cat_name : string;
  cat_name_ru : option string;
  cat_name_uz : option string;
  cat_slug : string;
  cat_icon : string;
  cat_icon_image : option string;   (* the image url, when an image is set *)
  cat_is_leaf : bool;
  cat_order : Z;
}.

Inductive AttrType := TText | TNumber | TBoolean | TChoice.

(** Modelled from the spec: the [Attribute] model of [taxonomy/models.py]
    is not part of the sources at hand; its fields are those of the data
    model section (id, owning category, key, type tag, label, option set,
    required flag). *)
Record Attribute := mkAttribute {
  attr_id : Z;
  attr_category_id : Z;
  attr_key : string;
  attr_type : AttrType;
  attr_label : string;
  attr_options : list string;
  attr_required : bool;
}.

(** [Category.objects.get(pk=pk)]; [None] stands for [DoesNotExist] *)
Definition get_category (cats : list Category) (pk : Z) : option Category :=
  List.find (λ c, bool_decide (cat_id c = pk)) cats.

(** ** Requests of the read endpoints *)

Record Request := mkRequest {
  query_params : gmap string string;
  accept_language : option string;    (* META["HTTP_ACCEPT_LANGUAGE"] *)
}.

(** The recursion the interpreter has left when the body of a view
    runs. A call of a Python function pushes one frame, and a call with
    no frame left raises [RecursionError]; [frames_left] is the number of
    frames that can still be pushed, which is the recursion limit of the
    interpreter (1000 unless it was raised) less the frames of the
    server, the framework and the view. [render_depth] is the number of
    nested child lists the serializer of the category nodes can render
    before it meets the same limit; the serializer is not part of the
    sources at hand, so its cost per level is left open. *)
Class PyStack := {
  frames_left : nat;
  render_depth : nat;
}.

(** An integer the database takes as a lookup value: SQLite, the backend
    of the repository, stores signed 64-bit integers, and a lookup with a
    value outside that range raises [OverflowError]. *)
Definition db_int (n : Z) : bool := (- 2 ^ 63 <=? n) && (n <? 2 ^ 63).

Section taxonomy.
Context `{PyRuntime} `{PyStack}.

Definition _lang_from_request (request : Request) : string :=
  let lang := query_params request !! "lang" in
  let from_header :=
    let header := str_lower (default "" (accept_language request)) in
    if String.prefix "uz" header then "uz" else "ru" in
  match lang with
  | Some l => if bool_decide (l ∈ ["ru"; "uz"]) then l else from_header
  | None => from_header
  end.

(** *** The node dictionaries of [CategoriesTreeView.get] *)

Record NodeData := mkNodeData {
  n_id : Z;
  n_name : string;
  n_slug : string;
  n_icon : string;
  n_icon_url : string;
  n_is_leaf : bool;
  n_order : Z;
}.

(** [x or y] on strings that may be [None] *)
Definition str_or (x : option string) (y : string) : string :=
  match x with
  | Some s => if String.eqb s "" then y else s
  | None => y
  end.

Definition localized_name (lang : string) (c : Category) : string :=
  str_or (if String.eqb lang "uz" then cat_name_uz c else cat_name_ru c)
         (cat_name c).

Definition node_data (lang : string) (c : Category) : NodeData :=
  {| n_id := cat_id c;
     n_name := localized_name lang c;
     n_slug := cat_slug c;
     n_icon := cat_icon c;
     n_icon_url := default "" (cat_icon_image c);
     n_is_leaf := cat_is_leaf c;
     n_order := cat_order c |}.

(** A node dictionary is a mutable object shared between the [nodes]
    dictionary and the [children] list of its parent. The only way the
    source reaches one is through its key in [nodes], so a reference to a
    node is that key, and a [children] list is a list of references. *)
Record NodeObj := mkNodeObj {
  node_fields : NodeData;
  node_children : list Z;
}.

Record TreeState := mkTreeState {
  ts_nodes : gmap Z NodeObj;
  ts_roots : list Z;
}.

(** The rendered form of a node: its fields and its rendered children. *)
#[warnings="-register-all"]
Inductive Tree := TNode (d : NodeData) (children : list Tree).

Definition tree_data (t : Tree) : NodeData := let 'TNode d _ := t in d.

(** first loop: [nodes[c.id] = {...}] *)
Definition add_node (lang : string) (nodes : gmap Z NodeObj) (c : Category)
  : gmap Z NodeObj :=
  <[cat_id c := mkNodeObj (node_data lang c) []]> nodes.

Definition append_child (x : Z) (n : NodeObj) : NodeObj :=
  mkNodeObj (node_fields n) (node_children n ++ [x]).

(** [c.parent_id and c.parent_id in nodes]: the parent under which the
    node is hung, if there is one *)
Definition parent_ref (nodes : gmap Z NodeObj) (c : Category) : option Z :=
  match cat_parent_id c with
  | Some p =>
      if negb (p =? 0) && bool_decide (is_Some (nodes !! p)) then Some p else None
  | None => None
  end.

(** second loop: hang the node under its parent, or make it a root *)
Definition link_node (st : TreeState) (c : Category) : TreeState :=
  match parent_ref (ts_nodes st) c with
  | Some p =>
      mkTreeState (alter (append_child (cat_id c)) p (ts_nodes st)) (ts_roots st)
  | None =>
      mkTreeState (ts_nodes st) (ts_roots st ++ [cat_id c])
  end.

Definition build_nodes (lang : string) (categories : list Category) : TreeState :=
  foldl link_node
        (mkTreeState (foldl (add_node lang) ∅ categories) [])
        categories.

(** *** [sort_children]

    The function sorts the list object it is given in place and then
    visits the [children] list of every element. A list object is either
    the local [roots] or the [children] entry of a node. *)
Inductive ListRef := Roots | ChildrenOf (i : Z).

Definition deref (st : TreeState) (r : ListRef) : list Z :=
  match r with
  | Roots => ts_roots st
  | ChildrenOf i =>
      match ts_nodes st !! i with
      | Some n => node_children n
      | None => []
      end
  end.

Definition assign (r : ListRef) (l : list Z) (st : TreeState) : TreeState :=
  match r with
  | Roots => mkTreeState (ts_nodes st) l
  | ChildrenOf i =>
      mkTreeState (alter (λ n, mkNodeObj (node_fields n) l) i (ts_nodes st))
                  (ts_roots st)
  end.

(** [(n.get("order", 0), n.get("name", ""))] *)
Definition sort_key (st : TreeState) (i : Z) : Z * string :=
  match ts_nodes st !! i with
  | Some n => (n_order (node_fields n), n_name (node_fields n))
  | None => (0, "")
  end.

(** [fuel] is the number of frames that can still be pushed: a call
    takes one, its key function runs one frame above it, and the calls on
    the [children] lists run with one frame less. [None] stands for
    [RecursionError]. *)
Fixpoint sort_children (fuel : nat) (arr : ListRef) (st : TreeState)
  : option TreeState :=
  match fuel with
  | O => None
  | S fuel' =>
      let st1 := assign arr (sort_by_key tuple_ltb (sort_key st) (deref st arr)) st in
      foldl (λ acc n, acc ≫= sort_children fuel' (ChildrenOf n))
            (Some st1) (deref st1 arr)
  end.

(** Modelled from the spec: [CategoryNodeSerializer] of
    [taxonomy/serializers.py] is not part of the sources at hand. Each
    emitted node carries its id, localized display name, slug, icon,
    resolved icon url, leaf flag, order and child list, so rendering is
    the unfolding of the node objects reachable from the given list. *)
Fixpoint render (fuel : nat) (st : TreeState) (arr : list Z) : option (list Tree) :=
  match fuel with
  | O => None
  | S fuel' =>
      mapM (λ i, n ← ts_nodes st !! i;
                 ch ← render fuel' st (node_children n);
                 Some (TNode (node_fields n) ch)) arr
  end.

(** The full-tree branch. [sort_children] recurses once per nesting
    level of the nodes reachable from the roots, in the frames the
    interpreter has left, and the serializer renders what the nesting
    allows it; [None] stands for the [RecursionError] of either. *)
Definition full_tree (lang : string) (categories : list Category)
  : option (list Tree) :=
  st ← sort_children frames_left Roots (build_nodes lang categories);
  render render_depth st (ts_roots st).

(** [CategoriesTreeView.get]. [qs] is the result of
    [Category.objects.all().order_by("order", "name")], the rows in the
    order the database returns them. The flat branch catches
    [ValueError] only: the [OverflowError] of a [parent_id] the database
    does not take leaves the view. *)
Definition CategoriesTreeView_get (request : Request) (qs : list Category)
  : Run (Response (list Tree)) :=
  let parent_id := query_params request !! "parent_id" in
  let lang := _lang_from_request request in
  let tree :=
    match full_tree lang qs with
    | Some roots => Done (mkResponse 200 roots)
    | None => Raised "RecursionError"
    end in
  match parent_id with
  | Some s =>
      if negb (String.eqb s "") then
        match int_of_str s with
        | Some pid =>
            if db_int pid then
              Done (mkResponse 200
                      (map (λ c, TNode (node_data lang c) [])
                           (filter (λ c, cat_parent_id c = Some pid) qs)))
            else Raised "OverflowError"
        | None => tree        (* except ValueError: pass *)
        end
      else tree
  | None => tree
  end.

End taxonomy.

(** ** Attribute schema of a category *)

Section attributes.

(** The ancestor walk of [CategoryAttributesView.get]:
    [while cur is not None: ids.append(cur.id); cur = cur.parent].
    [cur.parent] is [None] when [parent_id] is null and fetches the row of
    the parent otherwise, raising [DoesNotExist] if it is gone. *)
Fixpoint ancestor_ids (fuel : nat) (cats : list Category) (cur : option Category)
  : Run (list Z) :=
  match cur with
  | None => Done []
  | Some c =>
      match fuel with
      | O => Diverged
      | S fuel' =>
          let rest :=
            match cat_parent_id c with
            | None => ancestor_ids fuel' cats None
            | Some p =>
                match get_category cats p with
                | Some parent => ancestor_ids fuel' cats (Some parent)
                | None => Raised "DoesNotExist"
                end
            end in
          match rest with
          | Done ids => Done (cat_id c :: ids)
          | Raised e => Raised e
          | Diverged => Diverged
          end
      end
  end.

(** [Attribute.objects.filter(category_id__in=ids).order_by("key")].
    Rows with the same key stay in the order of the table; the database
    leaves their order open and no statement depends on it. *)
Definition attributes_in (ids : list Z) (attrs : list Attribute) : list Attribute :=
  sort_by_key String.ltb attr_key
              (filter (λ a, attr_category_id a ∈ ids) attrs).

(** [CategoryAttributesView.get]. [AttributeSerializer(attrs, many=True)]
    renders one entry per row, in the order of the rows; the body is kept
    as the list of rows. A walk over more rows than the table holds has
    entered a cycle, so the number of rows plus one is fuel enough for
    every walk that ends. *)
Definition CategoryAttributesView_get
    (cats : list Category) (attrs : list Attribute) (pk : Z)
  : Run (Response (list Attribute)) :=
  match get_category cats pk with
  | None => Done (mkResponse 200 [])
  | Some cat =>
      match ancestor_ids (S (length cats)) cats (Some cat) with
      | Done ids => Done (mkResponse 200 (attributes_in ids attrs))
      | Raised e => Raised e
      | Diverged => Diverged
      end
  end.

End attributes.

(** ** Listing writes *)

(** Early return and exceptions inside a handler: [Halt r] leaves the
    handler with [r]. *)
Inductive Result (E A : Type) :=
| Ok (a : A)
| Halt (e : E).
Arguments Ok {E A} a.
Arguments Halt {E A} e.

#[global] Instance Result_ret {E} : MRet (Result E) := λ A a, Ok a.
#[global] Instance Result_bind {E} : MBind (Result E) :=
  λ A B f r, match r with Ok a => f a | Halt e => Halt e end.

Record User := mkUser {
  user_id : Z;
  username : string;
  (* [user.profile.phone_e164], [None] when the user has no profile *)
  profile_phone_e164 : option string;
}.

Inductive Message :=
| Text (s : string)
| InvalidAllowed (allowed : list string).   (* f"Invalid. Allowed: {[...]}" *)

Section listings.
Context `{PyRuntime}.

(** A model instance, and a JSON object, is a map from names to values. *)
Local Abbreviation Row := (gmap string PyVal).

(** The stored attribute values of one listing. *)
Local Abbreviation Values := (list (string * PyVal)).

Record Store := mkStore {
  st_categories : list Category;
  st_attributes : list Attribute;
  st_locations : list Z;              (* primary keys of the Location rows *)
  st_listings : gmap Z Row;           (* Listing rows by primary key *)
  st_values : gmap Z Values;          (* attribute values by listing *)
}.

(** The body of a response: an error under a field name, or the listing.
    Modelled from the spec: [ListingSerializer] of
    [listings/serializers.py] is not part of the sources at hand; the
    full listing representation is kept as the row of the listing with
    its attribute values. *)
Inductive Body :=
| Errors (field : string) (message : Message)
| ListingOut (pk : Z) (listing : Row) (values : Values).

Local Abbreviation Handler A := (Result (Run (Response Body)) A).

(** What the listing views use of the files that are not part of the
    sources at hand. [listings/models.py] declares the members of
    [Listing.Condition], [Listing.DealType] and [Listing.SellerType] and
    the column defaults of [Listing]. [listings/serializers.py] defines
    [ListingCreateSerializer._save_attributes(listing, attributes)]: it
    reads the taxonomy and the listing and writes attribute values only,
    and it is given here as the values it leaves behind together with how
    it ended. *)
Class ListingsApp := {
  Condition_choices : list string;
  DealType_choices : list string;
  SellerType_choices : list string;
  Condition_USED : string;
  DealType_SELL : string;
  SellerType_PERSON : string;
  listing_defaults : Row;
  _save_attributes :
    list Category → list Attribute → Z → Row → list PyVal →
    gmap Z Values → Run () * gmap Z Values;
}.
Context `{ListingsApp}.

Definition set_listings (m : gmap Z Row) (st : Store) : Store :=
  mkStore (st_categories st) (st_attributes st) (st_locations st) m (st_values st).

Definition set_values (m : gmap Z Values) (st : Store) : Store :=
  mkStore (st_categories st) (st_attributes st) (st_locations st) (st_listings st) m.

(** [data.get(k)] and [data.get(k, d)] *)
Definition data_get (data : Row) (k : string) : PyVal := default PNone (data !! k).
Definition data_get_default (data : Row) (k : string) (d : PyVal) : PyVal :=
  default d (data !! k).

Definition is_none (v : PyVal) : bool :=
  match v with PNone => true | _ => false end.

Definition bad_request (field : string) (m : Message) : Run (Response Body) :=
  Done (mkResponse 400 (Errors field m)).

Definition require (b : bool) (r : Run (Response Body)) : Handler () :=
  if b then Ok () else Halt r.

Definition expect {A} (o : option A) (r : Run (Response Body)) : Handler A :=
  match o with Some a => Ok a | None => Halt r end.

(** [v not in dict(choices)]: the keys are strings; a list or a dict is
    unhashable and the lookup raises [TypeError] *)
Definition check_choice (field : string) (v : PyVal) (choices : list string)
  : Handler () :=
  match v with
  | PStr s =>
      require (bool_decide (s ∈ choices)) (bad_request field (InvalidAllowed choices))
  | PList _ | PDict _ => Halt (Raised "TypeError")
  | _ => Halt (bad_request field (InvalidAllowed choices))
  end.

Definition category_exists (st : Store) (pk : Z) : bool :=
  bool_decide (is_Some (get_category (st_categories st) pk)).

Definition location_exists (st : Store) (pk : Z) : bool :=
  bool_decide (pk ∈ st_locations st).

(** The primary key the database gives to a new row. *)
Definition fresh_pk (m : gmap Z Row) : Z :=
  1 + foldr Z.max 0 ((map_to_list m).*1).

(** [ListingCreateRawView.post], up to the call of
    [Listing.objects.create]: the keyword arguments of that call and the
    submitted attribute list, or the response of an early return. *)
Definition create_arguments (request_user : User) (data : Row) (st : Store)
  : Handler (Row * PyVal) :=
  let title := data_get data "title" in
  let category_id := data_get data "category" in
  let location_id := data_get data "location" in
  _ ← require (truthy title && truthy category_id && truthy location_id)
        (bad_request "detail"
           (Text "'title', 'category', and 'location' are required."));
  category_id ← expect (py_int category_id)
        (bad_request "category" (Text "Must be an integer id."));
  location_id ← expect (py_int location_id)
        (bad_request "location" (Text "Must be an integer id."));
  _ ← require (category_exists st category_id)
        (bad_request "category" (Text "Not found."));
  _ ← require (location_exists st location_id)
        (bad_request "location" (Text "Not found."));
  let description := data_get_default data "description" (PStr "") in
  let price_amount := data_get_default data "price_amount" (PInt 0) in
  let price_currency := data_get_default data "price_currency" (PStr "UZS") in
  let is_price_negotiable := data_get_default data "is_price_negotiable" (PBool false) in
  let condition := data_get_default data "condition" (PStr Condition_USED) in
  let deal_type := data_get_default data "deal_type" (PStr DealType_SELL) in
  let seller_type := data_get_default data "seller_type" (PStr SellerType_PERSON) in
  let lat := data_get data "lat" in
  let lon := data_get data "lon" in
  let attributes := data_get_default data "attributes" (PList []) in
  price_amount ← expect (py_float price_amount)
        (bad_request "price_amount" (Text "Must be a number."));
  let is_price_negotiable := to_bool is_price_negotiable in
  let lat := to_float_or_none lat in
  let lon := to_float_or_none lon in
  _ ← check_choice "condition" condition Condition_choices;
  _ ← check_choice "deal_type" deal_type DealType_choices;
  _ ← check_choice "seller_type" seller_type SellerType_choices;
  Ok (list_to_map
        [("user_id", PInt (user_id request_user));
         ("title", title);
         ("description", description);
         ("price_amount", PFloat price_amount);
         ("price_currency", price_currency);
         ("is_price_negotiable", PBool is_price_negotiable);
         ("condition", condition);
         ("deal_type", deal_type);
         ("seller_type", seller_type);
         ("category_id", PInt category_id);
         ("location_id", PInt location_id);
         ("lat", lat);
         ("lon", lon)],
      attributes).

(** the phone shown on the listing *)
Definition contact_phone_of (u : User) : string :=
  match profile_phone_e164 u with
  | Some p => if negb (String.eqb p "") then p else username u
  | None => username u
  end.

(** The end of both handlers: render the listing with its values. *)
Definition respond (code : Z) (pk : Z) (listing : Row) (st : Store)
  : Run (Response Body) * Store :=
  (Done (mkResponse code (ListingOut pk listing (default [] (st_values st !! pk)))), st).

(** The call of [_save_attributes]; an exception it raises leaves the
    handler, with the store as it is at that point. *)
Definition save_attributes_then (pk : Z) (listing : Row) (attributes : list PyVal)
    (st : Store) (k : Store → Run (Response Body) * Store)
  : Run (Response Body) * Store :=
  let '(r, values) :=
    _save_attributes (st_categories st) (st_attributes st) pk listing attributes
                     (st_values st) in
  let st' := set_values values st in
  match r with
  | Done _ => k st'
  | Raised e => (Raised e, st')
  | Diverged => (Diverged, st')
  end.

(** [ListingCreateRawView.post]. The view opens no transaction: every
    write of the object manager is in the store once it is made. *)
Definition ListingCreateRawView_post (request_user : User) (data : Row) (st : Store)
  : Run (Response Body) * Store :=
  match create_arguments request_user data st with
  | Halt r => (r, st)
  | Ok (arguments, attributes) =>
      (* listing = Listing.objects.create(...) *)
      let pk := fresh_pk (st_listings st) in
      let listing := arguments ∪ listing_defaults in
      let st := set_listings (<[pk := listing]> (st_listings st)) st in
      (* listing.contact_phone_masked = phone; listing.save(update_fields=[...]) *)
      let phone := contact_phone_of request_user in
      let listing := <["contact_phone_masked" := PStr phone]> listing in
      let st := set_listings
                  (alter (insert "contact_phone_masked" (PStr phone)) pk (st_listings st))
                  st in
      match attributes with
      | PList (a :: l) =>
          save_attributes_then pk listing (a :: l) st (respond 201 pk listing)
      | _ => respond 201 pk listing st
      end
  end.

(** One assignment of [patch]: [if k in data: listing.col = f(data.get(k))] *)
Definition assign_if_present (data : Row) (k col : string)
    (f : PyVal → Handler PyVal) (listing : Row) : Handler Row :=
  match data !! k with
  | Some v => v' ← f v; Ok (<[col := v']> listing)
  | None => Ok listing
  end.

(** [listing.col = v if v is not None else listing.col] *)
Definition assign_unless_none (v : PyVal) (col : string) (listing : Row) : Row :=
  if is_none v then listing else <[col := v]> listing.

Definition checked_choice (field : string) (choices : list string) (v : PyVal)
  : Handler PyVal :=
  _ ← check_choice field v choices; Ok v.

(** [ListingUpdateRawView.patch], from the validation of the fields to
    the last assignment before [listing.save()]. *)
Definition patch_fields (data : Row) (st : Store) (listing : Row) : Handler Row :=
  let title := data_get data "title" in
  let category_id := data_get data "category" in
  let location_id := data_get data "location" in
  let contact_phone := data_get data "contact_phone" in
  let contact_name := data_get data "contact_name" in
  let contact_email := data_get data "contact_email" in
  _ ← require (negb (negb (is_none title) && negb (truthy title)))
        (bad_request "title" (Text "Title cannot be empty."));
  category_id ←
    (if is_none category_id then Ok None
     else
       c ← expect (py_int category_id)
             (bad_request "category" (Text "Must be an integer id."));
       _ ← require (category_exists st c)
             (bad_request "category" (Text "Not found."));
       Ok (Some c));
  location_id ←
    (if is_none location_id then Ok None
     else
       l ← expect (py_int location_id)
             (bad_request "location" (Text "Must be an integer id."));
       _ ← require (location_exists st l)
             (bad_request "location" (Text "Not found."));
       Ok (Some l));
  let listing := assign_unless_none title "title" listing in
  listing ← assign_if_present data "description" "description" Ok listing;
  listing ← assign_if_present data "price_amount" "price_amount"
              (λ v, x ← expect (py_float v)
                          (bad_request "price_amount" (Text "Must be a number."));
                    Ok (PFloat x)) listing;
  listing ← assign_if_present data "price_currency" "price_currency" Ok listing;
  listing ← assign_if_present data "is_price_negotiable" "is_price_negotiable"
              (λ v, Ok (PBool (to_bool v))) listing;
  listing ← assign_if_present data "condition" "condition"
              (checked_choice "condition" Condition_choices) listing;
  listing ← assign_if_present data "deal_type" "deal_type"
              (checked_choice "deal_type" DealType_choices) listing;
  listing ← assign_if_present data "seller_type" "seller_type"
              (checked_choice "seller_type" SellerType_choices) listing;
  let listing :=
    match category_id with
    | Some c => <["category_id" := PInt c]> listing
    | None => listing
    end in
  let listing :=
    match location_id with
    | Some l => <["location_id" := PInt l]> listing
    | None => listing
    end in
  listing ← assign_if_present data "lat" "lat" (λ v, Ok (to_float_or_none v)) listing;
  listing ← assign_if_present data "lon" "lon" (λ v, Ok (to_float_or_none v)) listing;
  let listing := assign_unless_none contact_email "contact_email" listing in
  let listing := assign_unless_none contact_name "contact_name" listing in
  let listing := assign_unless_none contact_phone "contact_phone" listing in
  Ok listing.

(** [Listing.objects.get(pk=pk, user=request.user)] *)
Definition get_own_listing (st : Store) (pk : Z) (u : User) : option Row :=
  listing ← st_listings st !! pk;
  match listing !! "user_id" with
  | Some (PInt owner) => if owner =? user_id u then Some listing else None
  | _ => None
  end.

(** [ListingUpdateRawView.patch] *)
Definition ListingUpdateRawView_patch
    (request_user : User) (pk : Z) (data : Row) (st : Store)
  : Run (Response Body) * Store :=
  match get_own_listing st pk request_user with
  | None => (Done (mkResponse 404 (Errors "detail" (Text "Not found"))), st)
  | Some listing =>
      match patch_fields data st listing with
      | Halt r => (r, st)
      | Ok listing =>
          (* listing.save() *)
          let st := set_listings (<[pk := listing]> (st_listings st)) st in
          match data_get data "attributes" with
          | PList attributes =>
              save_attributes_then pk listing attributes st (respond 200 pk listing)
          | _ => respond 200 pk listing st
          end
      end
  end.

End listings.

(** ** A runtime for the examples

    Floats are decimal fractions [m / 10^k], [int] and [float] read plain
    ASCII decimal literals, [strip] and [lower] act on ASCII. It is one
    instance of [PyRuntime] among others; nothing below depends on it
    except the examples that evaluate the handlers. *)

Module Decimal.

Fixpoint lstrip (s : string) : string :=
  match s with
  | String a s' => if Ascii.is_space a then lstrip s' else s
  | EmptyString => EmptyString
  end.

Definition strip (s : string) : string :=
  String.rev (lstrip (String.rev (lstrip s))).

Definition lower_ascii (a : ascii) : ascii :=
  let n := nat_of_ascii a in
  if ((65 <=? n) && (n <=? 90))%nat then ascii_of_nat (n + 32) else a.

Fixpoint lower (s : string) : string :=
  match s with
  | String a s' => String (lower_ascii a) (lower s')
  | EmptyString => EmptyString
  end.

(** the digits of [s] read after the number [acc], and how many there are *)
Fixpoint digits (acc : Z) (count : nat) (s : string) : option (Z * nat * string) :=
  match s with
  | String a s' =>
      match Ascii.is_nat a with
      | Some d => digits (10 * acc + Z.of_nat d) (S count) s'
      | None => Some (acc, count, s)
      end
  | EmptyString => Some (acc, count, s)
  end.

Definition signed (s : string) : Z * string :=
  match s with
  | String "-" s' => (-1, s')
  | String "+" s' => (1, s')
  | _ => (1, s)
  end.

Definition parse_int (s : string) : option Z :=
  let '(sign, s) := signed (strip s) in
  match digits 0 0 s with
  | Some (n, S _, EmptyString) => Some (sign * n)
  | _ => None
  end.

Definition parse_float (s : string) : option (Z * nat) :=
  let '(sign, s) := signed (strip s) in
  match digits 0 0 s with
  | Some (n, S _, EmptyString) => Some (sign * n, O)
  | Some (n, S _, String "." s') =>
      match digits n 0 s' with
      | Some (m, k, EmptyString) => Some (sign * m, k)
      | _ => None
      end
  | _ => None
  end.

#[global] Instance runtime : PyRuntime := {|
  pyfloat := Z * nat;
  float_of_int n := Some (n, O);
  float_of_str := parse_float;
  int_of_float x := Some (Z.quot x.1 (10 ^ Z.of_nat x.2));
  int_of_str := parse_int;
  float_truth x := negb (x.1 =? 0);
  str_strip := strip;
  str_lower := lower;
|}.

End Decimal.

(** ** A runtime with a NaN

    The decimal fractions of [Decimal] with one more float, the NaN
    ([None]), which [float] reads from the text nan. It is used where a
    statement is about the NaN; it is no instance that the other
    examples resolve to. *)

Module Ieee.

Definition parse_float (s : string) : option (option (Z * nat)) :=
  if String.eqb (Decimal.lower (Decimal.strip s)) "nan" then Some None
  else Some <$> Decimal.parse_float s.

Definition runtime : PyRuntime := {|
  pyfloat := option (Z * nat);
  float_of_int n := Some (Some (n, O));
  float_of_str := parse_float;
  int_of_float x := (λ y : Z * nat, Z.quot y.1 (10 ^ Z.of_nat y.2)) <$> x;
  int_of_str := Decimal.parse_int;
  float_truth x := match x with Some y => negb (y.1 =? 0) | None => true end;
  str_strip := Decimal.strip;
  str_lower := Decimal.lower;
|}.

Definition compare : @PyFloatCompare runtime := {|
  float_eqb := λ x y : @pyfloat runtime,
    match x, y with
    | Some a, Some b => a.1 * 10 ^ Z.of_nat b.2 =? b.1 * 10 ^ Z.of_nat a.2
    | _, _ => false
    end;
  float_isnan := λ x : @pyfloat runtime,
    match x with None => true | Some _ => false end;
  float_eqb_refl := λ x,
    match x with
    | Some a => λ _, Z.eqb_refl _
    | None => λ Hnan, ltac:(discriminate Hnan)
    end;
  float_eqb_nan := λ x y,
    match x with
    | Some a => λ Hnan, ltac:(discriminate Hnan)
    | None => λ _, eq_refl
    end;
|}.

End Ieee.

(** ** Sample data for the examples *)

Definition sample_root : Category :=
  mkCategory 1 None "Transport" (Some "Транспорт") (Some "Transport")
             "transport" "car" None false 1.
Definition sample_child : Category :=
  mkCategory 2 (Some 1) "Cars" None None "cars" "car" None true 2.
Definition sample_other : Category :=
  mkCategory 3 (Some 1) "Bikes" None None "bikes" "bike" None true 2.
Definition sample_categories : list Category :=
  [sample_root; sample_child; sample_other].

(** [color] is a choice at the root and is declared again, as a text,
    at the child. *)
Definition color_at_root : Attribute :=
  mkAttribute 10 1 "color" TChoice "Color" ["red"; "blue"] true.
Definition color_at_child : Attribute :=
  mkAttribute 11 2 "color" TText "Color" [] false.
Definition sample_attributes : list Attribute :=
  [color_at_root; color_at_child].

(** An interpreter with its default recursion limit of 1000 frames,
    all of them taken as free for the view. *)
#[global] Instance sample_stack : PyStack := {|
  frames_left := 1000;
  render_depth := 1000;
|}.

(** A chain of [n] categories: the row 1 is the root and the row [i + 1]
    hangs under the row [i]. *)
Definition chain (n : nat) : list Category :=
  (λ i : nat,
     mkCategory (Z.of_nat i)
                (if (i =? 1)%nat then None else Some (Z.of_nat i - 1))
                "Level" None None "level" "" None false 0)
  <$> seq 1 n.


(** The status of the response a handler ended with, if it ended with one. *)
Definition status_of {B} (r : Run (Response B)) : option Z :=
  match r with
  | Done resp => Some (status resp)
  | _ => None
  end.

(** *** A listings application for the examples

    The enumerations hold two members each, and the attribute helper is
    [sample_save_attributes] below. *)

(** a submitted [{"key": ..., "value": ...}] pair *)
Definition submitted_pair (v : PyVal) : option (string * PyVal) :=
  match v with
  | PDict d =>
      match (list_to_map d : gmap string PyVal) !! "key" with
      | Some (PStr k) => Some (k, default PNone ((list_to_map d : gmap string PyVal) !! "value"))
      | _ => None
      end
  | _ => None
  end.

(** the schema resolved for the category of a listing *)
Definition schema_of_listing (cats : list Category) (attrs : list Attribute)
    (listing : gmap string PyVal) : list Attribute :=
  match listing !! "category_id" with
  | Some (PInt c) =>
      match CategoryAttributesView_get cats attrs c with
      | Done r => body r
      | _ => []
      end
  | _ => []
  end.

(** Modelled from the spec: [_save_attributes] of
    [listings/serializers.py] is not part of the sources at hand. This
    helper follows the first rule of the attribute coercer: it resolves
    the schema of the category of the listing, rejects the submitted list
    with a validation error when a pair names a key the schema does not
    have, and stores the pairs as the values of the listing otherwise. *)
Definition sample_save_attributes
    (cats : list Category) (attrs : list Attribute) (pk : Z)
    (listing : gmap string PyVal) (attributes : list PyVal)
    (values : gmap Z (list (string * PyVal)))
  : Run () * gmap Z (list (string * PyVal)) :=
  let keys := attr_key <$> schema_of_listing cats attrs listing in
  if forallb (λ v, match submitted_pair v with
                   | Some (k, _) => bool_decide (k ∈ keys)
                   | None => false
                   end) attributes
  then (Done (), <[pk := omap submitted_pair attributes]> values)
  else (Raised "ValidationError", values).

#[global] Instance sample_app : ListingsApp := {|
  Condition_choices := ["new"; "used"];
  DealType_choices := ["sell"; "exchange"];
  SellerType_choices := ["person"; "business"];
  Condition_USED := "used";
  DealType_SELL := "sell";
  SellerType_PERSON := "person";
  listing_defaults :=
    list_to_map [("status", PStr "active"); ("contact_name", PStr "");
                 ("contact_email", PStr ""); ("contact_phone", PStr "")];
  _save_attributes := sample_save_attributes;
|}.

Definition sample_user : User := mkUser 7 "+998901234567" None.

Definition sample_listing : gmap string PyVal :=
  list_to_map
    [("user_id", PInt 7); ("title", PStr "Bike"); ("description", PStr "");
     ("price_amount", PFloat (100, 0%nat)); ("price_currency", PStr "UZS");
     ("is_price_negotiable", PBool false); ("condition", PStr "used");
     ("deal_type", PStr "sell"); ("seller_type", PStr "person");
     ("category_id", PInt 2); ("location_id", PInt 5);
     ("lat", PNone); ("lon", PNone);
     ("contact_phone_masked", PStr "+998901234567")].

Definition sample_store : Store :=
  mkStore sample_categories sample_attributes [5]
          {[ 1 := sample_listing ]}
          {[ 1 := [("color", PStr "red")] ]}.

(** a create request for a category that does not exist *)
Definition create_in_missing_category : gmap string PyVal :=
  list_to_map [("title", PStr "Car"); ("category", PInt 99); ("location", PInt 5)].

(** a create request whose attribute list names a key outside the schema *)
Definition create_with_unknown_attribute : gmap string PyVal :=
  list_to_map
    [("title", PStr "Car"); ("category", PInt 2); ("location", PInt 5);
     ("attributes", PList [PDict [("key", PStr "mileage"); ("value", PInt 10)]])].

(** the update request of the spec's scenario *)
Definition update_price_only : gmap string PyVal :=
  {[ "price_amount" := PStr "150.5" ]}.

(** the keyword arguments [post] builds for [create_with_unknown_attribute] *)
Definition sample_arguments : gmap string PyVal :=
  list_to_map
    [("user_id", PInt 7); ("title", PStr "Car"); ("description", PStr "");
     ("price_amount", PFloat (0, 0%nat)); ("price_currency", PStr "UZS");
     ("is_price_negotiable", PBool false); ("condition", PStr "used");
     ("deal_type", PStr "sell"); ("seller_type", PStr "person");
     ("category_id", PInt 2); ("location_id", PInt 5);
     ("lat", PNone); ("lon", PNone)].

Definition sample_unknown_attribute : PyVal :=
  PDict [("key", PStr "mileage"); ("value", PInt 10)].

(** *** Vocabulary of the update statement *)

(** The key of the payload that [patch] reads before it assigns the
    column [col] of the listing; [None] for a column it never assigns. *)
Definition payload_key (col : string) : option string :=
  if bool_decide (col ∈ ["title"; "description"; "price_amount"; "price_currency";
                         "is_price_negotiable"; "condition"; "deal_type";
                         "seller_type"; "lat"; "lon"; "contact_email";
                         "contact_name"; "contact_phone"])
  then Some col
  else if String.eqb col "category_id" then Some "category"
  else if String.eqb col "location_id" then Some "location"
  else None.

(** The payload holds nothing for the column [col]. *)
Definition absent_from `{PyRuntime} (data : gmap string PyVal) (col : string) : Prop :=
  match payload_key col with
  | Some key => data !! key = None
  | None => True
  end.

(** The row [l'] agrees with the row [l] on every column the payload
    holds nothing for. *)
Definition frame `{PyRuntime} (data l l' : gmap string PyVal) : Prop :=
  ∀ col, absent_from data col → l' !! col = l !! col.

(** *** Vocabulary of the tree statements *)

(** [p] is the parent of [x]: a row with id [x] has [p] as [parent_id]. *)
Definition parent_link (cats : list Category) (x p : Z) : Prop :=
  ∃ c, c ∈ cats ∧ cat_id c = x ∧ cat_parent_id c = Some p.

(** The parent links form a forest: no node is its own ancestor. *)
Definition acyclic (cats : list Category) : Prop :=
  ∀ x, ¬ tc (parent_link cats) x x.

(** Every parent id is the id of a row (the foreign key holds). *)
Definition parents_exist (cats : list Category) : Prop :=
  ∀ c p, c ∈ cats → cat_parent_id c = Some p → p ∈ cat_id <$> cats.

(** [ancestor_path cats x l]: [l] lists [x], its parent, the parent of
    that, and so on up to a row without parent. Its length is the depth
    of [x] in the tree. *)
Inductive ancestor_path (cats : list Category) : Z → list Z → Prop :=
| path_root c :
    c ∈ cats → cat_parent_id c = None →
    ancestor_path cats (cat_id c) [cat_id c]
| path_step c p l :
    c ∈ cats → cat_parent_id c = Some p → ancestor_path cats p l →
    ancestor_path cats (cat_id c) (cat_id c :: l).

Section climbing.
Context (next : Z → option Z).

(** the first [n] nodes met when climbing from [x] along [next] *)
Fixpoint trail (n : nat) (x : Z) : list Z :=
  match n with
  | O => []
  | S n' => x :: match next x with
                 | Some p => trail n' p
                 | None => []
                 end
  end.

(** [x] is [k] links below a node without successor *)
Fixpoint at_level (k : nat) (x : Z) : bool :=
  match next x, k with
  | None, O => true
  | Some p, S k' => at_level k' p
  | _, _ => false
  end.

End climbing.

(** the link the ancestor walk follows from the row with id [x] *)
Definition parent_of (cats : list Category) (x : Z) : option Z :=
  c ← get_category cats x; cat_parent_id c.

(** *** Vocabulary of the tree assembly *)

(** the [children] list of the node [i] *)
Definition kids (st : TreeState) (i : Z) : list Z := deref st (ChildrenOf i).

(** what [arr.sort(key=...)] makes of a list of node references *)
Definition sort_refs (st : TreeState) (l : list Z) : list Z :=
  sort_by_key tuple_ltb (sort_key st) l.

(** the node [i] may stand before the node [j] *)
Definition ref_le (st : TreeState) (i j : Z) : Prop :=
  key_le tuple_ltb (sort_key st) i j.

(** [st'] is [st] with some of its lists sorted. *)
Definition sorts_into (st st' : TreeState) : Prop :=
  (∀ i, node_fields <$> ts_nodes st' !! i = node_fields <$> ts_nodes st !! i) ∧
  (∀ r, deref st' r = deref st r ∨ deref st' r = sort_refs st (deref st r)).

(** The list [l] and the lists below it, [f] levels deep, are sorted. *)
Fixpoint sorted_to (f : nat) (st : TreeState) (l : list Z) : Prop :=
  match f with
  | O => True
  | S f' => Sorted (ref_le st) l ∧ Forall (λ i, sorted_to f' st (kids st i)) l
  end.

(** The nodes of [l] exist and the nesting below [l] is less than [f]
    levels deep. *)
Fixpoint shallow (f : nat) (st : TreeState) (l : list Z) : Prop :=
  match f with
  | O => False
  | S f' => Forall (λ i, is_Some (ts_nodes st !! i) ∧ shallow f' st (kids st i)) l
  end.

(** A node may stand before another: its order is lower, or the orders
    are equal and its name is not after the other name. *)
Definition node_le (a b : NodeData) : Prop :=
  n_order a < n_order b ∨ (n_order a = n_order b ∧ String.le (n_name a) (n_name b)).

(** Every sibling list of the tree is sorted. *)
#[warnings="-register-all"]
Inductive sorted_tree : Tree → Prop :=
| sorted_node d ch :
    Sorted node_le (tree_data <$> ch) → Forall sorted_tree ch →
    sorted_tree (TNode d ch).

Definition sorted_forest (forest : list Tree) : Prop :=
  Sorted node_le (tree_data <$> forest) ∧ Forall sorted_tree forest.

(** the ids of the nodes of a tree, a parent before its children *)
Fixpoint tree_ids (t : Tree) : list Z :=
  match t with
  | TNode d ch => n_id d :: flat_map tree_ids ch
  end.

Definition forest_ids (forest : list Tree) : list Z := flat_map tree_ids forest.

(** [placed lang cats parent t]: the node of [t] renders a loaded
    category that names [parent] as its parent (for a root: that has no
    parent, or whose parent is not loaded), and so on for its children. *)
#[warnings="-register-all"]
Inductive placed (lang : string) (cats : list Category) : option Z → Tree → Prop :=
| placed_node parent c ch :
    c ∈ cats →
    match parent with
    | Some p => cat_parent_id c = Some p
    | None =>
        cat_parent_id c = None ∨
        ∃ p, cat_parent_id c = Some p ∧ p ∉ cat_id <$> cats
    end →
    Forall (placed lang cats (Some (cat_id c))) ch →
    placed lang cats parent (TNode (node_data lang c) ch).

Section unfolding.
Context (kids_of : Z → list Z).

(** the nodes met when the lists are unfolded from [l], [f] levels deep,
    a parent before its children *)
Fixpoint unfold (f : nat) (l : list Z) : list Z :=
  match f with
  | O => []
  | S f' => flat_map (λ y, y :: unfold f' (kids_of y)) l
  end.

End unfolding.

(** the parent a row is hung under when the rows with ids [ids] are
    loaded: its [parent_id], unless that is null, zero or not loaded *)
Definition attach (ids : list Z) (c : Category) : option Z :=
  match cat_parent_id c with
  | Some p => if negb (p =? 0) && bool_decide (p ∈ ids) then Some p else None
  | None => None
  end.

(** the same, for the row with id [x] *)
Definition up_of (cats : list Category) (x : Z) : option Z :=
  c ← get_category cats x; attach (cat_id <$> cats) c.

(** The nesting of the loaded rows fits into [d] nested calls: the call
    on the roots, and for a row that is [k] links below its root the
    [k + 1] calls from there down to its own child list. *)
Definition nesting_fits (cats : list Category) (d : nat) : Prop :=
  (1 ≤ d)%nat ∧
  ∀ x k, x ∈ cat_id <$> cats → at_level (up_of cats) k x = true → (k + 2 ≤ d)%nat.
(** ** Sample data with a cycle of parent links *)

(** The rows 4 and 5 name each other as parent, and the row 6 hangs
    below them. *)
Definition sample_phones : Category :=
  mkCategory 4 (Some 5) "Phones" None None "phones" "phone" None false 1.
Definition sample_tablets : Category :=
  mkCategory 5 (Some 4) "Tablets" None None "tablets" "tablet" None false 1.
Definition sample_cases : Category :=
  mkCategory 6 (Some 4) "Cases" None None "cases" "case" None true 1.
Definition cyclic_categories : list Category :=
  [sample_root; sample_child; sample_phones; sample_tablets; sample_cases].

(** a request for the whole tree *)
Definition plain_request : Request := mkRequest ∅ None.

(** [x] is on a cycle of parent links, or below one. *)
Definition below_cycle (cats : list Category) (x : Z) : Prop :=
  ∃ y, rtc (parent_link cats) x y ∧ tc (parent_link cats) y y.

(** *** Vocabulary of the nodes of a rendered tree *)

Definition tree_children (t : Tree) : list Tree := let 'TNode _ ch := t in ch.

(** the nodes of a tree: the tree itself and the nodes below it *)
Fixpoint tree_nodes (t : Tree) : list Tree :=
  match t with
  | TNode d ch => t :: flat_map tree_nodes ch
  end.

Definition forest_nodes (forest : list Tree) : list Tree :=
  flat_map tree_nodes forest.

(** a request for the children of the category 1 *)
Definition children_request : Request :=
  mkRequest {["parent_id" := "1"]} None.

(** ** The locations endpoint *)

(** Modelled from the use the view makes of it: the [Location] model of
    [taxonomy/models.py] is not part of the sources at hand; the view
    filters by [parent_id] and orders by [name]. *)
Record Location := mkLocation {
  loc_id : Z;
  loc_parent_id : option Z;
  loc_name : string;
}.

Section locations.
Context `{PyRuntime}.

(** [LocationsView.get]. [LocationSerializer(qs, many=True)] renders one
    entry per row, in the order of the rows; the body is kept as the list
    of rows. The view catches the [ValueError] of [int] only: the
    [OverflowError] of a [parent_id] the database does not take leaves
    it. *)
Definition LocationsView_get (request : Request) (locations : list Location)
  : Run (Response (list Location)) :=
  let parent_id := query_params request !! "parent_id" in
  let lang := _lang_from_request request in
  let roots :=
    Done (mkResponse 200
            (sort_by_key String.ltb loc_name
                         (filter (λ l, loc_parent_id l = None) locations))) in
  match parent_id with
  | Some s =>
      if negb (String.eqb s "") then
        match int_of_str s with
        | Some pid =>
            if db_int pid then
              Done (mkResponse 200
                      (sort_by_key String.ltb loc_name
                                   (filter (λ l, loc_parent_id l = Some pid) locations)))
            else Raised "OverflowError"
        | None => Done (mkResponse 200 [])       (* except ValueError *)
        end
      else roots
  | None => roots
  end.

End locations.

(** The request asks for the children of an integer that the database
    does not take as a lookup value. *)
Definition overflowing `{PyRuntime} (request : Request) : bool :=
  match query_params request !! "parent_id" with
  | Some s =>
      if String.eqb s "" then false
      else match int_of_str s with
           | Some pid => negb (db_int pid)
           | None => false
           end
  | None => false
  end.

(** ** Sample requests of the listing writes *)

(** a create request that names another user as owner *)
Definition create_for_someone_else : gmap string PyVal :=
  list_to_map
    [("title", PStr "Car"); ("category", PInt 2); ("location", PInt 5);
     ("user_id", PInt 99)].

(** an update whose price can be read and whose condition is no member
    of the enumeration *)
Definition update_with_bad_condition : gmap string PyVal :=
  list_to_map [("price_amount", PStr "150.5"); ("condition", PStr "broken")].

(** an update of the title whose attribute list names a key outside the
    schema *)
Definition update_with_unknown_attribute : gmap string PyVal :=
  list_to_map
    [("title", PStr "New");
     ("attributes", PList [PDict [("key", PStr "mileage"); ("value", PInt 10)]])].

(** ** The state of a listing: refresh, deactivate, activate *)

(** The members of [Listing.Status] that the views name;
    [listings/models.py], which declares them, is not part of the
    sources at hand. *)
Class ListingStatus := {
  Status_ACTIVE : string;
  Status_PAUSED : string;
  Status_CLOSED : string;
}.

Section listing_state.
Context `{PyRuntime} `{!ListingStatus}.

Local Abbreviation Row := (gmap string PyVal).

(** [Response({"detail": "Not found"}, status=404)] *)
Definition not_found : Response PyVal :=
  mkResponse 404 (PDict [("detail", PStr "Not found")]).

(** [listing.save(update_fields=[...])]: the named columns of the stored
    row take the values of the instance *)
Definition save_update_fields (pk : Z) (columns : list (string * PyVal)) (st : Store)
  : Store :=
  set_listings
    (alter (λ row, foldl (λ r kv, <[kv.1 := kv.2]> r) row columns) pk (st_listings st))
    st.

(** [ListingRefreshView.post]; [now] is the value of [timezone.now()] *)
Definition ListingRefreshView_post (request_user : User) (pk : Z) (now : PyVal)
    (st : Store) : Run (Response PyVal) * Store :=
  match get_own_listing st pk request_user with
  | None => (Done not_found, st)
  | Some listing =>
      let refreshed_at := now in
      (Done (mkResponse 200 (PDict [("status", PStr "refreshed");
                                    ("refreshed_at", refreshed_at)])),
       save_update_fields pk [("refreshed_at", refreshed_at)] st)
  end.

(** [ListingDeactivateView.post] *)
Definition ListingDeactivateView_post (request_user : User) (pk : Z) (st : Store)
  : Run (Response PyVal) * Store :=
  match get_own_listing st pk request_user with
  | None => (Done not_found, st)
  | Some listing =>
      let status := PStr Status_PAUSED in
      (Done (mkResponse 200 (PDict [("status", PStr "deactivated");
                                    ("new_status", status)])),
       save_update_fields pk [("status", status)] st)
  end.

(** [v in [Listing.Status.PAUSED, Listing.Status.CLOSED]]: the members
    are strings, and only a string is equal to one *)
Definition status_among (v : PyVal) (members : list string) : bool :=
  match v with
  | PStr s => bool_decide (s ∈ members)
  | _ => false
  end.

(** the answer of [ListingActivateView.post] to a listing that is
    neither paused nor closed *)
Definition activation_refused : Response PyVal :=
  mkResponse 400 (PDict [("detail", PStr "Can only activate paused or closed listings")]).

(** [ListingActivateView.post]; [now] is the value of [timezone.now()] *)
Definition ListingActivateView_post (request_user : User) (pk : Z) (now : PyVal)
    (st : Store) : Run (Response PyVal) * Store :=
  match get_own_listing st pk request_user with
  | None => (Done not_found, st)
  | Some listing =>
      if negb (status_among (default PNone (listing !! "status"))
                            [Status_PAUSED; Status_CLOSED])
      then (Done activation_refused, st)
      else
        let status := PStr Status_ACTIVE in
        (Done (mkResponse 200 (PDict [("status", PStr "activated");
                                      ("new_status", status)])),
         save_update_fields pk [("status", status); ("refreshed_at", now)] st)
  end.

End listing_state.

(** ** The checks a stored listing has passed *)

Section checked_rows.
Context `{PyRuntime} `{!ListingsApp} `{!ListingStatus}.

(** what the checks of the create and the update handler establish for
    the value of a column; nothing for the columns they do not check *)
Definition column_checked (st : Store) (col : string) (v : PyVal) : Prop :=
  if String.eqb col "user_id" then ∃ u, v = PInt u
  else if String.eqb col "title" then truthy v = true
  else if String.eqb col "category_id" then
    ∃ c, v = PInt c ∧ category_exists st c = true
  else if String.eqb col "location_id" then
    ∃ l, v = PInt l ∧ location_exists st l = true
  else if String.eqb col "price_amount" then ∃ x, v = PFloat x
  else if String.eqb col "is_price_negotiable" then ∃ b, v = PBool b
  else if String.eqb col "condition" then ∃ s, v = PStr s ∧ s ∈ Condition_choices
  else if String.eqb col "deal_type" then ∃ s, v = PStr s ∧ s ∈ DealType_choices
  else if String.eqb col "seller_type" then ∃ s, v = PStr s ∧ s ∈ SellerType_choices
  else if String.eqb col "lat" || String.eqb col "lon" then
    v = PNone ∨ ∃ x, v = PFloat x
  else True.

Definition checked_columns : list string :=
  ["user_id"; "title"; "category_id"; "location_id"; "price_amount";
   "is_price_negotiable"; "condition"; "deal_type"; "seller_type"; "lat"; "lon"].

(** The row has every checked column, with a value that passes. *)
Definition row_checked (st : Store) (row : gmap string PyVal) : Prop :=
  ∀ col, col ∈ checked_columns → ∃ v, row !! col = Some v ∧ column_checked st col v.

Definition store_checked (st : Store) : Prop :=
  ∀ pk row, st_listings st !! pk = Some row → row_checked st row.

(** One call of a handler that writes listings, with any user, any
    payload and any outcome, takes the store from [st] to [st']. *)
Inductive listing_write (st : Store) : Store → Prop :=
| write_create u data :
    listing_write st (ListingCreateRawView_post u data st).2
| write_update u pk data :
    listing_write st (ListingUpdateRawView_patch u pk data st).2
| write_refresh u pk now :
    listing_write st (ListingRefreshView_post u pk now st).2
| write_deactivate u pk :
    listing_write st (ListingDeactivateView_post u pk st).2
| write_activate u pk now :
    listing_write st (ListingActivateView_post u pk now st).2.

End checked_rows.

(** ** The media of a listing *)

(** A [ListingMedia] row, as far as the views use it: the listing it
    belongs to, its image and its [order]; [listings/models.py] is not
    part of the sources at hand. The rows are kept by primary key. *)
Record ListingMedia := mkListingMedia {
  media_listing_id : Z;
  media_image : string;
  media_order : Z;
}.

(** [x == n] for a float [x] and an integer [n], which decides whether a
    float is a member of a set of integers *)
Class PyFloatEq `{PyRuntime} := {
  float_eq_int : pyfloat → Z → bool;
}.

(** [(order, id)] as the sort key of [order_by("order", "id")] *)
Definition order_id_ltb (a b : Z * Z) : bool :=
  (a.1 <? b.1) || ((a.1 =? b.1) && (a.2 <? b.2)).

Section media.
Context `{PyRuntime} `{!PyFloatEq}.

Local Abbreviation Row := (gmap string PyVal).
Local Abbreviation MediaTable := (gmap Z ListingMedia).

(** The body of a response of the media views.
    [ListingMediaSerializer] of [listings/serializers.py] is not part of
    the sources at hand; it renders one entry per row, and a rendered row
    is kept as the row with its key. *)
Inductive MediaBody :=
| Detail (s : string)                          (* {"detail": s} *)
| NotInListing (media_id : PyVal) (pk : Z)     (* f"Media {media_id} does not belong to listing {pk}" *)
| Deleted                                      (* {"status": "deleted"} *)
| MediaList (media : list (Z * ListingMedia)). (* {"media": [...]} *)

(** [listing.media.all()]: the rows of the listing, in no stated order *)
Definition media_of (pk : Z) (tbl : MediaTable) : list (Z * ListingMedia) :=
  filter (λ kv, media_listing_id kv.2 = pk) (map_to_list tbl).

(** [ListingMediaDeleteView.delete] *)
Definition ListingMediaDeleteView_delete
    (request_user : User) (pk media_id : Z) (st : Store) (tbl : MediaTable)
  : Run (Response MediaBody) * MediaTable :=
  match get_own_listing st pk request_user with
  | None => (Done (mkResponse 404 (Detail "Not found")), tbl)
  | Some listing =>
      (* ListingMedia.objects.get(id=media_id, listing=listing) *)
      match tbl !! media_id with
      | Some media =>
          if bool_decide (media_listing_id media = pk)
          then (Done (mkResponse 200 Deleted), delete media_id tbl)
          else (Done (mkResponse 404 (Detail "Not found")), tbl)
      | None => (Done (mkResponse 404 (Detail "Not found")), tbl)
      end
  end.

(** [media_id in existing_ids], a set of integers: a boolean is the
    integer 0 or 1, a float is a member when it is equal to a member;
    [None] and strings are never members; a list or a dict is unhashable
    and the test raises [TypeError], for which [None] stands *)
Definition in_id_set (media_id : PyVal) (existing_ids : list Z) : option bool :=
  match media_id with
  | PInt n => Some (bool_decide (n ∈ existing_ids))
  | PBool b => Some (bool_decide ((if b then 1 else 0) ∈ existing_ids))
  | PFloat x => Some (existsb (float_eq_int x) existing_ids)
  | PNone | PStr _ => Some false
  | PList _ | PDict _ => None
  end.

(** the first loop of [ListingMediaReorderView.post] *)
Fixpoint check_media_ids (pk : Z) (existing_ids : list Z) (media_ids : list PyVal)
  : Result (Run (Response MediaBody)) () :=
  match media_ids with
  | [] => Ok ()
  | media_id :: rest =>
      match in_id_set media_id existing_ids with
      | Some true => check_media_ids pk existing_ids rest
      | Some false => Halt (Done (mkResponse 400 (NotInListing media_id pk)))
      | None => Halt (Raised "TypeError")
      end
  end.

(** [ListingMedia.objects.filter(id=media_id, listing=listing).update(order=order)] *)
Definition update_order (pk media_id order : Z) (tbl : MediaTable) : MediaTable :=
  match tbl !! media_id with
  | Some media =>
      if bool_decide (media_listing_id media = pk)
      then <[media_id := mkListingMedia (media_listing_id media) (media_image media) order]> tbl
      else tbl
  | None => tbl
  end.

(** the second loop, [for order, media_id in enumerate(media_ids)], from
    the position [order] on. The lookup [id=media_id] prepares the value
    with [int]; a value [int] cannot read leaves the loop with its
    exception, after the updates made so far. *)
Fixpoint reorder_from (pk : Z) (order : Z) (media_ids : list PyVal) (tbl : MediaTable)
  : Run () * MediaTable :=
  match media_ids with
  | [] => (Done (), tbl)
  | media_id :: rest =>
      match py_int media_id with
      | Some n => reorder_from pk (order + 1) rest (update_order pk n order tbl)
      | None => (Raised "TypeError", tbl)
      end
  end.

(** [ListingMediaReorderView.post] *)
Definition ListingMediaReorderView_post
    (request_user : User) (pk : Z) (data : Row) (st : Store) (tbl : MediaTable)
  : Run (Response MediaBody) * MediaTable :=
  match get_own_listing st pk request_user with
  | None => (Done (mkResponse 404 (Detail "Not found")), tbl)
  | Some listing =>
      match default (PList []) (data !! "media_ids") with
      | PList media_ids =>
          let existing_ids := (media_of pk tbl).*1 in
          match check_media_ids pk existing_ids media_ids with
          | Halt r => (r, tbl)
          | Ok _ =>
              match reorder_from pk 0 media_ids tbl with
              | (Done _, tbl') =>
                  (Done (mkResponse 200
                           (MediaList
                              (sort_by_key order_id_ltb (λ kv, (media_order kv.2, kv.1))
                                           (media_of pk tbl')))),
                   tbl')
              | (Raised e, tbl') => (Raised e, tbl')
              | (Diverged, tbl') => (Diverged, tbl')
              end
          end
      | _ => (Done (mkResponse 400 (Detail "media_ids must be a list")), tbl)
      end
  end.

End media.

(** *** Sample data of the listing state and of the media *)

#[global] Instance sample_status : ListingStatus := {|
  Status_ACTIVE := "active";
  Status_PAUSED := "paused";
  Status_CLOSED := "closed";
|}.

#[global] Instance decimal_float_eq : PyFloatEq := {|
  float_eq_int := λ x n, (x.1 =? n * 10 ^ Z.of_nat x.2);
|}.

(** the sample listing when it is active *)
Definition active_listing : gmap string PyVal :=
  <["status" := PStr "active"]> sample_listing.

Definition active_store : Store :=
  mkStore sample_categories sample_attributes [5] {[ 1 := active_listing ]} ∅.

(** a user who owns no listing *)
Definition other_user : User := mkUser 8 "+998900000000" None.

(** three images of the listing 1 and one of a listing 2 *)
Definition sample_media : gmap Z ListingMedia :=
  list_to_map [(10, mkListingMedia 1 "a.jpg" 0); (11, mkListingMedia 1 "b.jpg" 1);
               (12, mkListingMedia 1 "c.jpg" 2); (20, mkListingMedia 2 "d.jpg" 0)].

(** *** Vocabulary of the statements about the owner *)

(** the [user_id] column of the listing [pk], if the listing exists *)
Definition owner_column `{PyRuntime} (st : Store) (pk : Z) : option PyVal :=
  st_listings st !! pk ≫= lookup "user_id".

(** the column [col] of the listing [pk] *)
Definition column `{PyRuntime} (st : Store) (pk : Z) (col : string) : option PyVal :=
  st_listings st !! pk ≫= lookup col.

(** the moment of a call, as [timezone.now()] gives it *)
Definition sample_now : PyVal := PStr "2024-05-01T10:00:00Z".
Definition sample_later : PyVal := PStr "2024-05-02T10:00:00Z".

(** the sample listing when it is paused *)
Definition paused_listing : gmap string PyVal :=
  <["status" := PStr "paused"]> sample_listing.

Definition paused_store : Store :=
  mkStore sample_categories sample_attributes [5] {[ 1 := paused_listing ]} ∅.

(** *** Vocabulary of the statements about the media *)

(** [tbl'] holds the rows of [tbl], each with its listing and its
    image, possibly with another [order]. *)
Definition same_media (tbl tbl' : gmap Z ListingMedia) : Prop :=
  ∀ k, media_listing_id <$> tbl' !! k = media_listing_id <$> tbl !! k ∧
       media_image <$> tbl' !! k = media_image <$> tbl !! k.

(** a rendered row may stand before another in the answer *)
Definition media_le (a b : Z * ListingMedia) : Prop :=
  key_le order_id_ltb (λ kv : Z * ListingMedia, (media_order kv.2, kv.1)) a b.

(** a request to put the images of the sample listing in the order 12, 10, 11 *)
Definition reorder_all : gmap string PyVal :=
  {[ "media_ids" := PList [PInt 12; PInt 10; PInt 11] ]}.

(** a request that names an image of another listing at the end *)
Definition reorder_foreign : gmap string PyVal :=
  {[ "media_ids" := PList [PInt 12; PInt 10; PInt 20] ]}.

(** * Properties *)

(** ** Coercion helpers *)

Section values_facts.
Context `{PyRuntime}.


Lemma to_float_or_none_cases (v : PyVal) :
  to_float_or_none v = PNone ∨ ∃ x, to_float_or_none v = PFloat x.
Proof.
  destruct v as [| b | n | x | s | l | d]; simpl; auto.
  - destruct (float_of_int _); eauto.
  - destruct (float_of_int _); eauto.
  - eauto.
  - destruct s as [|a s]; auto. destruct (float_of_str _); eauto.
Qed.

(** C7: boolean coercion is a total function into the booleans (it has
    no failing case): a native boolean passes through unchanged, a string
    gives true exactly when its stripped, lower-cased form is one of "1",
    "true", "yes", "on", and a value of any other type gives false. *)
Theorem to_bool_total (v : PyVal) :
  (∃ b : bool, to_bool v = b) ∧
  match v with
  | PBool b => to_bool v = b
  | PStr s =>
      to_bool v = true ↔ str_lower (str_strip s) ∈ ["1"; "true"; "yes"; "on"]
  | _ => to_bool v = false
  end.
Proof.
  split; [by eexists|].
  destruct v as [| b | n | x | s | l | d]; simpl; try reflexivity.
  unfold truthy_tokens. rewrite bool_decide_eq_true. reflexivity.
Qed.

End values_facts.

Section recoercion_facts.
Context `{PyRuntime} `{!PyFloatCompare}.

(** A float is equal to itself exactly when it is no NaN. *)
Lemma float_eqb_self (x : pyfloat) : float_eqb x x = negb (float_isnan x).
Proof.
  destruct (float_isnan x) eqn:Hnan; simpl.
  - by apply float_eqb_nan.
  - by apply float_eqb_refl.
Qed.

Lemma py_eq_self (v : PyVal) :
  match v with PNone | PBool _ | PFloat _ | PStr _ => True | _ => False end →
  py_eq v v = Some (negb (is_nan v)).
Proof.
  destruct v as [| b | n | x | s | l | d]; simpl; try done; intros _.
  - by destruct b.
  - by rewrite float_eqb_self.
  - by rewrite String.eqb_refl.
Qed.

(** C8, as the code has it: coercing again what a coercion of the views
    returned gives the very same value, for the boolean helper [to_bool],
    for the numeric helper [to_float_or_none], for [float] wherever it
    succeeds and for the check of an enumeration member; and the value
    coerced twice compares equal ([==]) to the value coerced once exactly
    when that value is no float NaN. *)
Theorem coercion_idempotent (v : PyVal) :
  (to_bool (PBool (to_bool v)) = to_bool v ∧
   py_eq (PBool (to_bool (PBool (to_bool v)))) (PBool (to_bool v)) = Some true) ∧
  (to_float_or_none (to_float_or_none v) = to_float_or_none v ∧
   py_eq (to_float_or_none (to_float_or_none v)) (to_float_or_none v)
   = Some (negb (is_nan (to_float_or_none v)))) ∧
  (∀ x, py_float v = Some x →
        py_float (PFloat x) = Some x ∧
        py_eq (PFloat x) (PFloat x) = Some (negb (float_isnan x))) ∧
  (∀ field choices v',
     checked_choice field choices v = Ok v' →
     checked_choice field choices v' = Ok v' ∧ py_eq v' v' = Some true).
Proof.
  split; [|split; [|split]].
  - split; [reflexivity|]. simpl. by destruct (to_bool v).
  - assert (to_float_or_none (to_float_or_none v) = to_float_or_none v) as Hsame.
    { destruct (to_float_or_none_cases v) as [-> | [x ->]]; reflexivity. }
    split; [done|]. rewrite Hsame. apply py_eq_self.
    by destruct (to_float_or_none_cases v) as [-> | [x ->]].
  - intros x _. split; [reflexivity|]. simpl. by rewrite float_eqb_self.
  - intros field choices v'. unfold checked_choice, check_choice.
    destruct v as [| b | n | x | s | l | d]; simpl; try done.
    unfold require. case_bool_decide as Hs; simpl; [|done].
    intros [= <-]. simpl. rewrite bool_decide_eq_true_2 by done. simpl.
    by rewrite String.eqb_refl.
Qed.

End recoercion_facts.

(** C8, counterexample: [float] reads the text nan as the NaN, so the
    coercion of "nan" succeeds with a float; coercing that float again
    gives a value that is not equal ([==]) to it. *)
Lemma recoerced_nan_is_not_equal :
  @to_float_or_none Ieee.runtime (@PStr Ieee.runtime "nan")
  = @PFloat Ieee.runtime None
  ∧ @py_eq Ieee.runtime Ieee.compare
      (@to_float_or_none Ieee.runtime
         (@to_float_or_none Ieee.runtime (@PStr Ieee.runtime "nan")))
      (@to_float_or_none Ieee.runtime (@PStr Ieee.runtime "nan"))
    = Some false.
Proof. split; reflexivity. Qed.



(** ** Sorting *)

Section sorting_facts.
Context {A K : Type} (ltb : K → K → bool) (key : A → K).
Hypothesis ltb_asym : ∀ a b, ltb a b = true → ltb b a = false.

Lemma insert_by_key_perm (x : A) (l : list A) :
  insert_by_key ltb key x l ≡ₚ x :: l.
Proof.
  induction l as [|y l IH]; simpl; [done|].
  destruct (ltb (key y) (key x)); [|done].
  rewrite IH. apply Permutation_swap.
Qed.

Lemma sort_by_key_perm (l : list A) : sort_by_key ltb key l ≡ₚ l.
Proof.
  induction l as [|x l IH]; simpl; [done|].
  rewrite insert_by_key_perm. by rewrite IH.
Qed.

Lemma insert_by_key_hd (a x : A) (l : list A) :
  key_le ltb key a x → HdRel (key_le ltb key) a l →
  HdRel (key_le ltb key) a (insert_by_key ltb key x l).
Proof.
  intros Hax Hal. destruct l as [|y l]; simpl; [by constructor|].
  destruct (ltb (key y) (key x)); constructor; [by inversion Hal | done].
Qed.

Lemma insert_by_key_sorted (x : A) (l : list A) :
  Sorted (key_le ltb key) l → Sorted (key_le ltb key) (insert_by_key ltb key x l).
Proof.
  induction 1 as [|y l Hl IH Hhd]; simpl.
  - repeat constructor.
  - destruct (ltb (key y) (key x)) eqn:Hyx.
    + constructor; [done|]. apply insert_by_key_hd; [|done].
      unfold key_le. by apply ltb_asym.
    + constructor; [by constructor|]. by constructor.
Qed.

Lemma sort_by_key_sorted (l : list A) :
  Sorted (key_le ltb key) (sort_by_key ltb key l).
Proof.
  induction l as [|x l IH]; simpl; [constructor|].
  by apply insert_by_key_sorted.
Qed.

(** Sorting is stable, so a sorted list is left as it is. *)
Lemma sort_by_key_fixed (l : list A) :
  Sorted (key_le ltb key) l → sort_by_key ltb key l = l.
Proof.
  induction 1 as [|x l Hl IH Hhd]; simpl; [done|].
  rewrite IH. destruct Hhd as [|y l Hxy]; simpl; [done|].
  unfold key_le in Hxy. by rewrite Hxy.
Qed.


End sorting_facts.

Lemma string_ltb_asym (a b : string) : String.ltb a b = true → String.ltb b a = false.
Proof.
  unfold String.ltb. rewrite (String.compare_antisym a b).
  by destruct (String.compare b a).
Qed.

Lemma tuple_ltb_asym (a b : Z * string) : tuple_ltb a b = true → tuple_ltb b a = false.
Proof.
  unfold tuple_ltb. destruct a as [o1 n1], b as [o2 n2]; simpl.
  intros Hab. apply orb_true_iff in Hab as [Hlt | Heq].
  - apply Z.ltb_lt in Hlt.
    rewrite (proj2 (Z.ltb_ge o2 o1)) by lia.
    rewrite (proj2 (Z.eqb_neq o2 o1)) by lia. done.
  - apply andb_true_iff in Heq as [Heq Hn]. apply Z.eqb_eq in Heq as ->.
    rewrite Z.ltb_irrefl, Z.eqb_refl. simpl. by apply string_ltb_asym.
Qed.

(** ** The categories endpoint *)

Section tree_request_facts.
Context `{PyRuntime} `{PyStack}.



End tree_request_facts.


(** ** Attribute schema of a category *)

Section schema_facts.

Lemma attributes_in_perm (ids : list Z) (attrs : list Attribute) :
  attributes_in ids attrs ≡ₚ filter (λ a, attr_category_id a ∈ ids) attrs.
Proof. apply sort_by_key_perm. Qed.

Lemma attributes_in_sorted (ids : list Z) (attrs : list Attribute) :
  Sorted (key_le String.ltb attr_key) (attributes_in ids attrs).
Proof. apply sort_by_key_sorted, string_ltb_asym. Qed.

Lemma attributes_in_nil (ids : list Z) (attrs : list Attribute) :
  Forall (λ a, attr_category_id a ∉ ids) attrs → attributes_in ids attrs = [].
Proof.
  intros Hno. apply Permutation_nil_r. rewrite attributes_in_perm.
  induction Hno as [|a l Ha _ IH]; [done|].
  by rewrite filter_cons_False.
Qed.

(** C1, as the code has it: for an existing category whose ancestor walk
    collects [ids], the schema is the list of all attributes declared at
    a node of [ids], sorted by key. Every declaration of the chain is in
    it, the ancestor's as well as the descendant's: none replaces
    another. *)
Theorem schema_keeps_every_declaration
    (cats : list Category) (attrs : list Attribute) (pk : Z)
    (cat : Category) (ids : list Z) :
  get_category cats pk = Some cat →
  ancestor_ids (S (length cats)) cats (Some cat) = Done ids →
  ∃ schema,
    CategoryAttributesView_get cats attrs pk = Done (mkResponse 200 schema) ∧
    schema ≡ₚ filter (λ a, attr_category_id a ∈ ids) attrs ∧
    (∀ a, a ∈ schema ↔ a ∈ attrs ∧ attr_category_id a ∈ ids) ∧
    Sorted (key_le String.ltb attr_key) schema.
Proof.
  intros Hcat Hwalk. exists (attributes_in ids attrs).
  unfold CategoryAttributesView_get. rewrite Hcat, Hwalk.
  split; [done|]. split; [apply attributes_in_perm|].
  split; [|apply attributes_in_sorted].
  intros a. rewrite attributes_in_perm, list_elem_of_filter. tauto.
Qed.

(** C2, as the code has it: a category id that does not exist gets the
    empty schema with status 200, the same answer as an existing category
    with no attribute declared anywhere in its chain. *)
Theorem empty_schema_for_missing_or_bare_category
    (cats : list Category) (attrs : list Attribute) (pk : Z) :
  (get_category cats pk = None →
   CategoryAttributesView_get cats attrs pk = Done (mkResponse 200 [])) ∧
  (∀ cat ids,
     get_category cats pk = Some cat →
     ancestor_ids (S (length cats)) cats (Some cat) = Done ids →
     Forall (λ a, attr_category_id a ∉ ids) attrs →
     CategoryAttributesView_get cats attrs pk = Done (mkResponse 200 [])).
Proof.
  unfold CategoryAttributesView_get. split.
  - by intros ->.
  - intros cat ids -> -> Hno. by rewrite attributes_in_nil.
Qed.

End schema_facts.

(** C1, counterexample: at the child, the schema holds [color] twice,
    once as the choice of the root and once as the text of the child; the
    declaration of the root is not replaced. *)
Lemma schema_repeats_redeclared_key :
  ∃ schema,
    CategoryAttributesView_get sample_categories sample_attributes 2
    = Done (mkResponse 200 schema) ∧
    length (filter (λ a, attr_key a = "color") schema) = 2%nat ∧
    color_at_root ∈ schema ∧ color_at_child ∈ schema.
Proof.
  exists [color_at_root; color_at_child].
  split; [reflexivity|]. split; [reflexivity|]. split; [left | right; left].
Qed.

(** C1 as amended, at the child of the sample taxonomy. *)
Lemma schema_keeps_every_declaration_witness :
  ∃ schema,
    CategoryAttributesView_get sample_categories sample_attributes 2
    = Done (mkResponse 200 schema) ∧
    schema ≡ₚ filter (λ a, attr_category_id a ∈ [2; 1]) sample_attributes ∧
    (∀ a, a ∈ schema ↔ a ∈ sample_attributes ∧ attr_category_id a ∈ [2; 1]) ∧
    Sorted (key_le String.ltb attr_key) schema.
Proof.
  apply (schema_keeps_every_declaration
           sample_categories sample_attributes 2 sample_child [2; 1]);
    reflexivity.
Defined.

(** C2, counterexample: category 99 does not exist and the answer is
    the empty list with status 200, not 404. *)
Lemma missing_category_answers_200 :
  get_category sample_categories 99 = None
  ∧ CategoryAttributesView_get sample_categories sample_attributes 99
    = Done (mkResponse 200 [])
  ∧ status_of (CategoryAttributesView_get sample_categories sample_attributes 99)
    = Some 200.
Proof. repeat split. Qed.

(** C2 as amended, at a missing id and at the child without attributes. *)
Lemma empty_schema_witness :
  CategoryAttributesView_get sample_categories sample_attributes 99
  = Done (mkResponse 200 [])
  ∧ CategoryAttributesView_get sample_categories [] 2 = Done (mkResponse 200 []).
Proof.
  split.
  - apply (proj1 (empty_schema_for_missing_or_bare_category
                    sample_categories sample_attributes 99)).
    reflexivity.
  - apply (proj2 (empty_schema_for_missing_or_bare_category sample_categories [] 2)
             sample_child [2; 1]); [reflexivity | reflexivity | constructor].
Defined.

(** ** Listing writes *)

Section listings_facts.
Context `{PyRuntime} `{!ListingsApp}.

Lemma foldr_max_bound (l : list Z) (k : Z) : k ∈ l → k ≤ foldr Z.max 0 l.
Proof.
  induction l as [|x l IH]; simpl; [by intros ?%elem_of_nil|].
  intros [-> | Hk]%elem_of_cons; [lia|]. specialize (IH Hk). lia.
Qed.

Lemma fresh_pk_fresh (m : gmap Z (gmap string PyVal)) : m !! fresh_pk m = None.
Proof.
  destruct (m !! fresh_pk m) as [row|] eqn:Hrow; [|done].
  apply elem_of_map_to_list in Hrow.
  assert (fresh_pk m ∈ (map_to_list m).*1) as Hin.
  { apply list_elem_of_fmap. by exists (fresh_pk m, row). }
  apply foldr_max_bound in Hin. unfold fresh_pk in Hin. lia.
Qed.

(** An early return of [post] happens before any write. *)
Lemma post_early_return (u : User) (data : gmap string PyVal) (st : Store) r :
  create_arguments u data st = Halt r →
  ListingCreateRawView_post u data st = (r, st).
Proof. intros Hargs. unfold ListingCreateRawView_post. by rewrite Hargs. Qed.

(** C3, as the code has it: a create request whose category id, or
    whose location id, refers to no existing record is answered with
    status 400 and the message "Not found." under the name of the field,
    and the store is left as it was. *)
Theorem create_with_missing_reference
    (u : User) (data : gmap string PyVal) (st : Store) (cid lid : Z) :
  truthy (data_get data "title") = true →
  truthy (data_get data "category") = true →
  truthy (data_get data "location") = true →
  py_int (data_get data "category") = Some cid →
  py_int (data_get data "location") = Some lid →
  category_exists st cid = false ∨ location_exists st lid = false →
  ∃ field,
    (field = "category" ∨ field = "location") ∧
    ListingCreateRawView_post u data st
    = (Done (mkResponse 400 (Errors field (Text "Not found."))), st).
Proof.
  intros Ht Hc Hl Hcid Hlid Hmissing.
  destruct (category_exists st cid) eqn:Hcat.
  - destruct Hmissing as [? | Hloc]; [done|].
    exists "location". split; [by right|]. apply post_early_return.
    unfold create_arguments. rewrite Ht, Hc, Hl, Hcid, Hlid. simpl.
    by rewrite Hcat, Hloc.
  - exists "category". split; [by left|]. apply post_early_return.
    unfold create_arguments. rewrite Ht, Hc, Hl, Hcid, Hlid. simpl.
    by rewrite Hcat.
Qed.

(** C4, as the code has it: the listing row is written before the
    attribute list is handled and nothing undoes the write. When
    [_save_attributes] raises, the exception leaves the handler, the new
    listing row is in the store, every other listing row is as before,
    and the attribute values are as the helper left them. *)
Theorem create_keeps_listing_when_attributes_fail
    (u : User) (data : gmap string PyVal) (st : Store)
    (arguments : gmap string PyVal) (a : PyVal) (l : list PyVal)
    (e : string) (values : gmap Z (list (string * PyVal))) :
  create_arguments u data st = Ok (arguments, PList (a :: l)) →
  _save_attributes (st_categories st) (st_attributes st)
      (fresh_pk (st_listings st))
      (<["contact_phone_masked" := PStr (contact_phone_of u)]>
         (arguments ∪ listing_defaults))
      (a :: l) (st_values st)
  = (Raised e, values) →
  ∃ st',
    ListingCreateRawView_post u data st = (Raised e, st') ∧
    st_listings st !! fresh_pk (st_listings st) = None ∧
    st_listings st' !! fresh_pk (st_listings st)
    = Some (<["contact_phone_masked" := PStr (contact_phone_of u)]>
              (arguments ∪ listing_defaults)) ∧
    (∀ k, k ≠ fresh_pk (st_listings st) →
          st_listings st' !! k = st_listings st !! k) ∧
    st_values st' = values.
Proof.
  intros Hargs Hsave. unfold ListingCreateRawView_post. rewrite Hargs.
  unfold save_attributes_then. simpl. rewrite Hsave. simpl.
  eexists. split; [reflexivity|]. simpl.
  split; [apply fresh_pk_fresh|]. split; [|split; [|done]].
  - rewrite lookup_alter_eq, lookup_insert_eq. done.
  - intros k Hk. by rewrite lookup_alter_ne, lookup_insert_ne.
Qed.

End listings_facts.

(** C3, counterexample: category 99 does not exist; the answer to the
    create request has status 400, not 404. *)
Lemma create_in_missing_category_is_400 :
  category_exists sample_store 99 = false
  ∧ (ListingCreateRawView_post sample_user create_in_missing_category sample_store).1
    = Done (mkResponse 400 (Errors "category" (Text "Not found.")))
  ∧ status_of
      (ListingCreateRawView_post sample_user create_in_missing_category sample_store).1
    = Some 400.
Proof. repeat split. Qed.

(** C3 as amended, at the sample request for the missing category. *)
Lemma create_with_missing_reference_witness :
  ∃ field,
    (field = "category" ∨ field = "location") ∧
    ListingCreateRawView_post sample_user create_in_missing_category sample_store
    = (Done (mkResponse 400 (Errors field (Text "Not found."))), sample_store).
Proof.
  apply (create_with_missing_reference
           sample_user create_in_missing_category sample_store 99 5);
    [reflexivity .. | left; reflexivity].
Defined.

(** C4, counterexample: the attribute list of the request names a key
    the schema of category 2 does not have. The helper raises, and the
    listing the request created, number 2, is in the store afterwards
    although it was not there before. *)
Lemma failed_attributes_leave_listing :
  (ListingCreateRawView_post sample_user create_with_unknown_attribute sample_store).1
  = Raised "ValidationError"
  ∧ st_listings sample_store !! 2 = None
  ∧ st_listings
      (ListingCreateRawView_post sample_user create_with_unknown_attribute sample_store).2
      !! 2 ≫= lookup "title"
    = Some (PStr "Car").
Proof. repeat split. Qed.

(** C4 as amended, at the sample request with the unknown attribute. *)
Lemma create_keeps_listing_witness :
  ∃ st',
    ListingCreateRawView_post sample_user create_with_unknown_attribute sample_store
    = (Raised "ValidationError", st') ∧
    st_listings sample_store !! fresh_pk (st_listings sample_store) = None ∧
    st_listings st' !! fresh_pk (st_listings sample_store)
    = Some (<["contact_phone_masked" := PStr (contact_phone_of sample_user)]>
              (sample_arguments ∪ listing_defaults)) ∧
    (∀ k, k ≠ fresh_pk (st_listings sample_store) →
          st_listings st' !! k = st_listings sample_store !! k) ∧
    st_values st' = st_values sample_store.
Proof.
  apply (create_keeps_listing_when_attributes_fail
           sample_user create_with_unknown_attribute sample_store
           sample_arguments sample_unknown_attribute []
           "ValidationError" (st_values sample_store));
    reflexivity.
Defined.

(** *** Partial update *)

Section update_facts.
Context `{PyRuntime} `{!ListingsApp}.

Local Abbreviation Row := (gmap string PyVal).

Lemma frame_refl (data l : Row) : frame data l l.
Proof. by intros col _. Qed.

Lemma frame_trans (data l1 l2 l3 : Row) :
  frame data l1 l2 → frame data l2 l3 → frame data l1 l3.
Proof. intros H12 H23 col Hcol. by rewrite H23, H12. Qed.

Lemma frame_insert (data l : Row) (col key : string) (v : PyVal) :
  payload_key col = Some key → is_Some (data !! key) →
  frame data l (<[col := v]> l).
Proof.
  intros Hkey [w Hw] c Hc. destruct (decide (col = c)) as [<- | Hne].
  - unfold absent_from in Hc. rewrite Hkey in Hc. congruence.
  - by rewrite lookup_insert_ne.
Qed.

Lemma bind_Ok {E A B} (m : Result E A) (f : A → Result E B) (b : B) :
  m ≫= f = Ok b → ∃ a, m = Ok a ∧ f a = Ok b.
Proof. destruct m as [a | e]; simpl; [eauto | discriminate]. Qed.

Lemma assign_if_present_frame (data l l' : Row) (k col : string) f :
  payload_key col = Some k →
  assign_if_present data k col f l = Ok l' → frame data l l'.
Proof.
  intros Hkey. unfold assign_if_present.
  destruct (data !! k) as [v|] eqn:Hv.
  - intros (v' & _ & [= <-])%bind_Ok. eapply frame_insert; eauto.
  - intros [= <-]. apply frame_refl.
Qed.

Lemma assign_unless_none_frame (data l : Row) (k col : string) :
  payload_key col = Some k →
  frame data l (assign_unless_none (data_get data k) col l).
Proof.
  intros Hkey. unfold assign_unless_none, data_get.
  destruct (data !! k) as [v|] eqn:Hv; simpl; [|apply frame_refl].
  destruct (is_none v); [apply frame_refl|].
  eapply frame_insert; eauto.
Qed.

Lemma data_get_not_none (data : Row) (k : string) :
  is_none (data_get data k) = false → is_Some (data !! k).
Proof. unfold data_get. destruct (data !! k); simpl; [eauto | discriminate]. Qed.

Lemma patch_fields_frame (data : Row) (st : Store) (l l' : Row) :
  patch_fields data st l = Ok l' → frame data l l'.
Proof.
  unfold patch_fields. intros Hp.
  apply bind_Ok in Hp as (_ & _ & Hp).
  apply bind_Ok in Hp as (cid & Hcid & Hp).
  apply bind_Ok in Hp as (lid & Hlid & Hp).
  do 9 (apply bind_Ok in Hp as (? & ? & Hp)). injection Hp as <-.
  assert (cid = None ∨ is_Some (data !! "category")) as Hc.
  { destruct (is_none (data_get data "category")) eqn:Hn.
    - left. by injection Hcid.
    - right. by apply data_get_not_none. }
  assert (lid = None ∨ is_Some (data !! "location")) as Hl.
  { destruct (is_none (data_get data "location")) eqn:Hn.
    - left. by injection Hlid.
    - right. by apply data_get_not_none. }
  repeat match goal with
         | Hs : assign_if_present _ _ _ _ _ = Ok _ |- _ =>
             apply assign_if_present_frame in Hs; [|reflexivity]
         end.
  repeat (eapply frame_trans; [|by apply assign_unless_none_frame]).
  eapply frame_trans; [|eassumption].
  eapply frame_trans; [|eassumption].
  eapply frame_trans;
    [|destruct lid as [lid|];
      [destruct Hl as [? | Hl]; [done|]; by eapply frame_insert | apply frame_refl]].
  eapply frame_trans;
    [|destruct cid as [cid|];
      [destruct Hc as [? | Hc]; [done|]; by eapply frame_insert | apply frame_refl]].
  repeat (eapply frame_trans; [|eassumption]).
  by apply assign_unless_none_frame.
Qed.

End update_facts.

Section update_theorem.
Context `{PyRuntime} `{!ListingsApp}.

Lemma get_own_listing_Some (st : Store) (pk : Z) (u : User) (listing : gmap string PyVal) :
  get_own_listing st pk u = Some listing → st_listings st !! pk = Some listing.
Proof.
  unfold get_own_listing. destruct (st_listings st !! pk) as [l|]; simpl; [|done].
  destruct (l !! "user_id") as [[| | owner | | | |]|]; try done.
  destruct (owner =? user_id u); [|done]. by intros [= ->].
Qed.

Lemma save_attributes_then_listings pk listing attributes (st : Store) code :
  st_listings (save_attributes_then pk listing attributes st (respond code pk listing)).2
  = st_listings st.
Proof.
  unfold save_attributes_then.
  destruct (_save_attributes _ _ _ _ _ _) as [[[] | e |] values]; reflexivity.
Qed.

(** What [patch] leaves in the store: either the store as it was, or the
    store with the row of the listing replaced by a row that agrees with
    the old one outside the payload, and with the attribute values
    untouched unless the payload holds an attribute list. *)
Lemma patch_store (u : User) (pk : Z) (data : gmap string PyVal) (st : Store) :
  (ListingUpdateRawView_patch u pk data st).2 = st ∨
  ∃ listing listing',
    st_listings st !! pk = Some listing ∧ frame data listing listing' ∧
    st_listings (ListingUpdateRawView_patch u pk data st).2
    = <[pk := listing']> (st_listings st) ∧
    (data !! "attributes" = None →
     st_values (ListingUpdateRawView_patch u pk data st).2 = st_values st).
Proof.
  unfold ListingUpdateRawView_patch.
  destruct (get_own_listing st pk u) as [listing|] eqn:Hown; [|by left].
  apply get_own_listing_Some in Hown.
  destruct (patch_fields data st listing) as [listing'|r] eqn:Hfields; [|by left].
  right. exists listing, listing'. split; [done|].
  split; [by eapply patch_fields_frame|].
  unfold data_get.
  destruct (data !! "attributes") as [v|] eqn:Hattrs; simpl.
  - split; [|done]. destruct v; try reflexivity.
    by rewrite save_attributes_then_listings.
  - done.
Qed.

(** The scenario of the spec: the payload holds [price_amount] only. *)
Lemma patch_price_only (u : User) (pk : Z) (st : Store)
    (listing : gmap string PyVal) (s : string) (x : pyfloat) :
  get_own_listing st pk u = Some listing →
  float_of_str s = Some x →
  ListingUpdateRawView_patch u pk {["price_amount" := PStr s]} st
  = (Done (mkResponse 200
             (ListingOut pk (<["price_amount" := PFloat x]> listing)
                         (default [] (st_values st !! pk)))),
     set_listings (<[pk := <["price_amount" := PFloat x]> listing]> (st_listings st))
                  st).
Proof.
  intros Hown Hx.
  unfold ListingUpdateRawView_patch. rewrite Hown.
  unfold patch_fields, data_get, assign_if_present.
  repeat (rewrite lookup_singleton_ne by discriminate).
  rewrite lookup_singleton_eq. simpl. rewrite Hx. simpl.
  repeat (rewrite lookup_singleton_ne by discriminate). reflexivity.
Qed.

(** C5: an update changes no listing but the one addressed, leaves
    every column of that listing for which the payload holds nothing at
    its value from before the call, and leaves the attribute values alone
    when the payload holds no attribute list. For the owner's payload
    that holds [price_amount] only, with a text [float] reads as [x], the
    stored row becomes the old row with [price_amount] set to [x] and
    nothing else in the store changes. *)
Theorem update_is_partial (u : User) (pk : Z) (data : gmap string PyVal) (st : Store) :
  (∀ k, k ≠ pk →
        st_listings (ListingUpdateRawView_patch u pk data st).2 !! k
        = st_listings st !! k) ∧
  (∀ col, absent_from data col →
          st_listings (ListingUpdateRawView_patch u pk data st).2 !! pk ≫= lookup col
          = st_listings st !! pk ≫= lookup col) ∧
  (data !! "attributes" = None →
   st_values (ListingUpdateRawView_patch u pk data st).2 = st_values st) ∧
  (∀ listing s x,
     get_own_listing st pk u = Some listing →
     float_of_str s = Some x →
     data = {["price_amount" := PStr s]} →
     ListingUpdateRawView_patch u pk data st
     = (Done (mkResponse 200
                (ListingOut pk (<["price_amount" := PFloat x]> listing)
                            (default [] (st_values st !! pk)))),
        set_listings (<[pk := <["price_amount" := PFloat x]> listing]> (st_listings st))
                     st)).
Proof.
  destruct (patch_store u pk data st)
    as [-> | (listing & listing' & Hold & Hframe & Hnew & Hvalues)].
  - repeat split; try done.
    intros listing s x Hown Hx ->. by apply patch_price_only.
  - split; [|split; [|split]].
    + intros k Hk. by rewrite Hnew, lookup_insert_ne.
    + intros col Hcol. rewrite Hnew, lookup_insert_eq, Hold. simpl. by apply Hframe.
    + done.
    + intros listing0 s x Hown Hx ->. by apply patch_price_only.
Qed.

End update_theorem.

(** C5 at the scenario of the spec: the price changes, the title stays. *)
Lemma update_price_only_witness :
  ListingUpdateRawView_patch sample_user 1 update_price_only sample_store
  = (Done (mkResponse 200
             (ListingOut 1 (<["price_amount" := PFloat (1505, 1%nat)]> sample_listing)
                         [("color", PStr "red")])),
     set_listings
       (<[1 := <["price_amount" := PFloat (1505, 1%nat)]> sample_listing]>
          (st_listings sample_store))
       sample_store)
  ∧ st_listings (ListingUpdateRawView_patch sample_user 1 update_price_only sample_store).2
      !! 1 ≫= lookup "title"
    = st_listings sample_store !! 1 ≫= lookup "title".
Proof.
  split.
  - apply (proj2 (proj2 (proj2
             (update_is_partial sample_user 1 update_price_only sample_store)))
             sample_listing "150.5" (1505, 1%nat));
      reflexivity.
  - apply (proj1 (proj2
             (update_is_partial sample_user 1 update_price_only sample_store)) "title").
    reflexivity.
Defined.

(** ** Climbing along parent links *)

Section climbing_facts.
Context (next : Z → option Z) (dom : list Z).
Hypothesis next_closed : ∀ x p, next x = Some p → p ∈ dom.
Hypothesis next_acyclic : ∀ x, ¬ tc (λ a b, next a = Some b) x x.

Lemma trail_reaches (n : nat) (x y : Z) :
  y ∈ trail next n x → rtc (λ a b, next a = Some b) x y.
Proof.
  revert x. induction n as [|n IH]; intros x; simpl; [by intros ?%elem_of_nil|].
  intros [-> | Hy]%elem_of_cons; [done|].
  destruct (next x) as [p|] eqn:Hp; [|by apply elem_of_nil in Hy].
  eapply rtc_l; [exact Hp | by apply IH].
Qed.

Lemma trail_NoDup (n : nat) (x : Z) : NoDup (trail next n x).
Proof.
  revert x. induction n as [|n IH]; intros x; simpl; [constructor|].
  destruct (next x) as [p|] eqn:Hp; [|by apply NoDup_singleton].
  constructor; [|apply IH].
  intros Hx%trail_reaches. apply (next_acyclic x).
  eapply tc_rtc_r; [|exact Hx]. by apply tc_once.
Qed.

Lemma trail_in_dom (n : nat) (x y : Z) : x ∈ dom → y ∈ trail next n x → y ∈ dom.
Proof.
  revert x. induction n as [|n IH]; intros x Hx; simpl; [by intros ?%elem_of_nil|].
  intros [-> | Hy]%elem_of_cons; [done|].
  destruct (next x) as [p|] eqn:Hp; [|by apply elem_of_nil in Hy].
  eapply IH; [|exact Hy]. by eapply next_closed.
Qed.

(** A climb never meets more nodes than there are. *)
Lemma trail_length (n : nat) (x : Z) :
  x ∈ dom → (length (trail next n x) ≤ length dom)%nat.
Proof.
  intros Hx. apply submseteq_length, NoDup_submseteq; [apply trail_NoDup|].
  intros y. by apply trail_in_dom.
Qed.

Lemma trail_ended_level (m : nat) (x : Z) :
  (length (trail next (S m) x) ≤ m)%nat →
  ∃ k, (k < m)%nat ∧ at_level next k x = true.
Proof.
  revert x. induction m as [|m IH]; intros x Hlen; [simpl in Hlen; lia|].
  change (trail next (S (S m)) x)
    with (x :: match next x with Some p => trail next (S m) p | None => [] end) in Hlen.
  destruct (next x) as [p|] eqn:Hp.
  - destruct (IH p) as (k & Hk & Hlevel); [simpl in *; lia|].
    exists (S k). split; [lia|]. simpl. by rewrite Hp.
  - exists O. split; [lia|]. simpl. by rewrite Hp.
Qed.

(** Every node is less than [length dom] links below a root. *)
Lemma climb_ends (x : Z) :
  x ∈ dom → ∃ k, (k < length dom)%nat ∧ at_level next k x = true.
Proof. intros Hx. apply trail_ended_level. by apply trail_length. Qed.

End climbing_facts.

Lemma at_level_unique (next : Z → option Z) (k k' : nat) (x : Z) :
  at_level next k x = true → at_level next k' x = true → k = k'.
Proof.
  revert k' x. induction k as [|k IH]; intros [|k'] x; simpl;
    destruct (next x) as [p|]; try done.
  intros Hk Hk'. f_equal. by eapply IH.
Qed.

(** ** The ancestor walk *)

Section ancestor_walk.
Context (cats : list Category).

Lemma get_category_Some (pk : Z) (c : Category) :
  get_category cats pk = Some c → c ∈ cats ∧ cat_id c = pk.
Proof.
  intros [Hin Hid]%find_some. split; [by apply list_elem_of_In|].
  by apply bool_decide_eq_true in Hid.
Qed.

Lemma get_category_is_Some (pk : Z) :
  pk ∈ cat_id <$> cats → is_Some (get_category cats pk).
Proof.
  intros (c & -> & Hc)%list_elem_of_fmap.
  destruct (get_category cats (cat_id c)) as [c'|] eqn:Hfind; [by eexists|].
  apply list_elem_of_In in Hc.
  pose proof (find_none _ _ Hfind c Hc) as Hno. simpl in Hno.
  by apply bool_decide_eq_false in Hno.
Qed.

Lemma parent_of_link (x p : Z) : parent_of cats x = Some p → parent_link cats x p.
Proof.
  unfold parent_of. destruct (get_category cats x) as [c|] eqn:Hc; simpl; [|done].
  intros Hp. apply get_category_Some in Hc as [Hin Hid]. by exists c.
Qed.

Lemma parent_of_acyclic :
  acyclic cats → ∀ x, ¬ tc (λ a b, parent_of cats a = Some b) x x.
Proof.
  intros Hacyclic x Hx. apply (Hacyclic x).
  apply (tc_congruence id (parent_link cats)) in Hx; [done|].
  intros a b. apply parent_of_link.
Qed.

Lemma parent_of_closed :
  parents_exist cats → ∀ x p, parent_of cats x = Some p → p ∈ cat_id <$> cats.
Proof.
  intros Hfk x p (c & Hin & _ & Hp)%parent_of_link. by eapply Hfk.
Qed.

Lemma trail_stable (next : Z → option Z) (n m : nat) (x : Z) :
  (length (trail next (S n) x) ≤ n)%nat → (n ≤ m)%nat →
  trail next m x = trail next n x.
Proof.
  revert m x. induction n as [|n IH]; intros m x Hlen Hm; [simpl in Hlen; lia|].
  destruct m as [|m]; [lia|].
  change (trail next (S (S n)) x)
    with (x :: match next x with Some p => trail next (S n) p | None => [] end) in Hlen.
  simpl. destruct (next x) as [p|]; [|done].
  f_equal. apply IH; simpl in *; lia.
Qed.

(** With the foreign key in place, a walk that is given more fuel than
    the climb has nodes collects the climb, which is the path to the
    root. *)
Lemma ancestor_ids_trail (fuel : nat) (cat : Category) :
  parents_exist cats →
  get_category cats (cat_id cat) = Some cat →
  (length (trail (parent_of cats) (S fuel) (cat_id cat)) ≤ fuel)%nat →
  ancestor_ids fuel cats (Some cat) = Done (trail (parent_of cats) fuel (cat_id cat))
  ∧ ancestor_path cats (cat_id cat) (trail (parent_of cats) fuel (cat_id cat)).
Proof.
  intros Hfk. revert cat.
  induction fuel as [|fuel IH]; intros cat Hcat Hlen; [simpl in Hlen; lia|].
  assert (parent_of cats (cat_id cat) = cat_parent_id cat) as Hpar.
  { unfold parent_of. by rewrite Hcat. }
  pose proof (get_category_Some _ _ Hcat) as [Hin _].
  cbn [trail ancestor_ids length] in Hlen |- *. rewrite Hpar in Hlen |- *.
  destruct (cat_parent_id cat) as [p|] eqn:Hp.
  - destruct (get_category_is_Some p) as [parent Hparent]; [by eapply Hfk|].
    pose proof (get_category_Some _ _ Hparent) as [_ <-].
    rewrite Hparent.
    destruct (IH parent) as [-> Hpath]; [done | simpl in *; lia |].
    split; [done|]. by apply (path_step cats cat (cat_id parent)).
  - split; [by destruct fuel | by apply path_root].
Qed.

(** C9: when no category is its own ancestor (and every parent id is
    the id of a row), the ancestor walk from an existing category ends:
    given at least as much fuel as there are rows it returns the ids of
    the path from the category up to its root. The walk appends one id
    per step, so it takes as many steps as the category is deep, and that
    is at most the number of rows. *)
Theorem ancestor_walk_terminates (pk : Z) (cat : Category) :
  acyclic cats →
  parents_exist cats →
  get_category cats pk = Some cat →
  ∃ ids,
    (∀ fuel, (length cats ≤ fuel)%nat →
             ancestor_ids fuel cats (Some cat) = Done ids) ∧
    ancestor_path cats pk ids ∧
    NoDup ids ∧
    (length ids ≤ length cats)%nat.
Proof.
  intros Hacyclic Hfk Hcat.
  pose proof (get_category_Some _ _ Hcat) as [Hin <-].
  assert (cat_id cat ∈ cat_id <$> cats) as Hdom by by apply list_elem_of_fmap_2.
  assert (∀ n, (length (trail (parent_of cats) n (cat_id cat)) ≤ length cats)%nat)
    as Hbound.
  { intros n. rewrite <- (length_fmap cat_id cats).
    eapply trail_length; [by apply parent_of_closed | by apply parent_of_acyclic | done]. }
  exists (trail (parent_of cats) (length cats) (cat_id cat)).
  split; [|split; [|split]].
  - intros fuel Hfuel.
    destruct (ancestor_ids_trail fuel cat) as [-> _]; [done | done | |].
    + etrans; [apply Hbound | done].
    + f_equal. by apply trail_stable.
  - by apply ancestor_ids_trail.
  - by apply trail_NoDup, parent_of_acyclic.
  - apply Hbound.
Qed.

End ancestor_walk.

(** ** Sorting the node lists in place *)

Section sort_children_facts.

Lemma sort_by_key_ext {A K} (ltb : K → K → bool) (key key' : A → K) (l : list A) :
  (∀ x, key x = key' x) → sort_by_key ltb key l = sort_by_key ltb key' l.
Proof.
  intros Hkey. induction l as [|x l IH]; simpl; [done|]. rewrite IH.
  generalize (sort_by_key ltb key' l). intros k.
  induction k as [|y k IHk]; simpl; [done|]. by rewrite IHk, !Hkey.
Qed.

Lemma sort_key_fields (st st' : TreeState) :
  (∀ i, node_fields <$> ts_nodes st' !! i = node_fields <$> ts_nodes st !! i) →
  ∀ i, sort_key st' i = sort_key st i.
Proof.
  intros Hfields i. specialize (Hfields i). unfold sort_key.
  destruct (ts_nodes st' !! i), (ts_nodes st !! i); simplify_eq/=; congruence.
Qed.

Lemma sorts_into_key (st st' : TreeState) :
  sorts_into st st' → ∀ i, sort_key st' i = sort_key st i.
Proof. intros [Hfields _]. by apply sort_key_fields. Qed.

Lemma sort_refs_key (st st' : TreeState) (l : list Z) :
  sorts_into st st' → sort_refs st' l = sort_refs st l.
Proof. intros Hs. apply sort_by_key_ext. by apply sorts_into_key. Qed.

Lemma ref_le_key (st st' : TreeState) (i j : Z) :
  sorts_into st st' → ref_le st' i j ↔ ref_le st i j.
Proof.
  intros Hs. unfold ref_le, key_le. by rewrite !(sorts_into_key st st' Hs).
Qed.

Lemma Sorted_iff {A} (R R' : relation A) (l : list A) :
  (∀ x y, R x y ↔ R' x y) → Sorted R l → Sorted R' l.
Proof.
  intros HR. induction 1 as [|x l _ IH Hhd]; constructor; [done|].
  destruct Hhd; constructor. by apply HR.
Qed.

Lemma sort_refs_sorted (st : TreeState) (l : list Z) : Sorted (ref_le st) (sort_refs st l).
Proof. apply sort_by_key_sorted, tuple_ltb_asym. Qed.

Lemma sort_refs_perm (st : TreeState) (l : list Z) : sort_refs st l ≡ₚ l.
Proof. apply sort_by_key_perm. Qed.

Lemma sort_refs_fixed (st : TreeState) (l : list Z) :
  Sorted (ref_le st) l → sort_refs st l = l.
Proof. apply sort_by_key_fixed. Qed.

Lemma sorts_into_refl (st : TreeState) : sorts_into st st.
Proof. split; [done | by left]. Qed.

Lemma sorts_into_trans (st1 st2 st3 : TreeState) :
  sorts_into st1 st2 → sorts_into st2 st3 → sorts_into st1 st3.
Proof.
  intros H12 H23. split.
  - intros i. destruct H12 as [F12 _], H23 as [F23 _]. by rewrite F23, F12.
  - intros r. pose proof (proj2 H12 r) as L12. pose proof (proj2 H23 r) as L23.
    destruct L23 as [-> | ->]; destruct L12 as [-> | ->]; auto.
    + right. by apply sort_refs_key.
    + right. rewrite (sort_refs_key st1 st2) by done.
      apply sort_refs_fixed, sort_refs_sorted.
Qed.

Lemma sorts_into_perm (st st' : TreeState) (r : ListRef) :
  sorts_into st st' → deref st' r ≡ₚ deref st r.
Proof. intros [_ Hl]. destruct (Hl r) as [-> | ->]; [done | apply sort_refs_perm]. Qed.

Lemma sorts_into_is_Some (st st' : TreeState) (i : Z) :
  sorts_into st st' → is_Some (ts_nodes st' !! i) ↔ is_Some (ts_nodes st !! i).
Proof. intros [Hf _]. rewrite <- !fmap_is_Some with (f := node_fields). by rewrite Hf. Qed.

(** A list that is sorted stays as it is. *)
Lemma sorts_into_fixed (st st' : TreeState) (r : ListRef) :
  sorts_into st st' → Sorted (ref_le st) (deref st r) → deref st' r = deref st r.
Proof.
  intros [_ Hl] Hsorted. destruct (Hl r) as [-> | ->]; [done|].
  by apply sort_refs_fixed.
Qed.

Lemma deref_assign_sorted (st : TreeState) (r : ListRef) :
  deref (assign r (sort_refs st (deref st r)) st) r = sort_refs st (deref st r).
Proof.
  destruct r as [|i]; simpl; [done|]. rewrite lookup_alter_eq.
  by destruct (ts_nodes st !! i).
Qed.

Lemma assign_sorts_into (st : TreeState) (r : ListRef) :
  sorts_into st (assign r (sort_refs st (deref st r)) st).
Proof.
  split.
  - intros i. destruct r as [|j]; simpl; [done|].
    destruct (decide (j = i)) as [-> | Hne].
    + rewrite lookup_alter_eq. by destruct (ts_nodes st !! i).
    + by rewrite lookup_alter_ne.
  - intros [|i].
    + destruct r as [|j]; simpl; auto.
    + destruct r as [|j]; [by left|].
      destruct (decide (j = i)) as [-> | Hne].
      * right. apply deref_assign_sorted.
      * left. simpl. by rewrite lookup_alter_ne.
Qed.

Lemma sorted_to_mono (f : nat) (st st' : TreeState) (l : list Z) :
  sorts_into st st' → sorted_to f st l → sorted_to f st' l.
Proof.
  intros Hs. revert l. induction f as [|f IH]; intros l; [done|].
  intros [Hsorted Hkids]. split.
  - eapply Sorted_iff; [|exact Hsorted]. intros x y. symmetry. by apply ref_le_key.
  - eapply Forall_impl; [exact Hkids|]. intros i Hi. simpl in Hi.
    destruct f as [|f]; [done|].
    unfold kids. rewrite (sorts_into_fixed st st') by (done || apply Hi).
    by apply IH.
Qed.

Lemma shallow_perm (f : nat) (st : TreeState) (l l' : list Z) :
  l ≡ₚ l' → shallow f st l → shallow f st l'.
Proof. intros Hl. destruct f as [|f]; [done|]. simpl. by rewrite Hl. Qed.

Lemma shallow_mono (f : nat) (st st' : TreeState) (l : list Z) :
  sorts_into st st' → shallow f st l → shallow f st' l.
Proof.
  intros Hs. revert l. induction f as [|f IH]; intros l; [done|].
  simpl. intros Hl. eapply Forall_impl; [exact Hl|]. intros i [Hi Hkids]. split.
  - by apply (sorts_into_is_Some st st').
  - apply IH. eapply shallow_perm; [|exact Hkids].
    symmetry. by apply (sorts_into_perm st st' (ChildrenOf i)).
Qed.


(** [sort_children] ends on a nesting that the fuel covers, and leaves
    the list it was given, and the lists below it, sorted. *)
Lemma sort_children_spec (f : nat) (r : ListRef) (st : TreeState) :
  shallow f st (deref st r) →
  ∃ st', sort_children f r st = Some st' ∧ sorts_into st st' ∧
         sorted_to f st' (deref st' r).
Proof.
  revert r st. induction f as [|f IH]; intros r st Hshallow; [done|].
  simpl.
  set (st1 := assign r (sort_by_key tuple_ltb (sort_key st) (deref st r)) st).
  assert (sorts_into st st1) as Hst1 by apply assign_sorts_into.
  assert (deref st1 r = sort_refs st (deref st r)) as Hl1
    by apply deref_assign_sorted.
  assert (Sorted (ref_le st1) (deref st1 r)) as Hsorted1.
  { rewrite Hl1. eapply Sorted_iff; [|apply sort_refs_sorted].
    intros x y. symmetry. by apply ref_le_key. }
  assert (shallow (S f) st1 (deref st1 r)) as Hshallow1.
  { apply (shallow_mono _ st); [done|].
    eapply shallow_perm; [|exact Hshallow]. symmetry. by apply sorts_into_perm. }
  assert (∀ l s,
    Forall (λ i, is_Some (ts_nodes s !! i) ∧ shallow f s (kids s i)) l →
    ∃ s', foldl (λ acc n, acc ≫= sort_children f (ChildrenOf n)) (Some s) l = Some s' ∧
          sorts_into s s' ∧ Forall (λ i, sorted_to f s' (kids s' i)) l) as Hfold.
  { clear -IH. induction l as [|i l IHl]; intros s Hl.
    - exists s. split; [done|]. split; [apply sorts_into_refl | constructor].
    - apply Forall_cons in Hl as [[_ Hi] Hl].
      destruct (IH (ChildrenOf i) s Hi) as (s1 & Hrun & Hs1 & Hsorted).
      destruct (IHl s1) as (s' & Hrun' & Hs' & Hsorted').
      { eapply Forall_impl; [exact Hl|]. intros j [Hj Hkj]. split.
        - by apply (sorts_into_is_Some s s1).
        - apply (shallow_mono _ s); [done|].
          eapply shallow_perm; [|exact Hkj].
          symmetry. by apply (sorts_into_perm s s1 (ChildrenOf j)). }
      exists s'. simpl. rewrite Hrun. split; [done|].
      split; [by eapply sorts_into_trans|].
      constructor; [|done].
      destruct f as [|f]; [done|].
      unfold kids in *. rewrite (sorts_into_fixed s1 s') by (done || apply Hsorted).
      by apply (sorted_to_mono _ s1). }
  destruct (Hfold (deref st1 r) st1 Hshallow1) as (s' & Hrun & Hs' & Hkids).
  exists s'. split; [done|]. split; [by eapply sorts_into_trans|].
  rewrite (sorts_into_fixed st1 s') by done. split; [|done].
  eapply Sorted_iff; [|exact Hsorted1]. intros x y. symmetry. by apply ref_le_key.
Qed.

End sort_children_facts.

(** ** Levels of a forest *)

Section list_facts.
Context {A : Type}.

Lemma filter_or_disjoint (P Q : A → Prop)
    `{∀ x, Decision (P x)} `{∀ x, Decision (Q x)} (l : list A) :
  (∀ x, P x → Q x → False) →
  filter (λ x, P x ∨ Q x) l ≡ₚ (filter P l ++ filter Q l)%list.
Proof.
  intros Hdisjoint. induction l as [|x l IH]; [done|].
  rewrite !filter_cons.
  destruct (decide (P x)) as [HP|HP], (decide (Q x)) as [HQ|HQ].
  - destruct (Hdisjoint x HP HQ).
  - rewrite decide_True by auto. simpl. by rewrite IH.
  - rewrite decide_True by auto. rewrite IH. apply Permutation_middle.
  - rewrite decide_False by tauto. done.
Qed.

Lemma filter_all (P : A → Prop) `{∀ x, Decision (P x)} (l : list A) :
  Forall P l → filter P l = l.
Proof.
  induction 1 as [|x l Hx _ IH]; [done|].
  by rewrite filter_cons_True, IH.
Qed.

Lemma filter_none (P : A → Prop) `{∀ x, Decision (P x)} (l : list A) :
  Forall (λ x, ¬ P x) l → filter P l = [].
Proof.
  induction 1 as [|x l Hx _ IH]; [done|].
  by rewrite filter_cons_False.
Qed.

Lemma flat_map_perm_ext {B} (f g : A → list B) (l : list A) :
  (∀ x, f x ≡ₚ g x) → flat_map f l ≡ₚ flat_map g l.
Proof.
  intros Hfg. induction l as [|x l IH]; simpl; [done|]. by rewrite Hfg, IH.
Qed.

End list_facts.

Section levels.
Context (ids : list Z) (up : Z → option Z) (kids_of : Z → list Z).
Hypothesis ids_NoDup : NoDup ids.
Hypothesis up_closed : ∀ x p, up x = Some p → p ∈ ids.
Hypothesis kids_of_spec : ∀ p, kids_of p ≡ₚ filter (λ x, up x = Some p) ids.

Lemma unfold_app (f : nat) (l1 l2 : list Z) :
  unfold kids_of f (l1 ++ l2)%list
  = (unfold kids_of f l1 ++ unfold kids_of f l2)%list.
Proof. destruct f as [|f]; simpl; [done|]. apply flat_map_app. Qed.

(** Unfolding lists the nodes of [l] and then, one level less deep, what
    unfolds from all their children. *)
Lemma unfold_step (f : nat) (l : list Z) :
  unfold kids_of (S f) l ≡ₚ (l ++ unfold kids_of f (flat_map kids_of l))%list.
Proof.
  induction l as [|y l IH]; [by destruct f|].
  change (unfold kids_of (S f) (y :: l))
    with (y :: unfold kids_of f (kids_of y) ++ unfold kids_of (S f) l)%list.
  rewrite IH. simpl. rewrite unfold_app. constructor.
  rewrite !app_assoc. apply Permutation_app_tail, Permutation_app_comm.
Qed.

Lemma children_of_level (xs ps : list Z) :
  NoDup ps →
  flat_map (λ p, filter (λ x, up x = Some p) xs) ps
  ≡ₚ filter (λ x, up x ∈ Some <$> ps) xs.
Proof.
  induction 1 as [|p ps Hp _ IH]; simpl.
  - symmetry. rewrite filter_none; [done|].
    apply Forall_forall. intros x _ []%elem_of_nil.
  - rewrite IH, <- filter_or_disjoint.
    + erewrite list_filter_iff; [done|]. intros x. simpl.
      by rewrite elem_of_cons.
    + intros x Hx (q & Hq & Hin)%list_elem_of_fmap.
      rewrite Hx in Hq. injection Hq as <-. done.
Qed.

Lemma at_level_S (j : nat) (x : Z) :
  at_level up (S j) x = true
  ↔ up x ∈ Some <$> filter (λ p, at_level up j p = true) ids.
Proof.
  simpl. split.
  - destruct (up x) as [p|] eqn:Hp; [|done]. intros Hlevel.
    apply list_elem_of_fmap_2, list_elem_of_filter. split; [done|].
    by eapply up_closed.
  - intros (p & -> & [Hlevel _]%list_elem_of_filter)%list_elem_of_fmap. done.
Qed.

Lemma unfold_levels (f j : nat) (l : list Z) :
  l ≡ₚ filter (λ x, at_level up j x = true) ids →
  unfold kids_of f l
  ≡ₚ flat_map (λ k, filter (λ x, at_level up k x = true) ids) (seq j f).
Proof.
  revert j l. induction f as [|f IH]; intros j l Hl; [done|].
  rewrite unfold_step. simpl. rewrite Hl at 1. apply Permutation_app_head.
  apply IH. rewrite Hl.
  rewrite (flat_map_perm_ext _ _ _ kids_of_spec).
  rewrite children_of_level by by apply NoDup_filter.
  erewrite list_filter_iff; [done|]. intros x. simpl. symmetry. apply at_level_S.
Qed.

Lemma levels_below (f : nat) :
  flat_map (λ k, filter (λ x, at_level up k x = true) ids) (seq 0 f)
  ≡ₚ filter (λ x, Exists (λ k, at_level up k x = true) (seq 0 f)) ids.
Proof.
  induction f as [|f IH].
  - simpl. rewrite filter_none; [done|].
    apply Forall_forall. intros x _ []%Exists_nil.
  - rewrite seq_S, flat_map_app, IH. simpl. rewrite app_nil_r.
    rewrite <- filter_or_disjoint.
    + erewrite list_filter_iff; [done|]. intros x. simpl.
      rewrite Exists_app, Exists_cons, Exists_nil. tauto.
    + intros x (k & Hk & Hlevel)%Exists_exists Hf.
      apply list_elem_of_In, in_seq in Hk.
      pose proof (at_level_unique up k f x Hlevel Hf). lia.
Qed.

(** A forest whose nodes are all less than [f] levels deep unfolds, from
    its roots, into a list that holds every node once. *)
Lemma unfold_all (f : nat) (roots : list Z) :
  roots ≡ₚ filter (λ x, up x = None) ids →
  (∀ x, x ∈ ids → ∃ k, (k < f)%nat ∧ at_level up k x = true) →
  unfold kids_of f roots ≡ₚ ids.
Proof.
  intros Hroots Hdeep.
  rewrite (unfold_levels f 0).
  - rewrite levels_below. rewrite filter_all; [done|].
    apply Forall_forall. intros x (k & Hk & Hlevel)%Hdeep.
    apply Exists_exists. exists k. split; [|done].
    apply list_elem_of_In, in_seq. lia.
  - rewrite Hroots. erewrite list_filter_iff; [done|].
    intros x. simpl. by destruct (up x).
Qed.

End levels.

(** ** Building the node objects *)

Section build_facts.
Context (lang : string).

Lemma add_nodes_lookup_ne (l : list Category) (m : gmap Z NodeObj) (i : Z) :
  i ∉ cat_id <$> l → foldl (add_node lang) m l !! i = m !! i.
Proof.
  revert m. induction l as [|c l IH]; intros m Hi; [done|].
  rewrite fmap_cons, not_elem_of_cons in Hi. destruct Hi as [Hne Hi].
  simpl. rewrite IH by done. unfold add_node. by rewrite lookup_insert_ne.
Qed.

Lemma add_nodes_dom (l : list Category) (m : gmap Z NodeObj) (i : Z) :
  is_Some (foldl (add_node lang) m l !! i) ↔ is_Some (m !! i) ∨ i ∈ cat_id <$> l.
Proof.
  revert m. induction l as [|c l IH]; intros m; simpl.
  - rewrite elem_of_nil. tauto.
  - rewrite IH, elem_of_cons. unfold add_node.
    destruct (decide (cat_id c = i)) as [<- | Hne].
    + rewrite lookup_insert_eq. split; [auto|]. intros _. left. by eexists.
    + rewrite lookup_insert_ne by done. split; [tauto|].
      intros [? | [? | ?]]; auto. congruence.
Qed.

Lemma add_nodes_lookup (l : list Category) (m : gmap Z NodeObj) (c : Category) :
  NoDup (cat_id <$> l) → c ∈ l →
  foldl (add_node lang) m l !! cat_id c = Some (mkNodeObj (node_data lang c) []).
Proof.
  revert m. induction l as [|c0 l IH]; intros m Hnd Hc; [by apply elem_of_nil in Hc|].
  rewrite fmap_cons in Hnd. apply NoDup_cons in Hnd as [Hc0 Hnd].
  apply elem_of_cons in Hc as [-> | Hc]; simpl.
  - rewrite add_nodes_lookup_ne by done. unfold add_node. by rewrite lookup_insert_eq.
  - by apply IH.
Qed.

Lemma parent_ref_attach (nodes : gmap Z NodeObj) (ids : list Z) (c : Category) :
  (∀ p, is_Some (nodes !! p) ↔ p ∈ ids) → parent_ref nodes c = attach ids c.
Proof.
  intros Hdom. unfold parent_ref, attach.
  destruct (cat_parent_id c) as [p|]; [|done].
  by rewrite (bool_decide_ext _ _ (Hdom p)).
Qed.

Lemma kids_append_child (st : TreeState) (p x i : Z) :
  is_Some (ts_nodes st !! p) →
  kids (mkTreeState (alter (append_child x) p (ts_nodes st)) (ts_roots st)) i
  = if decide (p = i) then (kids st i ++ [x])%list else kids st i.
Proof.
  intros [n Hn]. unfold kids. simpl.
  destruct (decide (p = i)) as [<- | Hne].
  - rewrite lookup_alter_eq, Hn. done.
  - by rewrite lookup_alter_ne.
Qed.

(** The second loop hangs every row under the parent [attach] names, or
    makes it a root, and leaves the fields of the nodes alone. *)
Lemma link_nodes_spec (ids : list Z) (l : list Category) (st : TreeState) :
  (∀ p, is_Some (ts_nodes st !! p) ↔ p ∈ ids) →
  (∀ i, node_fields <$> ts_nodes (foldl link_node st l) !! i
        = node_fields <$> ts_nodes st !! i) ∧
  (∀ i, kids (foldl link_node st l) i
        = (kids st i ++ (cat_id <$> filter (λ c, attach ids c = Some i) l))%list) ∧
  ts_roots (foldl link_node st l)
  = (ts_roots st ++ (cat_id <$> filter (λ c, attach ids c = None) l))%list.
Proof.
  revert st. induction l as [|c l IH]; intros st Hdom.
  - simpl. split; [done|]. split; [intros i|]; by rewrite app_nil_r.
  - assert (∀ p, attach ids c = Some p → p ∈ ids) as Hin.
    { unfold attach. intros p. destruct (cat_parent_id c) as [q|]; [|done].
      destruct (negb (q =? 0)); simpl; [|done]. case_bool_decide; [|done].
      by intros [= <-]. }
    simpl. unfold link_node at 2 4 6. rewrite (parent_ref_attach _ ids) by done.
    destruct (attach ids c) as [p|] eqn:Hp.
    + assert (is_Some (ts_nodes st !! p)) as Hnode by (apply Hdom; auto).
      destruct (IH (mkTreeState (alter (append_child (cat_id c)) p (ts_nodes st))
                                (ts_roots st))) as (Hf & Hk & Hr).
      { intros q. simpl. rewrite <- Hdom.
        destruct (decide (p = q)) as [<- | Hne].
        - rewrite lookup_alter_eq. by rewrite fmap_is_Some.
        - by rewrite lookup_alter_ne. }
      split; [|split].
      * intros i. rewrite Hf. simpl. destruct (decide (p = i)) as [<- | Hne].
        -- rewrite lookup_alter_eq. by destruct (ts_nodes st !! p).
        -- by rewrite lookup_alter_ne.
      * intros i. rewrite Hk, kids_append_child by done.
        rewrite filter_cons. destruct (decide (p = i)) as [<- | Hne].
        -- rewrite decide_True by done. by rewrite <- app_assoc.
        -- rewrite decide_False by congruence. done.
      * rewrite Hr. by rewrite filter_cons_False by congruence.
    + destruct (IH (mkTreeState (ts_nodes st) (ts_roots st ++ [cat_id c])))
        as (Hf & Hk & Hr); [done|].
      split; [|split].
      * intros i. by rewrite Hf.
      * intros i. rewrite Hk. by rewrite filter_cons_False by congruence.
      * rewrite Hr. simpl. rewrite filter_cons_True by done. by rewrite <- app_assoc.
Qed.

(** The state after both loops. *)
Lemma build_nodes_spec (cats : list Category) :
  NoDup (cat_id <$> cats) →
  (∀ i, is_Some (ts_nodes (build_nodes lang cats) !! i) ↔ i ∈ cat_id <$> cats) ∧
  (∀ c, c ∈ cats →
        node_fields <$> ts_nodes (build_nodes lang cats) !! cat_id c
        = Some (node_data lang c)) ∧
  (∀ i, kids (build_nodes lang cats) i
        = cat_id <$> filter (λ c, attach (cat_id <$> cats) c = Some i) cats) ∧
  ts_roots (build_nodes lang cats)
  = cat_id <$> filter (λ c, attach (cat_id <$> cats) c = None) cats.
Proof.
  intros Hnd. unfold build_nodes.
  set (st := mkTreeState (foldl (add_node lang) ∅ cats) []).
  assert (∀ p, is_Some (ts_nodes st !! p) ↔ p ∈ cat_id <$> cats) as Hdom.
  { intros p. simpl. rewrite add_nodes_dom, lookup_empty, is_Some_alt. tauto. }
  destruct (link_nodes_spec (cat_id <$> cats) cats st Hdom) as (Hf & Hk & Hr).
  split; [|split; [|split]].
  - intros i. rewrite <- Hdom, <- !(fmap_is_Some node_fields). by rewrite Hf.
  - intros c Hc. rewrite Hf. simpl. by rewrite add_nodes_lookup.
  - intros i. rewrite Hk. unfold kids at 1. simpl.
    destruct (foldl (add_node lang) ∅ cats !! i) as [n|] eqn:Hn; [|done].
    assert (i ∈ cat_id <$> cats) as (c & -> & Hc)%list_elem_of_fmap.
    { apply Hdom. simpl. by rewrite Hn. }
    rewrite add_nodes_lookup in Hn by done. by injection Hn as <-.
  - by rewrite Hr.
Qed.

End build_facts.

(** ** Rendering the nodes *)

Section render_facts.

Lemma Sorted_Forall2 {A B} (R : relation A) (R' : relation B) (P : A → B → Prop)
    (l : list A) (k : list B) :
  (∀ a b a' b', P a a' → P b b' → R a b → R' a' b') →
  Forall2 P l k → Sorted R l → Sorted R' k.
Proof.
  intros HR. induction 1 as [|a a' l k Ha Hlk IH]; intros Hs; [constructor|].
  apply Sorted_inv in Hs as [Hs Hhd]. constructor; [by apply IH|].
  destruct Hlk as [|b b' l k Hb _]; constructor.
  apply HdRel_inv in Hhd. by eapply HR.
Qed.

Lemma string_le_ltb (a b : string) : String.ltb b a = false → String.le a b.
Proof.
  unfold String.le, String.ltb, String.leb.
  rewrite (String.compare_antisym a b). by destruct (String.compare b a).
Qed.

(** The order of the sort keys is the order of the claim: by [order],
    then by name. *)
Lemma tuple_le_node_le (a b : NodeData) :
  tuple_ltb (n_order b, n_name b) (n_order a, n_name a) = false → node_le a b.
Proof.
  unfold tuple_ltb, node_le. simpl. intros Hle.
  apply orb_false_iff in Hle as [Hlt Heq]. apply Z.ltb_ge in Hlt.
  destruct (decide (n_order a = n_order b)) as [Hab | Hab]; [|left; lia].
  right. split; [done|]. apply string_le_ltb.
  rewrite Hab, Z.eqb_refl in Heq. done.
Qed.

Lemma ref_le_node_le (st : TreeState) (i j : Z) (ni nj : NodeObj) :
  ts_nodes st !! i = Some ni → ts_nodes st !! j = Some nj →
  ref_le st i j → node_le (node_fields ni) (node_fields nj).
Proof.
  unfold ref_le, key_le, sort_key. intros -> ->. apply tuple_le_node_le.
Qed.

Lemma render_unfold (f : nat) (st : TreeState) (l : list Z) :
  render (S f) st l
  = mapM (λ i, n ← ts_nodes st !! i;
               ch ← render f st (node_children n);
               Some (TNode (node_fields n) ch)) l.
Proof. reflexivity. Qed.

(** one step of [render]: the node [i] and its rendered children *)
Lemma render_S (f : nat) (st : TreeState) (l : list Z) (forest : list Tree) :
  render (S f) st l = Some forest →
  Forall2 (λ i t, ∃ n ch, ts_nodes st !! i = Some n ∧
                          render f st (node_children n) = Some ch ∧
                          t = TNode (node_fields n) ch) l forest.
Proof.
  rewrite render_unfold. intros Hr%mapM_Some_1.
  eapply Forall2_impl; [exact Hr|].
  intros i t Ht. cbv beta in Ht.
  destruct (ts_nodes st !! i) as [n|]; cbn [mbind option_bind] in Ht; [|done].
  destruct (render f st (node_children n)) as [ch|] eqn:Hch;
    cbn [mbind option_bind] in Ht; [|done].
  injection Ht as <-. by exists n, ch.
Qed.

Lemma kids_lookup (st : TreeState) (i : Z) (n : NodeObj) :
  ts_nodes st !! i = Some n → kids st i = node_children n.
Proof. intros Hn. unfold kids. simpl. by rewrite Hn. Qed.

Lemma render_success (f : nat) (st : TreeState) (l : list Z) :
  shallow f st l → is_Some (render f st l).
Proof.
  revert l. induction f as [|f IH]; intros l; [done|].
  intros Hl. rewrite render_unfold.
  apply mapM_is_Some_2. eapply Forall_impl; [exact Hl|].
  intros i [[n Hn] Hkids]. unfold compose. rewrite Hn.
  rewrite (kids_lookup st i n) in Hkids by done.
  destruct (IH _ Hkids) as [ch Hch].
  cbn [mbind option_bind]. rewrite Hch. by eexists.
Qed.

Lemma render_sorted (f : nat) (st : TreeState) (l : list Z) (forest : list Tree) :
  render f st l = Some forest → sorted_to f st l → sorted_forest forest.
Proof.
  revert l forest. induction f as [|f IH]; intros l forest; [done|].
  intros Hr%render_S [Hsorted Hkids]. split.
  - apply (Sorted_Forall2 (ref_le st) node_le
             (λ i d, ∃ n, ts_nodes st !! i = Some n ∧ d = node_fields n) l);
      [| |exact Hsorted].
    + intros i j a b (ni & Hni & ->) (nj & Hnj & ->) Hij.
      by eapply ref_le_node_le.
    + apply Forall2_fmap_r. eapply Forall2_impl; [exact Hr|].
      intros i t (n & ch & Hn & _ & ->). by exists n.
  - clear Hsorted. induction Hr as [|i t l forest (n & ch & Hn & Hch & ->) _ IHr];
      [constructor|].
    apply Forall_cons in Hkids as [Hi Hkids]. constructor; [|by apply IHr].
    rewrite (kids_lookup st i n) in Hi by done.
    destruct (IH _ _ Hch Hi). by constructor.
Qed.

Lemma render_ids (f : nat) (st : TreeState) (l : list Z) (forest : list Tree) :
  (∀ i n, ts_nodes st !! i = Some n → n_id (node_fields n) = i) →
  render f st l = Some forest →
  forest_ids forest = unfold (kids st) f l.
Proof.
  intros Hid. revert l forest. induction f as [|f IH]; intros l forest; [done|].
  intros Hr%render_S.
  induction Hr as [|i t l forest (n & ch & Hn & Hch & ->) _ IHr]; [done|].
  change (unfold (kids st) (S f) (i :: l))
    with ((i :: unfold (kids st) f (kids st i)) ++ unfold (kids st) (S f) l)%list.
  rewrite <- IHr, (kids_lookup st i n), <- (IH _ _ Hch) by done.
  unfold forest_ids. simpl. by rewrite (Hid i n).
Qed.

Section placement.
Context (lang : string) (cats : list Category) (st : TreeState).
Hypothesis nodes_of_rows :
  ∀ i n, ts_nodes st !! i = Some n →
         ∃ c, c ∈ cats ∧ cat_id c = i ∧ node_fields n = node_data lang c.
Hypothesis kids_of_parent :
  ∀ i x c, x ∈ kids st i → c ∈ cats → cat_id c = x → cat_parent_id c = Some i.

Lemma render_placed (f : nat) (parent : option Z) (l : list Z) (forest : list Tree) :
  render f st l = Some forest →
  (∀ x c, x ∈ l → c ∈ cats → cat_id c = x →
          match parent with
          | Some p => cat_parent_id c = Some p
          | None =>
              cat_parent_id c = None ∨
              ∃ p, cat_parent_id c = Some p ∧ p ∉ cat_id <$> cats
          end) →
  Forall (placed lang cats parent) forest.
Proof.
  revert parent l forest. induction f as [|f IH]; intros parent l forest; [done|].
  intros Hr%render_S Hl.
  induction Hr as [|i t l forest (n & ch & Hn & Hch & ->) _ IHr]; [constructor|].
  constructor.
  - destruct (nodes_of_rows i n Hn) as (c & Hc & Hid & ->).
    constructor; [done | |].
    + eapply Hl; [|done..]. by left.
    + rewrite Hid. eapply IH; [exact Hch|].
      intros x c' Hx Hc' Hid'. eapply kids_of_parent; [|done..].
      by rewrite (kids_lookup st i n).
  - apply IHr. intros x c Hx. apply Hl. by right.
Qed.

End placement.

End render_facts.

(** ** The full tree *)

Section full_tree_facts.
Context (lang : string) (cats : list Category).
Hypothesis ids_NoDup : NoDup (cat_id <$> cats).

Lemma get_category_NoDup (c : Category) :
  c ∈ cats → get_category cats (cat_id c) = Some c.
Proof.
  intros Hc.
  destruct (get_category_is_Some cats (cat_id c)) as [c' Hc'];
    [by apply list_elem_of_fmap_2|].
  rewrite Hc'. f_equal.
  apply get_category_Some in Hc' as [Hin Hid].
  clear -ids_NoDup Hc Hin Hid. induction cats as [|c0 l IH]; [by apply elem_of_nil in Hc|].
  rewrite fmap_cons in ids_NoDup. apply NoDup_cons in ids_NoDup as [Hc0 Hnd].
  apply elem_of_cons in Hc as [-> | Hc], Hin as [-> | Hin]; try done.
  - destruct Hc0. rewrite <- Hid. by apply list_elem_of_fmap_2.
  - destruct Hc0. rewrite Hid. by apply list_elem_of_fmap_2.
  - by apply IH.
Qed.

Lemma up_of_row (c : Category) :
  c ∈ cats → up_of cats (cat_id c) = attach (cat_id <$> cats) c.
Proof. intros Hc. unfold up_of. by rewrite get_category_NoDup. Qed.

Lemma attach_Some (ids : list Z) (c : Category) (p : Z) :
  attach ids c = Some p → cat_parent_id c = Some p ∧ p ∈ ids.
Proof.
  unfold attach. destruct (cat_parent_id c) as [q|]; [|done].
  destruct (negb (q =? 0)); simpl; [|done]. case_bool_decide; [|done].
  by intros [= <-].
Qed.

Lemma attach_None (ids : list Z) (c : Category) :
  0 ∉ ids → attach ids c = None →
  cat_parent_id c = None ∨ ∃ p, cat_parent_id c = Some p ∧ p ∉ ids.
Proof.
  intros H0. unfold attach. destruct (cat_parent_id c) as [q|]; [|by left].
  intros Hq. right. exists q. split; [done|].
  destruct (decide (q = 0)) as [-> | Hne]; [done|].
  rewrite (proj2 (Z.eqb_neq q 0)) in Hq by done. simpl in Hq.
  by case_bool_decide.
Qed.

Lemma up_of_closed (x p : Z) : up_of cats x = Some p → p ∈ cat_id <$> cats.
Proof.
  unfold up_of. destruct (get_category cats x) as [c|]; simpl; [|done].
  by intros [_ ?]%attach_Some.
Qed.

Lemma up_of_link (x p : Z) : up_of cats x = Some p → parent_link cats x p.
Proof.
  unfold up_of. destruct (get_category cats x) as [c|] eqn:Hc; simpl; [|done].
  intros [Hp _]%attach_Some. apply get_category_Some in Hc as [Hin Hid].
  by exists c.
Qed.

Lemma up_of_acyclic :
  acyclic cats → ∀ x, ¬ tc (λ a b, up_of cats a = Some b) x x.
Proof.
  intros Hacyclic x Hx. apply (Hacyclic x).
  apply (tc_congruence id (parent_link cats)) in Hx; [done|].
  intros a b. apply up_of_link.
Qed.

Lemma fmap_filter_rows (P : Category → Prop) (Q : Z → Prop)
    `{∀ c, Decision (P c)} `{∀ x, Decision (Q x)} (l : list Category) :
  (∀ c, c ∈ l → P c ↔ Q (cat_id c)) →
  cat_id <$> filter P l = filter Q (cat_id <$> l).
Proof.
  induction l as [|c l IH]; intros HPQ; [done|].
  assert (cat_id <$> filter P l = filter Q (cat_id <$> l)) as IH'.
  { apply IH. intros c' Hc'. apply HPQ. by right. }
  rewrite fmap_cons, !filter_cons.
  destruct (decide (P c)) as [HP | HP].
  - rewrite decide_True by (apply HPQ; [by left | done]).
    by rewrite fmap_cons, IH'.
  - rewrite decide_False; [done|]. intros HQ. apply HP, HPQ; [by left | done].
Qed.

(** The lists after the two loops, told by ids. *)
Lemma build_kids (p : Z) :
  kids (build_nodes lang cats) p
  = filter (λ x, up_of cats x = Some p) (cat_id <$> cats).
Proof.
  destruct (build_nodes_spec lang cats ids_NoDup) as (_ & _ & -> & _).
  apply fmap_filter_rows. intros c Hc. by rewrite up_of_row.
Qed.

Lemma build_roots :
  ts_roots (build_nodes lang cats)
  = filter (λ x, up_of cats x = None) (cat_id <$> cats).
Proof.
  destruct (build_nodes_spec lang cats ids_NoDup) as (_ & _ & _ & ->).
  apply fmap_filter_rows. intros c Hc. by rewrite up_of_row.
Qed.

(** A state whose lists are those of the rows is shallow where its nodes
    are not deep. *)
Lemma shallow_of_levels (st : TreeState) (depth : nat) :
  (∀ i, i ∈ cat_id <$> cats → is_Some (ts_nodes st !! i)) →
  (∀ p, kids st p ≡ₚ filter (λ x, up_of cats x = Some p) (cat_id <$> cats)) →
  (∀ x, x ∈ cat_id <$> cats →
        ∃ k, (k < depth)%nat ∧ at_level (up_of cats) k x = true) →
  ∀ f j l,
    (depth ≤ j + f)%nat →
    (∀ x, x ∈ l → x ∈ cat_id <$> cats ∧ at_level (up_of cats) j x = true) →
    shallow (S f) st l.
Proof.
  intros Hdom Hkids Hdeep. induction f as [|f IH]; intros j l Hj Hl.
  - simpl. apply Forall_forall. intros x [Hx Hlevel]%Hl.
    destruct (Hdeep x Hx) as (k & Hk & Hlevel').
    pose proof (at_level_unique _ _ _ _ Hlevel Hlevel'). lia.
  - change (Forall (λ i, is_Some (ts_nodes st !! i) ∧ shallow (S f) st (kids st i)) l).
    apply Forall_forall. intros i [Hi Hlevel]%Hl. split; [by apply Hdom|].
    apply (IH (S j)); [lia|].
    intros x Hx. rewrite Hkids in Hx.
    apply list_elem_of_filter in Hx as [Hup Hx]. split; [done|].
    simpl. by rewrite Hup.
Qed.

End full_tree_facts.

(** *** Fuel of the two recursions *)

Lemma foldl_bind_None {A B} (g : B → A → option A) (l : list B) :
  foldl (λ acc n, acc ≫= g n) None l = None.
Proof. by induction l. Qed.

Lemma foldl_bind_mono {A B} (g g' : B → A → option A) (l : list B) (a b : A) :
  (∀ n a b, g n a = Some b → g' n a = Some b) →
  foldl (λ acc n, acc ≫= g n) (Some a) l = Some b →
  foldl (λ acc n, acc ≫= g' n) (Some a) l = Some b.
Proof.
  intros Hg. revert a. induction l as [|n l IH]; intros a; [done|].
  simpl. destruct (g n a) as [a'|] eqn:Ha.
  - rewrite (Hg n a a' Ha). apply IH.
  - by rewrite foldl_bind_None.
Qed.

(** A sorting that ends, ends in the same state with more frames. *)
Lemma sort_children_more_fuel (f : nat) (r : ListRef) (st st' : TreeState) :
  sort_children f r st = Some st' → sort_children (S f) r st = Some st'.
Proof.
  revert r st st'. induction f as [|f IH]; intros r st st'; [done|].
  change (sort_children (S f) r st)
    with (foldl (λ acc n, acc ≫= sort_children f (ChildrenOf n))
            (Some (assign r (sort_by_key tuple_ltb (sort_key st) (deref st r)) st))
            (deref (assign r (sort_by_key tuple_ltb (sort_key st) (deref st r)) st) r)).
  change (sort_children (S (S f)) r st)
    with (foldl (λ acc n, acc ≫= sort_children (S f) (ChildrenOf n))
            (Some (assign r (sort_by_key tuple_ltb (sort_key st) (deref st r)) st))
            (deref (assign r (sort_by_key tuple_ltb (sort_key st) (deref st r)) st) r)).
  apply (foldl_bind_mono (λ n, sort_children f (ChildrenOf n))
                         (λ n, sort_children (S f) (ChildrenOf n))).
  intros n a b. apply IH.
Qed.

Lemma sort_children_fuel_le (f f' : nat) (r : ListRef) (st st' : TreeState) :
  (f ≤ f')%nat →
  sort_children f r st = Some st' → sort_children f' r st = Some st'.
Proof.
  induction 1 as [|f' _ IH]; [done|].
  intros Hf. by apply sort_children_more_fuel, IH.
Qed.

(** Below the nesting of the nodes there is nothing left to sort. *)
Lemma sorted_to_deep (f : nat) (st : TreeState) (l : list Z) :
  shallow f st l → sorted_to f st l → ∀ m, sorted_to m st l.
Proof.
  revert l. induction f as [|f IH]; intros l Hshallow Hsorted m; [done|].
  destruct m as [|m]; [done|].
  destruct Hsorted as [Hl Hkids]. split; [done|].
  change (Forall (λ i, is_Some (ts_nodes st !! i) ∧ shallow f st (kids st i)) l)
    in Hshallow.
  apply Forall_forall. intros i Hi.
  apply (IH (kids st i)).
  - by apply (proj1 (Forall_forall _ _) Hshallow i Hi).
  - by apply (proj1 (Forall_forall _ _) Hkids i Hi).
Qed.

(** C6, as the code has it: for loaded rows with distinct, non-zero ids
    and parent links without a cycle, whose nesting fits into the frames
    the interpreter has left for [sort_children] and into the depth the
    serializer can render, the full tree is built, and in it every loaded
    row is rendered exactly once, every root is a row without parent or
    with a parent that is not loaded, every other node stands under the
    node of the row its [parent_id] names, and every sibling list, the
    roots and the children of every node at every depth, is sorted by
    [order] and then by the localized name. *)
Theorem full_tree_assembly `{PyStack} (lang : string) (cats : list Category) :
  NoDup (cat_id <$> cats) →
  0 ∉ cat_id <$> cats →
  acyclic cats →
  nesting_fits cats frames_left →
  nesting_fits cats render_depth →
  ∃ forest,
    full_tree lang cats = Some forest ∧
    forest_ids forest ≡ₚ cat_id <$> cats ∧
    Forall (placed lang cats None) forest ∧
    sorted_forest forest.
Proof.
  intros Hnd Hzero Hacyclic [Hframes Hfits] [Hdepth Hfits'].
  set (ids := cat_id <$> cats).
  set (st0 := build_nodes lang cats).
  destruct (build_nodes_spec lang cats Hnd) as (Hdom & Hfields & _ & _).
  fold st0 in Hdom, Hfields.
  assert (∀ x, x ∈ ids → ∃ k, at_level (up_of cats) k x = true) as Hlevel.
  { intros x Hx.
    destruct (climb_ends (up_of cats) ids (up_of_closed cats)
                (up_of_acyclic cats Hacyclic) x Hx) as (k & _ & Hk).
    by exists k. }
  assert (∀ d, nesting_fits cats d →
            ∀ x, x ∈ ids → ∃ k, (k < d - 1)%nat ∧ at_level (up_of cats) k x = true)
    as Hdeep.
  { intros d [_ Hd] x Hx. destruct (Hlevel x Hx) as [k Hk]. exists k.
    split; [|done]. pose proof (Hd x k Hx Hk). lia. }
  assert (∀ x, x ∈ ts_roots st0 → x ∈ ids ∧ at_level (up_of cats) 0 x = true)
    as Hroots0.
  { intros x. unfold st0. rewrite build_roots by done.
    intros [Hup Hx]%list_elem_of_filter. split; [done|]. simpl. by rewrite Hup. }
  (* the lists are sorted in place *)
  destruct (sort_children_spec frames_left Roots st0) as (st & Hrun & Hinto & Hsorted).
  { replace frames_left with (S (frames_left - 1)) by lia.
    apply (shallow_of_levels cats st0 (frames_left - 1)) with (j := O);
      [| |by apply Hdeep|lia|done].
    - intros i Hi. by apply Hdom.
    - intros p. unfold st0. by rewrite build_kids. }
  assert (∀ p, kids st p ≡ₚ filter (λ x, up_of cats x = Some p) ids) as Hkids.
  { intros p. unfold kids. rewrite (sorts_into_perm st0 st) by done.
    fold (kids st0 p). unfold st0. by rewrite build_kids. }
  assert (ts_roots st ≡ₚ filter (λ x, up_of cats x = None) ids) as Hroots.
  { change (deref st Roots ≡ₚ filter (λ x, up_of cats x = None) ids).
    rewrite (sorts_into_perm st0 st) by done. simpl.
    unfold st0. by rewrite build_roots. }
  assert (∀ i nd, ts_nodes st !! i = Some nd →
            ∃ c, c ∈ cats ∧ cat_id c = i ∧ node_fields nd = node_data lang c)
    as Hnodes.
  { intros i nd Hi.
    assert (i ∈ ids) as (c & -> & Hc)%list_elem_of_fmap.
    { apply Hdom, (sorts_into_is_Some st0 st); [done | by eexists]. }
    exists c. split; [done|]. split; [done|].
    pose proof (proj1 Hinto (cat_id c)) as Hf.
    rewrite Hi, Hfields in Hf by done. by injection Hf. }
  assert (∀ d, nesting_fits cats d → shallow d st (ts_roots st)) as Hshallow.
  { intros d Hd. pose proof (proj1 Hd).
    replace d with (S (d - 1)) by lia.
    apply (shallow_of_levels cats st (d - 1)) with (j := O);
      [| |by apply Hdeep|lia|].
    - intros i Hi. by apply (sorts_into_is_Some st0 st), Hdom.
    - done.
    - intros x. rewrite Hroots. intros [Hup Hx]%list_elem_of_filter.
      split; [done|]. simpl. by rewrite Hup. }
  (* the sorted nodes are rendered *)
  destruct (render_success render_depth st (ts_roots st)) as [forest Hrender];
    [by apply Hshallow|].
  exists forest. split; [|split; [|split]].
  - unfold full_tree. fold st0. rewrite Hrun. exact Hrender.
  - assert (∀ i nd, ts_nodes st !! i = Some nd → n_id (node_fields nd) = i) as Hid.
    { intros i nd Hi. destruct (Hnodes i nd Hi) as (c & _ & <- & ->). done. }
    rewrite (render_ids _ _ _ _ Hid Hrender).
    apply (unfold_all ids (up_of cats)); [done | apply up_of_closed | done..| ].
    intros x Hx. destruct (Hlevel x Hx) as [k Hk].
    exists k. split; [|done]. pose proof (Hfits' x k Hx Hk). lia.
  - eapply (render_placed lang cats st Hnodes); [|exact Hrender|].
    + intros i x c Hx Hc <-. rewrite Hkids in Hx.
      apply list_elem_of_filter in Hx as [Hup _].
      rewrite up_of_row in Hup by done. by apply attach_Some in Hup as [? _].
    + intros x c Hx Hc <-. rewrite Hroots in Hx.
      apply list_elem_of_filter in Hx as [Hup _].
      rewrite up_of_row in Hup by done. by apply attach_None in Hup.
  - eapply render_sorted; [exact Hrender|].
    apply (sorted_to_deep frames_left); [|done].
    apply Hshallow. by split.
Qed.

(** A rank that falls along every parent link rules cycles out. *)
Lemma acyclic_by_rank (cats : list Category) (rank : Z → Z) :
  (∀ c p, c ∈ cats → cat_parent_id c = Some p → rank p < rank (cat_id c)) →
  acyclic cats.
Proof.
  intros Hrank.
  assert (∀ x y, tc (parent_link cats) x y → rank y < rank x) as Htc.
  { induction 1 as [x y (c & Hc & <- & Hp) | x y z (c & Hc & <- & Hp) _ IH].
    - by eapply Hrank.
    - specialize (Hrank c y Hc Hp). lia. }
  intros x Hx%Htc. lia.
Qed.

Lemma sample_categories_acyclic : acyclic sample_categories.
Proof.
  apply (acyclic_by_rank _ id). intros c p Hc Hp.
  unfold sample_categories in Hc.
  repeat (apply elem_of_cons in Hc as [-> | Hc]);
    [..|by apply elem_of_nil in Hc]; simpl in Hp; simplify_eq; done.
Qed.

Lemma sample_categories_NoDup : NoDup (cat_id <$> sample_categories).
Proof. compute_done. Qed.

Lemma sample_categories_nonzero : 0 ∉ cat_id <$> sample_categories.
Proof. compute_done. Qed.

Lemma sample_parents_exist : parents_exist sample_categories.
Proof.
  intros c p Hc Hp. unfold sample_categories in Hc.
  repeat (apply elem_of_cons in Hc as [-> | Hc]);
    [..|by apply elem_of_nil in Hc]; simpl in Hp; simplify_eq; compute_done.
Qed.

(** *** A chain deeper than the frames *)

Lemma chain_ids (n : nat) : cat_id <$> chain n = Z.of_nat <$> seq 1 n.
Proof. unfold chain. by rewrite <- list_fmap_compose. Qed.

Lemma chain_NoDup (n : nat) : NoDup (cat_id <$> chain n).
Proof.
  rewrite chain_ids. apply NoDup_fmap_2; [|apply NoDup_seq].
  intros i j. apply Nat2Z.inj.
Qed.

Lemma chain_nonzero (n : nat) : 0 ∉ cat_id <$> chain n.
Proof.
  rewrite chain_ids. intros (i & Hi & Hin)%list_elem_of_fmap.
  apply list_elem_of_In, in_seq in Hin. lia.
Qed.

Lemma chain_acyclic (n : nat) : acyclic (chain n).
Proof.
  apply (acyclic_by_rank _ id). intros c p (i & -> & _)%list_elem_of_fmap.
  simpl. destruct (i =? 1)%nat; [done|]. intros [= <-]. unfold id. lia.
Qed.

(** C6, counterexample: a chain of 1000 categories has distinct,
    non-zero ids and no cycle, and with at most 1000 frames left, as under
    the default recursion limit of the interpreter, [sort_children] runs
    out of frames on it: no tree is assembled and the view raises
    [RecursionError]. *)
Lemma deep_chain_raises :
  NoDup (cat_id <$> chain 1000) ∧
  (0 ∉ cat_id <$> chain 1000) ∧
  acyclic (chain 1000) ∧
  ∀ stack : PyStack,
    (frames_left (PyStack := stack) ≤ 1000)%nat →
    @full_tree stack "ru" (chain 1000) = None ∧
    @CategoriesTreeView_get Decimal.runtime stack (mkRequest ∅ None) (chain 1000)
    = Raised "RecursionError".
Proof.
  split; [apply chain_NoDup|]. split; [apply chain_nonzero|].
  split; [apply chain_acyclic|]. intros stack Hle.
  assert (@full_tree stack "ru" (chain 1000) = None) as Htree.
  { unfold full_tree.
    destruct (sort_children frames_left Roots (build_nodes "ru" (chain 1000)))
      as [st|] eqn:Hsort; [|done].
    apply (sort_children_fuel_le _ 1000) in Hsort; [|done].
    vm_compute in Hsort. discriminate. }
  split; [done|].
  unfold CategoriesTreeView_get. cbn [query_params]. rewrite lookup_empty.
  change (_lang_from_request (mkRequest ∅ None)) with "ru".
  by rewrite Htree.
Qed.

(** The sample taxonomy is two levels deep. *)
Lemma sample_nesting_fits (d : nat) :
  (3 ≤ d)%nat → nesting_fits sample_categories d.
Proof.
  intros Hd. split; [lia|]. intros x k Hx Hk.
  destruct (climb_ends (up_of sample_categories) (cat_id <$> sample_categories)
              (up_of_closed sample_categories)
              (up_of_acyclic sample_categories sample_categories_acyclic) x Hx)
    as (k' & Hk' & Hlevel).
  rewrite (at_level_unique _ _ _ _ Hk Hlevel).
  assert (k' ≤ 1)%nat; [|lia].
  destruct k' as [|[|k']]; [lia..|]. exfalso.
  change (cat_id <$> sample_categories) with [1; 2; 3] in Hx.
  repeat (apply elem_of_cons in Hx as [-> | Hx]); [..|by apply elem_of_nil in Hx];
    by vm_compute in Hlevel.
Qed.

(** C6 as amended, at the sample taxonomy and 1000 frames. *)
Lemma full_tree_assembly_witness :
  ∃ forest,
    full_tree "ru" sample_categories = Some forest ∧
    forest_ids forest ≡ₚ cat_id <$> sample_categories ∧
    Forall (placed "ru" sample_categories None) forest ∧
    sorted_forest forest.
Proof.
  apply (full_tree_assembly "ru" sample_categories).
  - apply sample_categories_NoDup.
  - apply sample_categories_nonzero.
  - apply sample_categories_acyclic.
  - apply sample_nesting_fits. apply Nat.leb_le. reflexivity.
  - apply sample_nesting_fits. apply Nat.leb_le. reflexivity.
Defined.

(** C9 at the child of the sample taxonomy. *)
Lemma ancestor_walk_witness :
  ∃ ids,
    (∀ fuel, (length sample_categories ≤ fuel)%nat →
             ancestor_ids fuel sample_categories (Some sample_child) = Done ids) ∧
    ancestor_path sample_categories 2 ids ∧
    NoDup ids ∧
    (length ids ≤ length sample_categories)%nat.
Proof.
  apply (ancestor_walk_terminates sample_categories 2 sample_child).
  - apply sample_categories_acyclic.
  - apply sample_parents_exist.
  - reflexivity.
Defined.

(** ** The handlers on the sample data *)

Example to_bool_examples :
  to_bool (PStr "  YES ") = true ∧ to_bool (PStr "On") = true ∧
  to_bool (PStr "no") = false ∧ to_bool (PStr "") = false ∧
  to_bool (PInt 1) = false ∧ to_bool PNone = false ∧
  to_bool (PBool true) = true.
Proof. repeat split. Qed.

Example to_float_or_none_examples :
  to_float_or_none (PStr "41.3") = PFloat (413, 1%nat) ∧
  to_float_or_none (PStr "") = PNone ∧
  to_float_or_none PNone = PNone ∧
  to_float_or_none (PStr "north") = PNone ∧
  to_float_or_none (PInt 7) = PFloat (7, 0%nat).
Proof. repeat split. Qed.

Example lang_examples :
  _lang_from_request (mkRequest {["lang" := "uz"]} None) = "uz" ∧
  _lang_from_request (mkRequest {["lang" := "en"]} (Some "UZ-Latn,ru;q=0.8")) = "uz" ∧
  _lang_from_request (mkRequest ∅ (Some "en-US")) = "ru" ∧
  _lang_from_request (mkRequest ∅ None) = "ru".
Proof. repeat split. Qed.

(** The two children of the root have the same [order]; the database
    hands them over as Cars, Bikes and the tree lists them by name. *)
Example full_tree_example :
  full_tree "ru" sample_categories
  = Some [TNode (mkNodeData 1 "Транспорт" "transport" "car" "" false 1)
            [TNode (mkNodeData 3 "Bikes" "bikes" "bike" "" true 2) [];
             TNode (mkNodeData 2 "Cars" "cars" "car" "" true 2) []]].
Proof. reflexivity. Qed.

Example children_example :
  CategoriesTreeView_get (mkRequest {["parent_id" := "1"]} None) sample_categories
  = Done (mkResponse 200
            [TNode (mkNodeData 2 "Cars" "cars" "car" "" true 2) [];
             TNode (mkNodeData 3 "Bikes" "bikes" "bike" "" true 2) []]).
Proof. reflexivity. Qed.

Example ancestor_ids_example :
  ancestor_ids 4 sample_categories (Some sample_child) = Done [2; 1].
Proof. reflexivity. Qed.
(** * Further properties *)

(** ** The full tree when parent links may form cycles *)

Section level_bound.
Context (next : Z → option Z) (dom : list Z).
Hypothesis next_closed : ∀ x p, next x = Some p → p ∈ dom.

(** The climb from a node at level [k] meets [k + 1] nodes, all at
    different levels. *)
Lemma at_level_trail (k : nat) (x : Z) :
  at_level next k x = true →
  length (trail next (S k) x) = S k ∧
  NoDup (trail next (S k) x) ∧
  ∀ y, y ∈ trail next (S k) x → ∃ j, (j ≤ k)%nat ∧ at_level next j y = true.
Proof.
  revert x. induction k as [|k IH]; intros x Hlevel.
  - simpl in *. destruct (next x) eqn:Hp; [done|].
    split; [done|]. split; [apply NoDup_singleton|].
    intros y ->%list_elem_of_singleton. exists O. split; [lia|].
    simpl. by rewrite Hp.
  - change (trail next (S (S k)) x)
      with (x :: match next x with Some p => trail next (S k) p | None => [] end).
    simpl in Hlevel. destruct (next x) as [p|] eqn:Hp; [|done].
    destruct (IH p Hlevel) as (Hlen & Hnd & Hlevels).
    split; [simpl in *; lia|]. split.
    + constructor; [|done]. intros (j & Hj & Hx)%Hlevels.
      assert (at_level next (S k) x = true) as Hx' by (simpl; by rewrite Hp).
      pose proof (at_level_unique _ _ _ _ Hx Hx'). lia.
    + intros y [-> | Hy]%elem_of_cons.
      * exists (S k). split; [lia|]. simpl. by rewrite Hp.
      * destruct (Hlevels y Hy) as (j & Hj & Hy'). exists j. split; [lia | done].
Qed.

(** A node that reaches a root does so in fewer links than there are nodes. *)
Lemma level_lt_length (k : nat) (x : Z) :
  x ∈ dom → at_level next k x = true → (k < length dom)%nat.
Proof.
  intros Hx Hlevel. destruct (at_level_trail k x Hlevel) as (Hlen & Hnd & _).
  assert (length (trail next (S k) x) ≤ length dom)%nat; [|lia].
  apply submseteq_length, NoDup_submseteq; [done|].
  intros y. by apply (trail_in_dom next dom next_closed).
Qed.

(** Levels fall along the links. *)
Lemma at_level_rtc (k : nat) (x y : Z) :
  rtc (λ a b, next a = Some b) x y → at_level next k x = true →
  ∃ j, (j ≤ k)%nat ∧ at_level next j y = true.
Proof.
  intros Hxy. revert k. induction Hxy as [x | x p y Hp _ IH]; intros k Hlevel.
  - by exists k.
  - destruct k as [|k]; simpl in Hlevel; rewrite Hp in Hlevel; [done|].
    destruct (IH k Hlevel) as (j & Hj & Hy). exists j. split; [lia | done].
Qed.

Lemma at_level_tc (k : nat) (x y : Z) :
  tc (λ a b, next a = Some b) x y → at_level next k x = true →
  ∃ j, (j < k)%nat ∧ at_level next j y = true.
Proof.
  intros Hxy Hlevel.
  assert (∃ p, next x = Some p ∧ rtc (λ a b, next a = Some b) p y)
    as (p & Hp & Hpy).
  { destruct Hxy as [x y Hp | x p y Hp Hpy]; [by exists y|].
    exists p. split; [done|]. by apply tc_rtc. }
  destruct k as [|k]; simpl in Hlevel; rewrite Hp in Hlevel; [done|].
  destruct (at_level_rtc k p y Hpy Hlevel) as (j & Hj & Hy).
  exists j. split; [lia | done].
Qed.

(** A node with a level is neither on nor below a cycle. *)
Lemma at_level_no_cycle (k : nat) (x y : Z) :
  at_level next k x = true →
  rtc (λ a b, next a = Some b) x y → ¬ tc (λ a b, next a = Some b) y y.
Proof.
  intros Hlevel Hxy Hyy.
  destruct (at_level_rtc k x y Hxy Hlevel) as (j & _ & Hy).
  destruct (at_level_tc j y y Hyy Hy) as (j' & Hj' & Hy').
  pose proof (at_level_unique _ _ _ _ Hy Hy'). lia.
Qed.

(** A climb that meets a node twice has entered a cycle. *)
Lemma trail_repeat (n : nat) (x : Z) :
  ¬ NoDup (trail next n x) →
  ∃ y, rtc (λ a b, next a = Some b) x y ∧ tc (λ a b, next a = Some b) y y.
Proof.
  revert x. induction n as [|n IH]; intros x Hdup; [destruct Hdup; constructor|].
  simpl in Hdup. destruct (next x) as [p|] eqn:Hp;
    [|destruct Hdup; apply NoDup_singleton].
  destruct (decide (x ∈ trail next n p)) as [Hx | Hx].
  - exists x. split; [done|].
    eapply tc_rtc_r; [by apply tc_once|]. by eapply trail_reaches.
  - destruct (IH p) as (y & Hpy & Hyy).
    + intros Hnd. apply Hdup. by constructor.
    + exists y. split; [|done]. by eapply rtc_l.
Qed.

(** Every node reaches a root or a cycle. *)
Lemma level_or_cycle (x : Z) :
  x ∈ dom →
  (∃ k, (k < length dom)%nat ∧ at_level next k x = true) ∨
  (∃ y, rtc (λ a b, next a = Some b) x y ∧ tc (λ a b, next a = Some b) y y).
Proof.
  intros Hx.
  destruct (decide (NoDup (trail next (S (length dom)) x))) as [Hnd | Hdup].
  - left. apply trail_ended_level.
    apply submseteq_length, NoDup_submseteq; [done|].
    intros y. by apply (trail_in_dom next dom next_closed).
  - right. by eapply trail_repeat.
Qed.

End level_bound.

Lemma mapM_mono {A B} (g g' : A → option B) (l : list A) (k : list B) :
  (∀ x y, g x = Some y → g' x = Some y) →
  mapM g l = Some k → mapM g' l = Some k.
Proof.
  intros Hg Hl%mapM_Some_1. apply mapM_Some_2.
  eapply Forall2_impl; [exact Hl|]. exact Hg.
Qed.

(** A rendering that ends, ends in the same forest at a greater depth. *)
Lemma render_more_fuel (f : nat) (st : TreeState) (l : list Z) (forest : list Tree) :
  render f st l = Some forest → render (S f) st l = Some forest.
Proof.
  revert l forest. induction f as [|f IH]; intros l forest; [done|].
  rewrite (render_unfold f), (render_unfold (S f)).
  apply mapM_mono. intros i t.
  destruct (ts_nodes st !! i) as [n|]; cbn [mbind option_bind]; [|done].
  destruct (render f st (node_children n)) as [ch|] eqn:Hch;
    cbn [mbind option_bind]; [|done].
  by rewrite (IH _ _ Hch).
Qed.

Lemma render_fuel_le (f f' : nat) (st : TreeState) (l : list Z) (forest : list Tree) :
  (f ≤ f')%nat → render f st l = Some forest → render f' st l = Some forest.
Proof.
  induction 1 as [|f' _ IH]; [done|].
  intros Hf. by apply render_more_fuel, IH.
Qed.

Section full_tree_general.
Context (lang : string) (cats : list Category).
Hypothesis ids_NoDup : NoDup (cat_id <$> cats).

(** A state whose lists are those of the rows is shallow where the
    levels of its nodes are bounded. *)
Lemma shallow_of_bound (st : TreeState) (depth : nat) :
  (∀ i, i ∈ cat_id <$> cats → is_Some (ts_nodes st !! i)) →
  (∀ p, kids st p ≡ₚ filter (λ x, up_of cats x = Some p) (cat_id <$> cats)) →
  (∀ x k, x ∈ cat_id <$> cats → at_level (up_of cats) k x = true →
          (k < depth)%nat) →
  ∀ f j l,
    (depth ≤ j + f)%nat →
    (∀ x, x ∈ l → x ∈ cat_id <$> cats ∧ at_level (up_of cats) j x = true) →
    shallow (S f) st l.
Proof.
  intros Hdom Hkids Hbound. induction f as [|f IH]; intros j l Hj Hl.
  - simpl. apply Forall_forall. intros x [Hx Hlevel]%Hl.
    pose proof (Hbound x j Hx Hlevel). lia.
  - change (Forall (λ i, is_Some (ts_nodes st !! i) ∧ shallow (S f) st (kids st i)) l).
    apply Forall_forall. intros i [Hi Hlevel]%Hl. split; [by apply Hdom|].
    apply (IH (S j)); [lia|].
    intros x Hx. rewrite Hkids in Hx.
    apply list_elem_of_filter in Hx as [Hup Hx]. split; [done|].
    simpl. by rewrite Hup.
Qed.

(** With more frames than there are rows the sorting and the rendering
    end: the sorting in a state [st] whose lists are those of the rows. *)
Lemma tree_state (M : nat) :
  (S (length cats) ≤ M)%nat →
  ∃ st forest,
    sort_children M Roots (build_nodes lang cats) = Some st ∧
    render M st (ts_roots st) = Some forest ∧
    sorted_to M st (ts_roots st) ∧
    (∀ p, kids st p ≡ₚ filter (λ x, up_of cats x = Some p) (cat_id <$> cats)) ∧
    ts_roots st ≡ₚ filter (λ x, up_of cats x = None) (cat_id <$> cats) ∧
    (∀ i nd, ts_nodes st !! i = Some nd →
             ∃ c, c ∈ cats ∧ cat_id c = i ∧ node_fields nd = node_data lang c).
Proof.
  intros HM.
  set (ids := cat_id <$> cats). set (n := length cats) in *.
  set (st0 := build_nodes lang cats).
  destruct (build_nodes_spec lang cats ids_NoDup) as (Hdom & Hfields & _ & _).
  fold st0 in Hdom, Hfields.
  assert (∀ x k, x ∈ ids → at_level (up_of cats) k x = true → (k < n)%nat)
    as Hbound.
  { intros x k Hx Hlevel. unfold n. rewrite <- (length_fmap cat_id cats).
    eapply level_lt_length; [apply up_of_closed | exact Hx | exact Hlevel]. }
  destruct M as [|f]; [lia|].
  destruct (sort_children_spec (S f) Roots st0) as (st & Hrun & Hinto & Hsorted).
  { apply (shallow_of_bound st0 n) with (j := O); [| |done|lia|].
    - intros i Hi. by apply Hdom.
    - intros p. unfold st0. by rewrite build_kids.
    - intros x. simpl. unfold st0. rewrite build_roots by done.
      intros [Hup Hx]%list_elem_of_filter. split; [done|]. by rewrite Hup. }
  assert (∀ p, kids st p ≡ₚ filter (λ x, up_of cats x = Some p) ids) as Hkids.
  { intros p. unfold kids. rewrite (sorts_into_perm st0 st) by done.
    fold (kids st0 p). unfold st0. by rewrite build_kids. }
  assert (ts_roots st ≡ₚ filter (λ x, up_of cats x = None) ids) as Hroots.
  { change (deref st Roots ≡ₚ filter (λ x, up_of cats x = None) ids).
    rewrite (sorts_into_perm st0 st) by done. simpl.
    unfold st0. by rewrite build_roots. }
  destruct (render_success (S f) st (ts_roots st)) as [forest Hrender].
  { apply (shallow_of_bound st n) with (j := O); [| |done|lia|].
    - intros i Hi. by apply (sorts_into_is_Some st0 st), Hdom.
    - done.
    - intros x. rewrite Hroots. intros [Hup Hx]%list_elem_of_filter.
      split; [done|]. simpl. by rewrite Hup. }
  exists st, forest. split; [done|].
  split; [done|split; [done|split; [done|split; [done|]]]].
  intros i nd Hi.
  assert (i ∈ ids) as (c & -> & Hc)%list_elem_of_fmap.
  { apply Hdom, (sorts_into_is_Some st0 st); [done | by eexists]. }
  exists c. split; [done|]. split; [done|].
  pose proof (proj1 Hinto (cat_id c)) as Hf.
  rewrite Hi, Hfields in Hf by done. by injection Hf.
Qed.

(** A tree that was built in the frames the interpreter had is the tree
    that is built with more frames than there are rows. *)
Lemma full_tree_big `{PyStack} (forest : list Tree) :
  full_tree lang cats = Some forest →
  ∃ M st,
    (length cats < M)%nat ∧
    render M st (ts_roots st) = Some forest ∧
    sorted_to M st (ts_roots st) ∧
    (∀ p, kids st p ≡ₚ filter (λ x, up_of cats x = Some p) (cat_id <$> cats)) ∧
    ts_roots st ≡ₚ filter (λ x, up_of cats x = None) (cat_id <$> cats) ∧
    (∀ i nd, ts_nodes st !! i = Some nd →
             ∃ c, c ∈ cats ∧ cat_id c = i ∧ node_fields nd = node_data lang c).
Proof.
  unfold full_tree.
  destruct (sort_children frames_left Roots (build_nodes lang cats))
    as [st1|] eqn:Hsort; [|done].
  cbn [mbind option_bind]. intros Hrender.
  set (M := (frames_left + render_depth + S (length cats))%nat).
  destruct (tree_state M) as (st & forest' & Hsort' & Hrender' & Hrest); [lia|].
  apply (sort_children_fuel_le _ M) in Hsort; [|lia].
  apply (render_fuel_le _ M) in Hrender; [|lia].
  rewrite Hsort in Hsort'. injection Hsort' as <-.
  exists M, st1. split; [lia|]. split; [done|]. exact Hrest.
Qed.

(** The tree fits whenever the nesting of the rows that reach a root
    does. *)
Lemma full_tree_fits `{PyStack} :
  nesting_fits cats frames_left → nesting_fits cats render_depth →
  is_Some (full_tree lang cats).
Proof.
  intros [Hframes Hfits] [Hdepth Hfits'].
  set (ids := cat_id <$> cats).
  set (st0 := build_nodes lang cats).
  destruct (build_nodes_spec lang cats ids_NoDup) as (Hdom & _ & _ & _).
  fold st0 in Hdom.
  destruct (sort_children_spec frames_left Roots st0) as (st & Hrun & Hinto & _).
  { replace frames_left with (S (frames_left - 1)) by lia.
    apply (shallow_of_bound st0 (frames_left - 1)) with (j := O); [| | |lia|].
    - intros i Hi. by apply Hdom.
    - intros p. unfold st0. by rewrite build_kids.
    - intros x k Hx Hk. pose proof (Hfits x k Hx Hk). lia.
    - intros x. simpl. unfold st0. rewrite build_roots by done.
      intros [Hup Hx]%list_elem_of_filter. split; [done|]. by rewrite Hup. }
  destruct (render_success render_depth st (ts_roots st)) as [forest Hrender].
  { replace render_depth with (S (render_depth - 1)) by lia.
    apply (shallow_of_bound st (render_depth - 1)) with (j := O); [| | |lia|].
    - intros i Hi. by apply (sorts_into_is_Some st0 st), Hdom.
    - intros p. unfold kids. rewrite (sorts_into_perm st0 st) by done.
      fold (kids st0 p). unfold st0. by rewrite build_kids.
    - intros x k Hx Hk. pose proof (Hfits' x k Hx Hk). lia.
    - intros x.
      change (x ∈ deref st Roots → x ∈ ids ∧ at_level (up_of cats) 0 x = true).
      rewrite (sorts_into_perm st0 st) by done. simpl.
      unfold st0. rewrite build_roots by done.
      intros [Hup Hx]%list_elem_of_filter. split; [done|]. by rewrite Hup. }
  exists forest. unfold full_tree. fold st0. rewrite Hrun. exact Hrender.
Qed.

(** The rows of a built tree: once each, the rows from which the chain
    of loaded parents ends at a root. *)
Lemma full_tree_levels `{PyStack} (forest : list Tree) :
  full_tree lang cats = Some forest →
  ∃ M, (length cats < M)%nat ∧
       forest_ids forest
       ≡ₚ filter (λ x, Exists (λ k, at_level (up_of cats) k x = true) (seq 0 M))
                 (cat_id <$> cats).
Proof.
  intros (M & st & HM & Hrender & _ & Hkids & Hroots & Hnodes)%full_tree_big.
  exists M. split; [done|].
  assert (∀ i nd, ts_nodes st !! i = Some nd → n_id (node_fields nd) = i) as Hid.
  { intros i nd Hi. destruct (Hnodes i nd Hi) as (c & _ & <- & ->). done. }
  rewrite (render_ids _ _ _ _ Hid Hrender).
  rewrite (unfold_levels (cat_id <$> cats) (up_of cats) (kids st) ids_NoDup
             (up_of_closed cats) Hkids M 0).
  - apply levels_below.
  - rewrite Hroots. erewrite list_filter_iff; [done|].
    intros x. simpl. by destruct (up_of cats x).
Qed.

Lemma full_tree_sorted `{PyStack} (forest : list Tree) :
  full_tree lang cats = Some forest → sorted_forest forest.
Proof.
  intros (M & st & _ & Hrender & Hsorted & _)%full_tree_big.
  by eapply render_sorted.
Qed.

Lemma full_tree_members `{PyStack} (forest : list Tree) (x : Z) :
  full_tree lang cats = Some forest →
  x ∈ forest_ids forest
  ↔ x ∈ cat_id <$> cats ∧ ∃ k, at_level (up_of cats) k x = true.
Proof.
  intros (M & HM & Hids)%full_tree_levels.
  rewrite Hids, list_elem_of_filter, Exists_exists. split.
  - intros [(k & _ & Hlevel) Hx]. split; [done | by exists k].
  - intros [Hx (k & Hlevel)]. split; [|done]. exists k. split; [|done].
    apply list_elem_of_In, in_seq.
    pose proof (level_lt_length (up_of cats) (cat_id <$> cats)
                  (up_of_closed cats) k x Hx Hlevel) as Hk.
    rewrite length_fmap in Hk. lia.
Qed.

Lemma full_tree_NoDup `{PyStack} (forest : list Tree) :
  full_tree lang cats = Some forest → NoDup (forest_ids forest).
Proof.
  intros (M & _ & Hids)%full_tree_levels.
  rewrite Hids. by apply NoDup_filter.
Qed.

End full_tree_general.

Section links.
Context (cats : list Category).
Hypothesis ids_NoDup : NoDup (cat_id <$> cats).
Hypothesis ids_nonzero : 0 ∉ cat_id <$> cats.

Lemma link_source (x p : Z) : parent_link cats x p → x ∈ cat_id <$> cats.
Proof. intros (c & Hc & <- & _). by apply list_elem_of_fmap_2. Qed.

(** A parent link to a loaded row is the link the tree is built along. *)
Lemma link_up_of (x p : Z) :
  parent_link cats x p → p ∈ cat_id <$> cats → up_of cats x = Some p.
Proof.
  intros (c & Hc & <- & Hp) Hin. rewrite up_of_row by done.
  unfold attach. rewrite Hp.
  assert (p ≠ 0) as Hne by (by intros ->).
  rewrite (proj2 (Z.eqb_neq p 0)) by done. simpl.
  by rewrite bool_decide_eq_true_2.
Qed.

Lemma rtc_link_up (x y : Z) :
  rtc (parent_link cats) x y → (∃ w, parent_link cats y w) →
  rtc (λ a b, up_of cats a = Some b) x y.
Proof.
  induction 1 as [x | x a y Hxa Hay IH]; intros Hy; [done|].
  eapply rtc_l; [|by apply IH]. apply link_up_of; [done|].
  destruct Hay as [|a b y Hab _]; [|by eapply link_source].
  destruct Hy as [w Hw]. by eapply link_source.
Qed.

Lemma tc_link_up (x y : Z) :
  tc (parent_link cats) x y → (∃ w, parent_link cats y w) →
  tc (λ a b, up_of cats a = Some b) x y.
Proof.
  induction 1 as [x y Hxy | x a y Hxa Hay IH]; intros Hy.
  - apply tc_once, link_up_of; [done|]. destruct Hy as [w Hw]. by eapply link_source.
  - eapply tc_l; [|by apply IH]. apply link_up_of; [done|].
    destruct Hay as [a y Hab | a b y Hab _]; by eapply link_source.
Qed.

(** A row has a level exactly when it is neither on nor below a cycle. *)
Lemma level_iff_no_cycle (x : Z) :
  x ∈ cat_id <$> cats →
  (∃ k, at_level (up_of cats) k x = true) ↔ ¬ below_cycle cats x.
Proof.
  intros Hx. split.
  - intros [k Hlevel] (y & Hxy & Hyy).
    assert (∃ w, parent_link cats y w) as Hy.
    { inversion Hyy; subst; by eexists. }
    eapply (at_level_no_cycle (up_of cats) k x y);
      [done | by apply rtc_link_up | by apply tc_link_up].
  - intros Hfree.
    destruct (level_or_cycle (up_of cats) (cat_id <$> cats)
                (up_of_closed cats) x Hx)
      as [(k & _ & Hlevel) | (y & Hxy & Hyy)]; [by exists k|].
    destruct Hfree. exists y. split.
    + apply (rtc_congruence id (parent_link cats)) in Hxy; [done|].
      intros a b. apply up_of_link.
    + apply (tc_congruence id (parent_link cats)) in Hyy; [done|].
      intros a b. apply up_of_link.
Qed.

End links.

(** The nesting of rows fits into more frames than there are rows. *)
Lemma nesting_fits_length (cats : list Category) (d : nat) :
  (S (length cats) ≤ d)%nat → nesting_fits cats d.
Proof.
  intros Hd. split; [lia|]. intros x k Hx Hk.
  pose proof (level_lt_length (up_of cats) (cat_id <$> cats)
                (up_of_closed cats) k x Hx Hk) as Hlt.
  rewrite length_fmap in Hlt. lia.
Qed.

(** X1: for category rows with distinct ids, a cycle of parent links
    costs the categories endpoint nothing: the recursive sorting and the
    rendering only visit the rows that reach a root. When the nesting of
    these rows fits into the frames the interpreter has left and into the
    depth the serializer renders, a request that asks for the children of
    an integer outside the range of the database raises [OverflowError],
    and every other request is answered with status 200; no category is
    in the answer twice, every node of it is a loaded row, and the full
    tree of a request without [parent_id] has every sibling list
    sorted. *)
Theorem categories_answer_for_distinct_ids `{PyRuntime} `{PyStack}
    (request : Request) (qs : list Category) :
  NoDup (cat_id <$> qs) →
  nesting_fits qs frames_left →
  nesting_fits qs render_depth →
  if overflowing request
  then CategoriesTreeView_get request qs = Raised "OverflowError"
  else
    ∃ roots,
      CategoriesTreeView_get request qs = Done (mkResponse 200 roots) ∧
      NoDup (forest_ids roots) ∧
      (∀ x, x ∈ forest_ids roots → x ∈ cat_id <$> qs) ∧
      (query_params request !! "parent_id" = None → sorted_forest roots).
Proof.
  intros Hnd Hframes Hdepth.
  destruct (full_tree_fits (_lang_from_request request) qs Hnd Hframes Hdepth)
    as [forest Hforest].
  pose proof (full_tree_NoDup _ qs Hnd forest Hforest) as Hnd'.
  pose proof (full_tree_sorted _ qs Hnd forest Hforest) as Hsorted.
  assert (∀ x, x ∈ forest_ids forest → x ∈ cat_id <$> qs) as Hin.
  { intros x Hx. by apply (full_tree_members _ qs Hnd forest x Hforest) in Hx as [? _]. }
  assert (∀ pid,
    forest_ids (map (λ c, TNode (node_data (_lang_from_request request) c) [])
                    (filter (λ c, cat_parent_id c = Some pid) qs))
    = cat_id <$> filter (λ c, cat_parent_id c = Some pid) qs) as Hflat.
  { intros pid. induction (filter _ qs) as [|c l IH]; [done|].
    unfold forest_ids in *. simpl. by rewrite IH. }
  unfold overflowing, CategoriesTreeView_get. rewrite Hforest.
  destruct (query_params request !! "parent_id") as [s|] eqn:Hs;
    [|by exists forest].
  destruct (String.eqb s ""); simpl; [by exists forest|].
  destruct (int_of_str s) as [pid|]; [|by exists forest].
  destruct (db_int pid); simpl; [|done].
  eexists. split; [done|]. rewrite Hflat. split; [|split; [|done]].
  - eapply sublist_NoDup; [exact Hnd|].
    apply fmap_sublist, sublist_filter.
  - intros x (c & -> & [_ Hc]%list_elem_of_filter)%list_elem_of_fmap.
    by apply list_elem_of_fmap_2.
Qed.

(** X1 at rows two of which name each other as parent. *)
Lemma categories_answer_witness :
  ∃ roots,
    CategoriesTreeView_get plain_request cyclic_categories
    = Done (mkResponse 200 roots) ∧
    NoDup (forest_ids roots) ∧
    (∀ x, x ∈ forest_ids roots → x ∈ cat_id <$> cyclic_categories) ∧
    (query_params plain_request !! "parent_id" = None → sorted_forest roots).
Proof.
  apply (categories_answer_for_distinct_ids plain_request cyclic_categories).
  - compute_done.
  - apply nesting_fits_length. apply Nat.leb_le. reflexivity.
  - apply nesting_fits_length. apply Nat.leb_le. reflexivity.
Defined.

(** X2: the full tree of rows with distinct, non-zero ids holds exactly
    the loaded rows that are neither on a cycle of parent links nor below
    one: such rows are left out without an error, and every other row is
    in the tree. *)
Theorem full_tree_leaves_out_cycles `{PyStack}
    (lang : string) (cats : list Category) (forest : list Tree) :
  NoDup (cat_id <$> cats) →
  0 ∉ cat_id <$> cats →
  full_tree lang cats = Some forest →
  ∀ x, x ∈ forest_ids forest ↔ x ∈ cat_id <$> cats ∧ ¬ below_cycle cats x.
Proof.
  intros Hnd Hzero Hforest x.
  rewrite (full_tree_members lang cats Hnd forest x Hforest). split.
  - intros [Hx Hlevel]. split; [done|]. by apply level_iff_no_cycle.
  - intros [Hx Hfree]. split; [done|]. by apply level_iff_no_cycle.
Qed.

(** X2 at rows two of which name each other as parent: the tree is the
    root with its one child. *)
Lemma full_tree_leaves_out_cycles_witness :
  full_tree "ru" cyclic_categories
  = Some [TNode (node_data "ru" sample_root)
            [TNode (node_data "ru" sample_child) []]] ∧
  ∀ x, x ∈ forest_ids [TNode (node_data "ru" sample_root)
                         [TNode (node_data "ru" sample_child) []]]
       ↔ x ∈ cat_id <$> cyclic_categories ∧ ¬ below_cycle cyclic_categories x.
Proof.
  split; [vm_compute; reflexivity|].
  apply (full_tree_leaves_out_cycles "ru" cyclic_categories).
  - compute_done.
  - compute_done.
  - vm_compute. reflexivity.
Defined.

(** ** The two modes of the categories endpoint *)

Section render_nodes.
Context (st : TreeState).

(** Every node of a rendered forest renders a node object, and its
    children render the [children] list of that object. *)
Lemma render_nodes (f : nat) (l : list Z) (forest : list Tree) (t : Tree) :
  render f st l = Some forest → t ∈ forest_nodes forest →
  ∃ i n f', ts_nodes st !! i = Some n ∧ tree_data t = node_fields n ∧
            render f' st (node_children n) = Some (tree_children t).
Proof.
  revert l forest. induction f as [|f IH]; intros l forest; [done|].
  intros Hr%render_S Ht.
  apply list_elem_of_In, in_flat_map in Ht as (t0 & Ht0 & Ht).
  apply list_elem_of_In in Ht0, Ht.
  induction Hr as [|i t1 l forest (n & ch & Hn & Hch & ->) _ IHr];
    [by apply elem_of_nil in Ht0|].
  apply elem_of_cons in Ht0 as [-> | Ht0]; [|by apply IHr].
  simpl in Ht. apply elem_of_cons in Ht as [-> | Ht].
  - by exists i, n, f.
  - by eapply IH.
Qed.

Lemma render_data (f : nat) (l : list Z) (forest : list Tree) :
  render f st l = Some forest →
  Forall2 (λ i t, node_fields <$> ts_nodes st !! i = Some (tree_data t)) l forest.
Proof.
  destruct f as [|f]; [done|]. intros Hr%render_S.
  eapply Forall2_impl; [exact Hr|].
  intros i t (n & ch & -> & _ & ->). done.
Qed.

End render_nodes.

(** X3: the two modes of the categories endpoint agree. For rows with
    distinct ids, the flat answer to a request for the children of the
    category [pid], an integer of the database as the id of every stored
    row is, lists the same nodes as the child list of the node [pid] in
    the full tree, up to their order (the flat list keeps the order of
    the query, the tree sorts by the localized name). *)
Theorem children_agree_with_tree `{PyRuntime} `{PyStack}
    (request : Request) (qs : list Category) (s : string) (pid : Z)
    (forest : list Tree) (t : Tree) :
  NoDup (cat_id <$> qs) →
  query_params request !! "parent_id" = Some s → s ≠ "" →
  int_of_str s = Some pid → db_int pid = true → pid ≠ 0 →
  full_tree (_lang_from_request request) qs = Some forest →
  t ∈ forest_nodes forest → n_id (tree_data t) = pid →
  ∃ data,
    CategoriesTreeView_get request qs = Done (mkResponse 200 data) ∧
    Forall (λ t', tree_children t' = []) data ∧
    tree_data <$> data ≡ₚ tree_data <$> tree_children t.
Proof.
  intros Hnd Hs Hne Hint Hdb Hpid Hforest Ht Hid.
  set (lang := _lang_from_request request) in *.
  destruct (full_tree_big lang qs Hnd forest Hforest)
    as (M & st & _ & Hrender & _ & Hkids & _ & Hnodes).
  unfold CategoriesTreeView_get. rewrite Hs, Hint, Hdb. fold lang.
  rewrite (proj2 (String.eqb_neq s "")) by done. simpl.
  eexists. split; [done|]. split.
  { apply Forall_forall. by intros t' (c & -> & _)%list_elem_of_fmap. }
  destruct (render_nodes st _ _ _ t Hrender Ht) as (i & n & f' & Hn & Hdata & Hch).
  destruct (Hnodes i n Hn) as (c0 & Hc0 & Hi & Hfields).
  assert (i = pid) as ->.
  { rewrite <- Hid, Hdata, Hfields. done. }
  set (h := λ j, default (tree_data t) (node_data lang <$> get_category qs j)).
  assert (tree_data <$> tree_children t = h <$> kids st pid) as ->.
  { rewrite (kids_lookup st pid n) by done.
    apply render_data in Hch.
    induction Hch as [|j t' l ch Hj _ IHch]; [done|].
    rewrite !fmap_cons, IHch. f_equal.
    destruct (ts_nodes st !! j) as [nd|] eqn:Hnd'; [|done].
    destruct (Hnodes j nd Hnd') as (c & Hc & <- & Hf).
    unfold h. rewrite (get_category_NoDup qs Hnd c Hc). simpl in *.
    congruence. }
  rewrite Hkids.
  assert (filter (λ x, up_of qs x = Some pid) (cat_id <$> qs)
          = cat_id <$> filter (λ c, cat_parent_id c = Some pid) qs) as ->.
  { symmetry. apply fmap_filter_rows. intros c Hc.
    rewrite up_of_row by done. unfold attach.
    destruct (cat_parent_id c) as [q|]; [|done].
    destruct (decide (q = pid)) as [-> | Hq].
    - rewrite (proj2 (Z.eqb_neq pid 0)) by done. simpl.
      rewrite bool_decide_eq_true_2; [done|].
      rewrite <- Hi. by apply list_elem_of_fmap_2.
    - split; [congruence|]. destruct (negb _ && _); congruence. }
  rewrite <- !list_fmap_compose.
  erewrite (list_fmap_ext _ (h ∘ cat_id)); [done|].
  intros k c Hk. simpl. unfold h.
  apply list_elem_of_lookup_2, list_elem_of_filter in Hk as [_ Hc].
  by rewrite (get_category_NoDup qs Hnd c Hc).
Qed.

(** X3 at the sample taxonomy: the children of the root. *)
Lemma children_agree_with_tree_witness :
  ∃ data,
    CategoriesTreeView_get children_request sample_categories
    = Done (mkResponse 200 data) ∧
    Forall (λ t', tree_children t' = []) data ∧
    tree_data <$> data
    ≡ₚ tree_data <$> tree_children
         (TNode (node_data "ru" sample_root)
                [TNode (node_data "ru" sample_other) [];
                 TNode (node_data "ru" sample_child) []]).
Proof.
  apply (children_agree_with_tree children_request sample_categories "1" 1
           [TNode (node_data "ru" sample_root)
                  [TNode (node_data "ru" sample_other) [];
                   TNode (node_data "ru" sample_child) []]]).
  - compute_done.
  - reflexivity.
  - discriminate.
  - reflexivity.
  - reflexivity.
  - lia.
  - vm_compute. reflexivity.
  - apply list_elem_of_here.
  - reflexivity.
Defined.

(** ** The locale of a request *)

(** X4: the locale resolved for a request is always [ru] or [uz]. An
    explicit [lang] parameter that is one of the two is the locale,
    whatever the [Accept-Language] header says; any other [lang] value
    counts as if the parameter were absent. *)
Theorem lang_is_ru_or_uz `{PyRuntime} (request : Request) :
  _lang_from_request request ∈ ["ru"; "uz"] ∧
  (∀ l, query_params request !! "lang" = Some l → l ∈ ["ru"; "uz"] →
        _lang_from_request request = l) ∧
  (∀ l, query_params request !! "lang" = Some l → l ∉ ["ru"; "uz"] →
        _lang_from_request request
        = _lang_from_request
            (mkRequest (delete "lang" (query_params request))
                       (accept_language request))).
Proof.
  unfold _lang_from_request. simpl. rewrite lookup_delete_eq.
  split; [|split].
  - destruct (query_params request !! "lang") as [l|].
    + case_bool_decide; [done|].
      destruct (String.prefix _ _); set_solver.
    + destruct (String.prefix _ _); set_solver.
  - intros l -> Hl. by rewrite bool_decide_eq_true_2.
  - intros l -> Hl. by rewrite bool_decide_eq_false_2.
Qed.

(** ** The locations endpoint *)

(** X5: what the locations endpoint answers is decided by [parent_id].
    Without it, or with an empty one, the answer has status 200 and lists
    exactly the locations without parent; with a [parent_id] that is an
    integer of the database, exactly the locations with that parent; in
    both cases sorted by name. A [parent_id] that is no integer gives
    status 200 and the empty list, neither the roots nor an error; an
    integer outside the range of the database raises [OverflowError],
    which the view does not catch. *)
Theorem locations_by_parent `{PyRuntime}
    (request : Request) (locations : list Location) :
  (query_params request !! "parent_id" = None ∨
   query_params request !! "parent_id" = Some "" →
   ∃ rows,
     LocationsView_get request locations = Done (mkResponse 200 rows) ∧
     Sorted (key_le String.ltb loc_name) rows ∧
     rows ≡ₚ filter (λ l, loc_parent_id l = None) locations) ∧
  (∀ s pid,
     query_params request !! "parent_id" = Some s → s ≠ "" →
     int_of_str s = Some pid →
     if db_int pid
     then ∃ rows,
            LocationsView_get request locations = Done (mkResponse 200 rows) ∧
            Sorted (key_le String.ltb loc_name) rows ∧
            rows ≡ₚ filter (λ l, loc_parent_id l = Some pid) locations
     else LocationsView_get request locations = Raised "OverflowError") ∧
  (∀ s,
     query_params request !! "parent_id" = Some s → s ≠ "" →
     int_of_str s = None →
     LocationsView_get request locations = Done (mkResponse 200 [])).
Proof.
  unfold LocationsView_get. split; [|split].
  - intros [-> | ->]; simpl;
      (eexists; split; [done|]; split;
       [apply sort_by_key_sorted, string_ltb_asym | apply sort_by_key_perm]).
  - intros s pid -> Hs ->. rewrite (proj2 (String.eqb_neq s "")) by done. simpl.
    destruct (db_int pid); [|done].
    eexists. split; [done|]. split.
    + apply sort_by_key_sorted, string_ltb_asym.
    + apply sort_by_key_perm.
  - intros s -> Hs ->. by rewrite (proj2 (String.eqb_neq s "")).
Qed.

(** ** Inheritance of the attribute schema *)

Lemma ancestor_ids_more_fuel (fuel : nat) (cats : list Category)
    (cur : option Category) (ids : list Z) :
  ancestor_ids fuel cats cur = Done ids →
  ancestor_ids (S fuel) cats cur = Done ids.
Proof.
  revert cur ids. induction fuel as [|fuel IH]; intros [c|] ids; try done.
  intros Hwalk. cbn [ancestor_ids] in Hwalk.
  change (ancestor_ids (S (S fuel)) cats (Some c))
    with (match (match cat_parent_id c with
                 | None => ancestor_ids (S fuel) cats None
                 | Some p =>
                     match get_category cats p with
                     | Some parent => ancestor_ids (S fuel) cats (Some parent)
                     | None => Raised "DoesNotExist"
                     end
                 end) with
          | Done ids => Done (cat_id c :: ids)
          | Raised e => Raised e
          | Diverged => Diverged
          end).
  destruct (cat_parent_id c) as [p|].
  - destruct (get_category cats p) as [parent|]; [|done].
    destruct (ancestor_ids fuel cats (Some parent)) as [ids'| |] eqn:Hrest; [|done..].
    by rewrite (IH _ _ Hrest).
  - destruct (ancestor_ids fuel cats None) as [ids'| |] eqn:Hrest; [|done..].
    by rewrite (IH _ _ Hrest).
Qed.

(** X6: the schema of a category is the schema of its parent together
    with the attributes declared at the category itself. Whenever the
    schema of a category with a parent is resolved, so is the schema of
    the parent, and an attribute is in the schema of the category exactly
    when it is in that of the parent or is declared at the category. *)
Theorem schema_extends_parent
    (cats : list Category) (attrs : list Attribute) (pk p : Z)
    (cat : Category) (schema : list Attribute) :
  get_category cats pk = Some cat →
  cat_parent_id cat = Some p →
  CategoryAttributesView_get cats attrs pk = Done (mkResponse 200 schema) →
  ∃ inherited,
    CategoryAttributesView_get cats attrs p = Done (mkResponse 200 inherited) ∧
    ∀ a, a ∈ schema ↔ a ∈ inherited ∨ (a ∈ attrs ∧ attr_category_id a = pk).
Proof.
  intros Hcat Hp Hview. unfold CategoryAttributesView_get in Hview.
  rewrite Hcat in Hview. cbn [ancestor_ids] in Hview. rewrite Hp in Hview.
  destruct (get_category cats p) as [parent|] eqn:Hparent; [|done].
  destruct (ancestor_ids (length cats) cats (Some parent)) as [ids| |] eqn:Hwalk;
    [|done..].
  injection Hview as <-.
  unfold CategoryAttributesView_get.
  rewrite Hparent, (ancestor_ids_more_fuel _ _ _ _ Hwalk).
  eexists. split; [done|]. intros a.
  apply get_category_Some in Hcat as [_ Hid].
  rewrite !attributes_in_perm, !list_elem_of_filter, elem_of_cons. 
  rewrite Hid. tauto.
Qed.

(** X6 at the child of the sample taxonomy. *)
Lemma schema_extends_parent_witness :
  ∃ inherited,
    CategoryAttributesView_get sample_categories sample_attributes 1
    = Done (mkResponse 200 inherited) ∧
    ∀ a, a ∈ [color_at_root; color_at_child]
         ↔ a ∈ inherited ∨ (a ∈ sample_attributes ∧ attr_category_id a = 2).
Proof.
  apply (schema_extends_parent sample_categories sample_attributes 2 1 sample_child);
    reflexivity.
Defined.

(** ** What the two listing writes leave in the store *)

Section write_facts.
Context `{PyRuntime} `{!ListingsApp}.

Lemma check_choice_Ok (field : string) (v : PyVal) (choices : list string) :
  check_choice field v choices = Ok () → ∃ s, v = PStr s ∧ s ∈ choices.
Proof.
  destruct v as [| | | |s| |]; simpl; try done.
  unfold require. case_bool_decide; [|done]. intros _. by exists s.
Qed.

Lemma check_choice_Halt (field : string) (v : PyVal) (choices : list string) r :
  check_choice field v choices = Halt r →
  status_of r = Some 400 ∨ r = Raised "TypeError".
Proof.
  destruct v as [| | | |s| |]; simpl; try (intros [= <-]; by auto).
  unfold require. case_bool_decide; [done|]. intros [= <-]. by left.
Qed.

(** The arguments [post] hands to [Listing.objects.create] have passed
    every check. *)
Lemma create_arguments_Ok (u : User) (data : gmap string PyVal) (st : Store)
    (arguments : gmap string PyVal) (attributes : PyVal) :
  create_arguments u data st = Ok (arguments, attributes) →
  ∃ c l x s1 s2 s3,
    truthy (data_get data "title") = true ∧
    category_exists st c = true ∧ location_exists st l = true ∧
    s1 ∈ Condition_choices ∧ s2 ∈ DealType_choices ∧ s3 ∈ SellerType_choices ∧
    arguments
    = list_to_map
        [("user_id", PInt (user_id u));
         ("title", data_get data "title");
         ("description", data_get_default data "description" (PStr ""));
         ("price_amount", PFloat x);
         ("price_currency", data_get_default data "price_currency" (PStr "UZS"));
         ("is_price_negotiable",
          PBool (to_bool (data_get_default data "is_price_negotiable" (PBool false))));
         ("condition", PStr s1);
         ("deal_type", PStr s2);
         ("seller_type", PStr s3);
         ("category_id", PInt c);
         ("location_id", PInt l);
         ("lat", to_float_or_none (data_get data "lat"));
         ("lon", to_float_or_none (data_get data "lon"))].
Proof.
  unfold create_arguments.
  destruct (truthy (data_get data "title")) eqn:Htitle; simpl; [|done].
  destruct (truthy (data_get data "category") && truthy (data_get data "location"));
    simpl; [|done].
  destruct (py_int (data_get data "category")) as [c|]; simpl; [|done].
  destruct (py_int (data_get data "location")) as [l|]; simpl; [|done].
  destruct (category_exists st c) eqn:Hc; simpl; [|done].
  destruct (location_exists st l) eqn:Hl; simpl; [|done].
  destruct (py_float _) as [x|]; simpl; [|done].
  destruct (check_choice "condition" _ _) as [[]|] eqn:H1; simpl; [|done].
  destruct (check_choice "deal_type" _ _) as [[]|] eqn:H2; simpl; [|done].
  destruct (check_choice "seller_type" _ _) as [[]|] eqn:H3; simpl; [|done].
  apply check_choice_Ok in H1 as (s1 & -> & Hs1).
  apply check_choice_Ok in H2 as (s2 & -> & Hs2).
  apply check_choice_Ok in H3 as (s3 & -> & Hs3).
  simpl. intros [= <- <-]. by exists c, l, x, s1, s2, s3.
Qed.

(** Every early return of [post] is a response of status 400, or the
    [TypeError] of an unhashable choice. *)
Lemma create_arguments_Halt (u : User) (data : gmap string PyVal) (st : Store) r :
  create_arguments u data st = Halt r →
  status_of r = Some 400 ∨ r = Raised "TypeError".
Proof.
  unfold create_arguments.
  destruct (truthy (data_get data "title") && truthy (data_get data "category")
            && truthy (data_get data "location")); simpl;
    [|intros [= <-]; by left].
  destruct (py_int (data_get data "category")) as [c|]; simpl;
    [|intros [= <-]; by left].
  destruct (py_int (data_get data "location")) as [l|]; simpl;
    [|intros [= <-]; by left].
  destruct (category_exists st c); simpl; [|intros [= <-]; by left].
  destruct (location_exists st l); simpl; [|intros [= <-]; by left].
  destruct (py_float _) as [x|]; simpl; [|intros [= <-]; by left].
  destruct (check_choice "condition" _ _) as [[]|r1] eqn:H1; simpl;
    [|intros [= <-]; by eapply check_choice_Halt].
  destruct (check_choice "deal_type" _ _) as [[]|r2] eqn:H2; simpl;
    [|intros [= <-]; by eapply check_choice_Halt].
  destruct (check_choice "seller_type" _ _) as [[]|r3] eqn:H3; simpl;
    [done|intros [= <-]; by eapply check_choice_Halt].
Qed.

Lemma save_attributes_then_Done pk listing attributes (st st' : Store) code resp :
  save_attributes_then pk listing attributes st (respond code pk listing)
  = (Done resp, st') →
  resp = mkResponse code (ListingOut pk listing (default [] (st_values st' !! pk))) ∧
  st_listings st' = st_listings st ∧
  st_categories st' = st_categories st ∧
  st_attributes st' = st_attributes st ∧
  st_locations st' = st_locations st.
Proof.
  unfold save_attributes_then.
  destruct (_save_attributes _ _ _ _ _ _) as [[[] | e |] values]; [|done..].
  unfold respond. by intros [= <- <-].
Qed.

Lemma save_attributes_then_frame pk listing attributes (st : Store) code :
  st_categories (save_attributes_then pk listing attributes st
                   (respond code pk listing)).2 = st_categories st ∧
  st_attributes (save_attributes_then pk listing attributes st
                   (respond code pk listing)).2 = st_attributes st ∧
  st_locations (save_attributes_then pk listing attributes st
                  (respond code pk listing)).2 = st_locations st.
Proof.
  unfold save_attributes_then.
  destruct (_save_attributes _ _ _ _ _ _) as [[[] | e |] values]; done.
Qed.

(** X7: the create handler writes nothing before its own checks have
    passed, and keeps what it wrote afterwards. Every early return of the
    handler, the status 400 of one of its checks or the [TypeError] of an
    unhashable enumeration value, leaves the store exactly as it was, so
    a response the handler itself returns with a status other than 201
    comes with an unchanged store. Once the checks have passed the new
    row is written, and it stays whatever follows: the handler returns
    nothing but status 201 then, and an exception of the attribute
    helper, which the framework may answer with an error status, leaves
    the handler after the write. In every case the taxonomy, the
    locations and every listing row that existed before the call are left
    as they were. *)
Theorem create_writes_after_its_checks
    (u : User) (data : gmap string PyVal) (st : Store) :
  (∀ r, create_arguments u data st = Halt r →
        ListingCreateRawView_post u data st = (r, st) ∧
        (status_of r = Some 400 ∨ r = Raised "TypeError")) ∧
  (∀ arguments attributes,
     create_arguments u data st = Ok (arguments, attributes) →
     st_listings (ListingCreateRawView_post u data st).2
       !! fresh_pk (st_listings st)
     = Some (<["contact_phone_masked" := PStr (contact_phone_of u)]>
               (arguments ∪ listing_defaults)) ∧
     st_listings st !! fresh_pk (st_listings st) = None ∧
     ∀ resp, (ListingCreateRawView_post u data st).1 = Done resp →
             status resp = 201) ∧
  (∀ resp, (ListingCreateRawView_post u data st).1 = Done resp →
           status resp ≠ 201 →
           (ListingCreateRawView_post u data st).2 = st) ∧
  (∀ k row, st_listings st !! k = Some row →
            st_listings (ListingCreateRawView_post u data st).2 !! k = Some row) ∧
  st_categories (ListingCreateRawView_post u data st).2 = st_categories st ∧
  st_attributes (ListingCreateRawView_post u data st).2 = st_attributes st ∧
  st_locations (ListingCreateRawView_post u data st).2 = st_locations st.
Proof.
  unfold ListingCreateRawView_post.
  destruct (create_arguments u data st) as [[arguments attributes]|r] eqn:Hargs.
  2: { split; [|done]. intros r' [= <-]. split; [done|].
       by eapply create_arguments_Halt. }
  set (pk := fresh_pk (st_listings st)).
  set (listing := <["contact_phone_masked" := _]> (arguments ∪ listing_defaults)).
  set (st1 := set_listings _ (set_listings _ st)).
  assert (st_listings st1 !! pk = Some listing) as Hnew.
  { simpl. by rewrite lookup_alter_eq, lookup_insert_eq. }
  assert (∀ k row, st_listings st !! k = Some row →
                   st_listings st1 !! k = Some row) as Hold.
  { intros k row Hk. simpl.
    assert (k ≠ pk) as Hne.
    { intros ->. unfold pk in Hk. by rewrite fresh_pk_fresh in Hk. }
    by rewrite lookup_alter_ne, lookup_insert_ne. }
  assert (∀ l, (∀ resp,
            (save_attributes_then pk listing l st1 (respond 201 pk listing)).1
            = Done resp → status resp = 201)) as Hsave.
  { intros l resp Hresp.
    destruct (save_attributes_then pk listing l st1 (respond 201 pk listing))
      as [r st'] eqn:Hrun.
    simpl in Hresp. subst r.
    by apply save_attributes_then_Done in Hrun as [-> _]. }
  split; [done|].
  destruct attributes as [| | | | |[|a l]|];
    try (split;
         [intros ? ? [= <- <-]; split; [done|]; split;
          [apply fresh_pk_fresh | by intros resp [= <-]]
         |split; [by intros resp [= <-] | by split]]).
  split; [|split; [|split]].
  - intros ? ? [= <- <-]. rewrite save_attributes_then_listings.
    split; [done|]. split; [apply fresh_pk_fresh | apply Hsave].
  - intros resp Hresp%Hsave. done.
  - intros k row Hk. rewrite save_attributes_then_listings. by apply Hold.
  - exact (save_attributes_then_frame pk listing (a :: l) st1 201).
Qed.

(** X8: the listing a create request of status 201 has written is owned
    by the requesting user, whatever the payload says, refers to an
    existing category and an existing location, has a float as price, a
    boolean as negotiable flag and a member of each enumeration as
    condition, deal type and seller type, and a non-empty title; its key
    was not in use before, and it is the listing of the response. *)
Theorem created_listing_is_checked
    (u : User) (data : gmap string PyVal) (st st' : Store)
    (resp : Response Body) :
  ListingCreateRawView_post u data st = (Done resp, st') →
  status resp = 201 →
  ∃ row c l x b s1 s2 s3,
    st_listings st !! fresh_pk (st_listings st) = None ∧
    st_listings st' !! fresh_pk (st_listings st) = Some row ∧
    body resp = ListingOut (fresh_pk (st_listings st)) row
                  (default [] (st_values st' !! fresh_pk (st_listings st))) ∧
    row !! "user_id" = Some (PInt (user_id u)) ∧
    row !! "contact_phone_masked" = Some (PStr (contact_phone_of u)) ∧
    row !! "title" = Some (data_get data "title") ∧
    truthy (data_get data "title") = true ∧
    row !! "category_id" = Some (PInt c) ∧ category_exists st c = true ∧
    row !! "location_id" = Some (PInt l) ∧ location_exists st l = true ∧
    row !! "price_amount" = Some (PFloat x) ∧
    row !! "is_price_negotiable" = Some (PBool b) ∧
    row !! "condition" = Some (PStr s1) ∧ s1 ∈ Condition_choices ∧
    row !! "deal_type" = Some (PStr s2) ∧ s2 ∈ DealType_choices ∧
    row !! "seller_type" = Some (PStr s3) ∧ s3 ∈ SellerType_choices.
Proof.
  unfold ListingCreateRawView_post.
  destruct (create_arguments u data st) as [[arguments attributes]|r] eqn:Hargs.
  - intros Hrun _.
    apply create_arguments_Ok in Hargs
      as (c & l & x & s1 & s2 & s3 & Ht & Hc & Hl & Hs1 & Hs2 & Hs3 & ->).
    set (pk := fresh_pk (st_listings st)) in *.
    set (row := <["contact_phone_masked" := PStr (contact_phone_of u)]> (_ ∪ _)) in *.
    exists row, c, l, x, (to_bool (data_get_default data "is_price_negotiable" (PBool false))),
      s1, s2, s3.
    assert (resp = mkResponse 201 (ListingOut pk row (default [] (st_values st' !! pk)))
            ∧ st_listings st' !! pk = Some row) as [-> Hnew].
    { set (st1 := set_listings _ (set_listings _ st)) in Hrun.
      assert (st_listings st1 !! pk = Some row) as Hst1.
      { simpl. by rewrite lookup_alter_eq, lookup_insert_eq. }
      destruct attributes as [| | | | |[|a l']|];
        try (unfold respond in Hrun; by injection Hrun as <- <-).
      apply save_attributes_then_Done in Hrun as (-> & -> & _). done. }
    split; [apply fresh_pk_fresh|]. split; [done|]. split; [done|].
    unfold row.
    repeat split; try done; try apply lookup_insert_eq;
      rewrite lookup_insert_ne by discriminate;
      apply lookup_union_Some_l; simpl;
      repeat (rewrite lookup_insert_ne by discriminate);
      apply lookup_insert_eq.
  - intros [= -> <-] Hstatus.
    apply create_arguments_Halt in Hargs as [Hr | Hr]; [|done].
    simpl in Hr. injection Hr as Hr. lia.
Qed.

Lemma assign_if_present_Halt (data l : gmap string PyVal) (k col : string)
    (f : PyVal → Result (Run (Response Body)) PyVal) r :
  (∀ v, f v = Halt r → status_of r = Some 400 ∨ r = Raised "TypeError") →
  assign_if_present data k col f l = Halt r →
  status_of r = Some 400 ∨ r = Raised "TypeError".
Proof.
  intros Hf. unfold assign_if_present.
  destruct (data !! k) as [v|]; [|done].
  destruct (f v) as [v'|r'] eqn:Hv; simpl; [done|].
  intros [= <-]. by eapply Hf.
Qed.

Lemma bind_Halt {E A B} (m : Result E A) (f : A → Result E B) (e : E) :
  m ≫= f = Halt e → m = Halt e ∨ ∃ a, m = Ok a ∧ f a = Halt e.
Proof. destruct m as [a | e']; simpl; [eauto | intros [= ->]; by left]. Qed.

(** Every early return of [patch] after the lookup of the listing is a
    response of status 400, or the [TypeError] of an unhashable choice. *)
Lemma patch_fields_Halt (data : gmap string PyVal) (st : Store)
    (l : gmap string PyVal) r :
  patch_fields data st l = Halt r →
  status_of r = Some 400 ∨ r = Raised "TypeError".
Proof.
  assert (∀ field choices v,
    checked_choice field choices v = Halt r →
    status_of r = Some 400 ∨ r = Raised "TypeError") as Hchoice.
  { intros field choices v. unfold checked_choice.
    intros [Hc | ([] & _ & [=])]%bind_Halt. by eapply check_choice_Halt. }
  unfold patch_fields. intros Hp.
  apply bind_Halt in Hp as [Hp | ([] & _ & Hp)].
  { unfold require in Hp. destruct (negb _); [done|]. injection Hp as <-. by left. }
  apply bind_Halt in Hp as [Hp | (cid & _ & Hp)].
  { destruct (is_none (data_get data "category")); [done|].
    apply bind_Halt in Hp as [Hp | (c & _ & Hp)].
    - unfold expect in Hp. destruct (py_int _); [done|]. injection Hp as <-. by left.
    - apply bind_Halt in Hp as [Hp | ([] & _ & [=])].
      unfold require in Hp. destruct (category_exists st c); [done|].
      injection Hp as <-. by left. }
  apply bind_Halt in Hp as [Hp | (lid & _ & Hp)].
  { destruct (is_none (data_get data "location")); [done|].
    apply bind_Halt in Hp as [Hp | (c & _ & Hp)].
    - unfold expect in Hp. destruct (py_int _); [done|]. injection Hp as <-. by left.
    - apply bind_Halt in Hp as [Hp | ([] & _ & [=])].
      unfold require in Hp. destruct (location_exists st c); [done|].
      injection Hp as <-. by left. }
  apply bind_Halt in Hp as [Hp | (l1 & _ & Hp)].
  { by apply assign_if_present_Halt in Hp. }
  apply bind_Halt in Hp as [Hp | (l2 & _ & Hp)].
  { apply assign_if_present_Halt in Hp; [done|].
    intros v [Hv | (x & _ & [=])]%bind_Halt.
    unfold expect in Hv. destruct (py_float v); [done|]. injection Hv as <-. by left. }
  apply bind_Halt in Hp as [Hp | (l3 & _ & Hp)].
  { by apply assign_if_present_Halt in Hp. }
  apply bind_Halt in Hp as [Hp | (l4 & _ & Hp)].
  { by apply assign_if_present_Halt in Hp. }
  apply bind_Halt in Hp as [Hp | (l5 & _ & Hp)].
  { apply assign_if_present_Halt in Hp; [done|]. apply Hchoice. }
  apply bind_Halt in Hp as [Hp | (l6 & _ & Hp)].
  { apply assign_if_present_Halt in Hp; [done|]. apply Hchoice. }
  apply bind_Halt in Hp as [Hp | (l7 & _ & Hp)].
  { apply assign_if_present_Halt in Hp; [done|]. apply Hchoice. }
  apply bind_Halt in Hp as [Hp | (l8 & _ & Hp)].
  { by apply assign_if_present_Halt in Hp. }
  apply bind_Halt in Hp as [Hp | (l9 & _ & Hp)].
  { by apply assign_if_present_Halt in Hp. }
  done.
Qed.

(** X9: the update handler writes nothing before its own checks have
    passed, and keeps what it wrote afterwards. A response the handler
    itself returns with a status other than 200 has status 404 (the
    listing is missing or is not the user's own) or 400 (one of its
    checks failed) and comes with an unchanged store: the fields assigned
    to the instance before a failing check are not saved. Once the checks
    have passed the row is saved, before the attribute helper runs: the
    handler returns nothing but status 200 then, and an exception of the
    helper, which the framework may answer with an error status, leaves
    the handler with the new row in the store. *)
Theorem update_writes_after_its_checks
    (u : User) (pk : Z) (data : gmap string PyVal) (st : Store) :
  (∀ resp, (ListingUpdateRawView_patch u pk data st).1 = Done resp →
           status resp ≠ 200 →
           (status resp = 404 ∨ status resp = 400) ∧
           (ListingUpdateRawView_patch u pk data st).2 = st) ∧
  (∀ listing r,
     get_own_listing st pk u = Some listing →
     patch_fields data st listing = Halt r →
     ListingUpdateRawView_patch u pk data st = (r, st) ∧
     (status_of r = Some 400 ∨ r = Raised "TypeError")) ∧
  (∀ listing listing',
     get_own_listing st pk u = Some listing →
     patch_fields data st listing = Ok listing' →
     st_listings (ListingUpdateRawView_patch u pk data st).2 !! pk = Some listing' ∧
     ∀ resp, (ListingUpdateRawView_patch u pk data st).1 = Done resp →
             status resp = 200).
Proof.
  unfold ListingUpdateRawView_patch.
  destruct (get_own_listing st pk u) as [listing|].
  2: { split; [|done]. intros resp [= <-] _. split; [by left | reflexivity]. }
  destruct (patch_fields data st listing) as [listing'|r] eqn:Hfields.
  2: { pose proof (patch_fields_Halt _ _ _ _ Hfields) as Hr.
       split; [|split].
       - intros resp Hresp Hne. simpl in Hresp. subst r. split; [|done]. right.
         destruct Hr as [[= Hr] | [=]]. done.
       - intros l0 r0 [= <-] Hh. rewrite Hfields in Hh. injection Hh as <-. done.
       - intros l0 l1 [= <-] Hh. rewrite Hfields in Hh. discriminate. }
  set (st1 := set_listings (<[pk := listing']> (st_listings st)) st).
  assert (st_listings st1 !! pk = Some listing') as Hnew.
  { simpl. apply lookup_insert_eq. }
  assert (∀ l resp,
    (save_attributes_then pk listing' l st1 (respond 200 pk listing')).1 = Done resp →
    status resp = 200) as Hsave.
  { intros l resp Hresp.
    destruct (save_attributes_then pk listing' l st1 (respond 200 pk listing'))
      as [r st'] eqn:Hrun.
    simpl in Hresp. subst r.
    by apply save_attributes_then_Done in Hrun as [-> _]. }
  assert (∀ l0 r0, Some listing = Some l0 → patch_fields data st l0 = Halt r0 → False)
    as Hnot.
  { intros l0 r0 [= <-] Hh. rewrite Hfields in Hh. discriminate. }
  destruct (data_get data "attributes") as [| | | | |l|].
  6: { split; [|split].
       - intros resp Hresp%Hsave Hne. done.
       - intros l0 r0 Hl0 Hh. destruct (Hnot l0 r0 Hl0 Hh).
       - intros l0 l1 [= <-] Hh. rewrite Hfields in Hh. injection Hh as <-.
         rewrite save_attributes_then_listings. split; [done | apply Hsave]. }
  all: split; [by intros resp [= <-] []|]; split;
    [intros l0 r0 Hl0 Hh; destruct (Hnot l0 r0 Hl0 Hh)|];
    intros l0 l1 [= <-] Hh; rewrite Hfields in Hh; injection Hh as <-;
    (split; [done | by intros resp [= <-]]).
Qed.

End write_facts.

(** X8 at a create request that names the user 99 as owner: the listing
    belongs to the requesting user 7. *)
Lemma created_listing_is_checked_witness :
  ∃ row c l x b s1 s2 s3,
    st_listings sample_store !! fresh_pk (st_listings sample_store) = None ∧
    st_listings
      (ListingCreateRawView_post sample_user create_for_someone_else sample_store).2
      !! fresh_pk (st_listings sample_store) = Some row ∧
    body (mkResponse 201
            (ListingOut 2
               (<["contact_phone_masked" := PStr "+998901234567"]>
                  (sample_arguments ∪ listing_defaults)) []))
    = ListingOut (fresh_pk (st_listings sample_store)) row
        (default []
           (st_values
              (ListingCreateRawView_post sample_user create_for_someone_else
                                         sample_store).2
            !! fresh_pk (st_listings sample_store))) ∧
    row !! "user_id" = Some (PInt (user_id sample_user)) ∧
    row !! "contact_phone_masked" = Some (PStr (contact_phone_of sample_user)) ∧
    row !! "title" = Some (data_get create_for_someone_else "title") ∧
    truthy (data_get create_for_someone_else "title") = true ∧
    row !! "category_id" = Some (PInt c) ∧ category_exists sample_store c = true ∧
    row !! "location_id" = Some (PInt l) ∧ location_exists sample_store l = true ∧
    row !! "price_amount" = Some (PFloat x) ∧
    row !! "is_price_negotiable" = Some (PBool b) ∧
    row !! "condition" = Some (PStr s1) ∧ s1 ∈ Condition_choices ∧
    row !! "deal_type" = Some (PStr s2) ∧ s2 ∈ DealType_choices ∧
    row !! "seller_type" = Some (PStr s3) ∧ s3 ∈ SellerType_choices.
Proof.
  apply (created_listing_is_checked sample_user create_for_someone_else sample_store);
    reflexivity.
Defined.

(** An update whose condition is refused after its price was read
    leaves the stored price as it was. *)
Example update_with_bad_condition_example :
  ListingUpdateRawView_patch sample_user 1 update_with_bad_condition sample_store
  = (Done (mkResponse 400 (Errors "condition" (InvalidAllowed ["new"; "used"]))),
     sample_store).
Proof. reflexivity. Qed.

(** An update whose attribute list is refused by the helper has saved
    its title all the same. *)
Example update_saved_before_attributes_example :
  (ListingUpdateRawView_patch sample_user 1 update_with_unknown_attribute
                              sample_store).1
  = Raised "ValidationError" ∧
  column (ListingUpdateRawView_patch sample_user 1 update_with_unknown_attribute
                                     sample_store).2 1 "title"
  = Some (PStr "New") ∧
  column sample_store 1 "title" = Some (PStr "Bike").
Proof. repeat split. Qed.

(** ** Ownership *)

Section owner_facts.
Context `{PyRuntime} `{!ListingsApp} `{!ListingStatus} `{!PyFloatEq}.

Lemma get_own_listing_None (st : Store) (pk : Z) (u : User) :
  owner_column st pk ≠ Some (PInt (user_id u)) → get_own_listing st pk u = None.
Proof.
  unfold owner_column, get_own_listing.
  destruct (st_listings st !! pk) as [row|]; simpl; [|done].
  destruct (row !! "user_id") as [[| |owner| | | |]|]; try done.
  destruct (owner =? user_id u) eqn:Howner; [|done].
  apply Z.eqb_eq in Howner as ->. done.
Qed.

Lemma get_own_listing_owner (st : Store) (pk : Z) (u : User) (row : gmap string PyVal) :
  st_listings st !! pk = Some row → row !! "user_id" = Some (PInt (user_id u)) →
  get_own_listing st pk u = Some row.
Proof.
  intros Hrow Hu. unfold get_own_listing. rewrite Hrow. simpl. rewrite Hu.
  by rewrite Z.eqb_refl.
Qed.

(** X10: a user who addresses a listing that does not exist, or whose
    [user_id] is not the user's own, gets the answer 404 from the update,
    the refresh, the deactivation, the activation, the deletion of a
    media row and the reordering of the media, and none of them writes
    anything. *)
Theorem only_the_owner_writes (u : User) (pk : Z) (st : Store) :
  owner_column st pk ≠ Some (PInt (user_id u)) →
  (∀ data, ListingUpdateRawView_patch u pk data st
           = (Done (mkResponse 404 (Errors "detail" (Text "Not found"))), st)) ∧
  (∀ now, ListingRefreshView_post u pk now st = (Done not_found, st)) ∧
  ListingDeactivateView_post u pk st = (Done not_found, st) ∧
  (∀ now, ListingActivateView_post u pk now st = (Done not_found, st)) ∧
  (∀ media_id tbl,
     ListingMediaDeleteView_delete u pk media_id st tbl
     = (Done (mkResponse 404 (Detail "Not found")), tbl)) ∧
  (∀ data tbl,
     ListingMediaReorderView_post u pk data st tbl
     = (Done (mkResponse 404 (Detail "Not found")), tbl)).
Proof.
  intros Hown%get_own_listing_None.
  unfold ListingUpdateRawView_patch, ListingRefreshView_post,
    ListingDeactivateView_post, ListingActivateView_post,
    ListingMediaDeleteView_delete, ListingMediaReorderView_post.
  by rewrite Hown.
Qed.

End owner_facts.

(** X10 at the user 8 and the listing of the user 7. *)
Lemma only_the_owner_writes_witness :
  (∀ data, ListingUpdateRawView_patch other_user 1 data sample_store
           = (Done (mkResponse 404 (Errors "detail" (Text "Not found"))),
              sample_store)) ∧
  (∀ now, ListingRefreshView_post other_user 1 now sample_store
          = (Done not_found, sample_store)) ∧
  ListingDeactivateView_post other_user 1 sample_store
  = (Done not_found, sample_store) ∧
  (∀ now, ListingActivateView_post other_user 1 now sample_store
          = (Done not_found, sample_store)) ∧
  (∀ media_id tbl,
     ListingMediaDeleteView_delete other_user 1 media_id sample_store tbl
     = (Done (mkResponse 404 (Detail "Not found")), tbl)) ∧
  (∀ data tbl,
     ListingMediaReorderView_post other_user 1 data sample_store tbl
     = (Done (mkResponse 404 (Detail "Not found")), tbl)).
Proof.
  apply (only_the_owner_writes other_user 1 sample_store).
  change (Some (PInt 7) ≠ Some (PInt (user_id other_user))).
  discriminate.
Defined.

(** ** The state of a listing *)

Section state_facts.
Context `{PyRuntime} `{!ListingStatus}.

Lemma save_update_fields_other (pk k : Z) (columns : list (string * PyVal))
    (st : Store) :
  k ≠ pk →
  st_listings (save_update_fields pk columns st) !! k = st_listings st !! k.
Proof. intros Hk. simpl. by rewrite lookup_alter_ne. Qed.

Lemma foldl_insert_other (columns : list (string * PyVal))
    (row : gmap string PyVal) (col : string) :
  col ∉ columns.*1 →
  foldl (λ r kv, <[kv.1 := kv.2]> r) row columns !! col = row !! col.
Proof.
  revert row. induction columns as [|[c v] columns IH]; intros row Hcol; [done|].
  rewrite fmap_cons in Hcol. apply not_elem_of_cons in Hcol as [Hne Hcol].
  simpl. rewrite IH by done. by apply lookup_insert_ne.
Qed.

Lemma save_update_fields_column (pk k : Z) (columns : list (string * PyVal))
    (st : Store) (col : string) :
  col ∉ columns.*1 →
  column (save_update_fields pk columns st) k col = column st k col.
Proof.
  intros Hcol. unfold column. simpl.
  destruct (decide (k = pk)) as [-> | Hk]; [|by rewrite lookup_alter_ne].
  rewrite lookup_alter_eq. destruct (st_listings st !! pk) as [row|]; [|done].
  simpl. by apply foldl_insert_other.
Qed.

Lemma save_update_fields_dom (pk k : Z) (columns : list (string * PyVal))
    (st : Store) :
  is_Some (st_listings (save_update_fields pk columns st) !! k)
  ↔ is_Some (st_listings st !! k).
Proof.
  simpl. destruct (decide (k = pk)) as [-> | Hk]; [|by rewrite lookup_alter_ne].
  rewrite lookup_alter_eq. by rewrite fmap_is_Some.
Qed.

(** X11: the refresh, the deactivation and the activation of a listing
    never create or remove a listing, never touch another listing, the
    taxonomy, the locations or the attribute values, and in the listing
    they address they write at most [refreshed_at] (refresh), [status]
    (deactivation), or both (activation): every other column, the owner
    among them, keeps its value. *)
Theorem state_views_write_two_columns
    (u : User) (pk : Z) (now : PyVal) (st : Store) :
  (∀ k col, col ≠ "refreshed_at" →
            column (ListingRefreshView_post u pk now st).2 k col = column st k col) ∧
  (∀ k col, col ≠ "status" →
            column (ListingDeactivateView_post u pk st).2 k col = column st k col) ∧
  (∀ k col, col ≠ "status" → col ≠ "refreshed_at" →
            column (ListingActivateView_post u pk now st).2 k col = column st k col) ∧
  Forall (λ st', (∀ k, k ≠ pk → st_listings st' !! k = st_listings st !! k) ∧
                 (∀ k, is_Some (st_listings st' !! k) ↔ is_Some (st_listings st !! k)) ∧
                 st_categories st' = st_categories st ∧
                 st_attributes st' = st_attributes st ∧
                 st_locations st' = st_locations st ∧
                 st_values st' = st_values st)
         [(ListingRefreshView_post u pk now st).2;
          (ListingDeactivateView_post u pk st).2;
          (ListingActivateView_post u pk now st).2].
Proof.
  assert (∀ columns,
    (∀ k, k ≠ pk → st_listings (save_update_fields pk columns st) !! k
                   = st_listings st !! k) ∧
    (∀ k, is_Some (st_listings (save_update_fields pk columns st) !! k)
          ↔ is_Some (st_listings st !! k)) ∧
    st_categories (save_update_fields pk columns st) = st_categories st ∧
    st_attributes (save_update_fields pk columns st) = st_attributes st ∧
    st_locations (save_update_fields pk columns st) = st_locations st ∧
    st_values (save_update_fields pk columns st) = st_values st) as Hsave.
  { intros columns. split; [|split; [|done]].
    - intros k Hk. by apply save_update_fields_other.
    - intros k. apply save_update_fields_dom. }
  unfold ListingRefreshView_post, ListingDeactivateView_post,
    ListingActivateView_post.
  destruct (get_own_listing st pk u) as [listing|]; simpl;
    [|by repeat split; repeat constructor].
  split; [|split; [|split]].
  - intros k col Hcol. apply save_update_fields_column. simpl.
    by intros ->%list_elem_of_singleton.
  - intros k col Hcol. apply save_update_fields_column. simpl.
    by intros ->%list_elem_of_singleton.
  - intros k col Hcol Hcol'. destruct (negb (status_among _ _)); simpl; [done|].
    apply save_update_fields_column. simpl.
    by intros [-> | ->%list_elem_of_singleton]%elem_of_cons.
  - apply Forall_cons. split; [apply Hsave|].
    apply Forall_cons. split; [apply Hsave|].
    apply Forall_cons. split; [|constructor].
    destruct (negb (status_among _ _)); simpl; [by repeat split|].
    exact (Hsave [("status", PStr Status_ACTIVE); ("refreshed_at", now)]).
Qed.

(** X12: deactivating a listing and activating it again gives an active
    listing. For the owner of a listing both calls answer with status
    200, the first leaves the listing paused, and after the second the
    stored row is the row from before the two calls with [status] set to
    the active state and [refreshed_at] set to the time of the
    activation; nothing else in the store has changed. *)
Theorem deactivate_then_activate
    (u : User) (pk : Z) (now : PyVal) (st : Store) (row : gmap string PyVal) :
  st_listings st !! pk = Some row →
  row !! "user_id" = Some (PInt (user_id u)) →
  status_of (ListingDeactivateView_post u pk st).1 = Some 200 ∧
  column (ListingDeactivateView_post u pk st).2 pk "status"
  = Some (PStr Status_PAUSED) ∧
  ListingActivateView_post u pk now (ListingDeactivateView_post u pk st).2
  = (Done (mkResponse 200 (PDict [("status", PStr "activated");
                                  ("new_status", PStr Status_ACTIVE)])),
     set_listings
       (<[pk := <["refreshed_at" := now]> (<["status" := PStr Status_ACTIVE]> row)]>
          (st_listings st))
       st).
Proof.
  intros Hrow Hu.
  unfold ListingDeactivateView_post.
  rewrite (get_own_listing_owner st pk u row Hrow Hu). simpl.
  split; [done|]. unfold column. simpl.
  rewrite lookup_alter_eq, Hrow. simpl. rewrite lookup_insert_eq.
  split; [done|].
  unfold ListingActivateView_post.
  erewrite get_own_listing_owner; cycle 1.
  { simpl. by rewrite lookup_alter_eq, Hrow. }
  { simpl. by rewrite lookup_insert_ne. }
  rewrite lookup_insert_eq. simpl.
  rewrite bool_decide_eq_true_2 by apply list_elem_of_here. simpl.
  unfold save_update_fields, set_listings. simpl. f_equal. f_equal.
  rewrite (alter_alt_Some _ _ _ _ Hrow), alter_insert_eq.
  by rewrite insert_insert_eq.
Qed.

(** X13: a listing cannot be activated twice in a row. When the active
    state is neither the paused nor the closed one, an activation by the
    owner that was answered with status 200 is followed by an activation
    that is answered with status 400 and writes nothing: [refreshed_at]
    stays at the time of the first activation. *)
Theorem activate_twice_is_refused
    (u : User) (pk : Z) (now now' : PyVal) (st : Store) (row : gmap string PyVal) :
  Status_ACTIVE ∉ [Status_PAUSED; Status_CLOSED] →
  st_listings st !! pk = Some row →
  row !! "user_id" = Some (PInt (user_id u)) →
  status_of (ListingActivateView_post u pk now st).1 = Some 200 →
  ListingActivateView_post u pk now' (ListingActivateView_post u pk now st).2
  = (Done activation_refused, (ListingActivateView_post u pk now st).2) ∧
  column (ListingActivateView_post u pk now st).2 pk "refreshed_at" = Some now.
Proof.
  intros Hactive Hrow Hu Hfirst.
  assert ((ListingActivateView_post u pk now st).2
          = save_update_fields pk [("status", PStr Status_ACTIVE);
                                   ("refreshed_at", now)] st) as ->.
  { revert Hfirst. unfold ListingActivateView_post.
    rewrite (get_own_listing_owner st pk u row Hrow Hu).
    destruct (negb (status_among _ _)); simpl; [intros [=]; lia | done]. }
  split.
  - unfold ListingActivateView_post.
    erewrite get_own_listing_owner; cycle 1.
    { simpl. by rewrite lookup_alter_eq, Hrow. }
    { simpl. by rewrite !lookup_insert_ne. }
    rewrite lookup_insert_ne by done. rewrite lookup_insert_eq. simpl.
    by rewrite bool_decide_eq_false_2.
  - unfold column. simpl. rewrite lookup_alter_eq, Hrow. simpl.
    apply lookup_insert_eq.
Qed.

End state_facts.

(** X12 at the active sample listing and its owner. *)
Lemma deactivate_then_activate_witness :
  status_of (ListingDeactivateView_post sample_user 1 active_store).1 = Some 200 ∧
  column (ListingDeactivateView_post sample_user 1 active_store).2 1 "status"
  = Some (PStr Status_PAUSED) ∧
  ListingActivateView_post sample_user 1 sample_now
    (ListingDeactivateView_post sample_user 1 active_store).2
  = (Done (mkResponse 200 (PDict [("status", PStr "activated");
                                  ("new_status", PStr Status_ACTIVE)])),
     set_listings
       (<[1 := <["refreshed_at" := sample_now]>
                 (<["status" := PStr Status_ACTIVE]> active_listing)]>
          (st_listings active_store))
       active_store).
Proof.
  apply (deactivate_then_activate sample_user 1 sample_now active_store active_listing);
    reflexivity.
Defined.

(** X13 at the paused sample listing and its owner. *)
Lemma activate_twice_is_refused_witness :
  ListingActivateView_post sample_user 1 sample_later
    (ListingActivateView_post sample_user 1 sample_now paused_store).2
  = (Done activation_refused,
     (ListingActivateView_post sample_user 1 sample_now paused_store).2) ∧
  column (ListingActivateView_post sample_user 1 sample_now paused_store).2
         1 "refreshed_at"
  = Some sample_now.
Proof.
  apply (activate_twice_is_refused sample_user 1 sample_now sample_later
           paused_store paused_listing).
  - compute_done.
  - reflexivity.
  - reflexivity.
  - reflexivity.
Defined.

(** ** The media of a listing *)

Lemma order_id_le_iff (a b : Z * Z) :
  order_id_ltb b a = false ↔ a.1 < b.1 ∨ (a.1 = b.1 ∧ a.2 ≤ b.2).
Proof.
  unfold order_id_ltb.
  destruct (Z.ltb_spec b.1 a.1), (Z.eqb_spec b.1 a.1), (Z.ltb_spec b.2 a.2);
    simpl; split; intros; try done; lia.
Qed.

Lemma order_id_ltb_asym (a b : Z * Z) :
  order_id_ltb a b = true → order_id_ltb b a = false.
Proof.
  intros Hab. apply order_id_le_iff.
  destruct (order_id_ltb b a) eqn:Hba; [|by apply order_id_le_iff].
  revert Hab Hba. unfold order_id_ltb.
  destruct (Z.ltb_spec a.1 b.1), (Z.eqb_spec a.1 b.1), (Z.ltb_spec a.2 b.2),
    (Z.ltb_spec b.1 a.1), (Z.eqb_spec b.1 a.1), (Z.ltb_spec b.2 a.2);
    simpl; intros; try done; lia.
Qed.

Lemma media_le_trans : Transitive media_le.
Proof.
  intros a b c. unfold media_le, key_le. rewrite !order_id_le_iff. simpl. lia.
Qed.

Section media_facts.
Context `{PyRuntime} `{!PyFloatEq}.

Lemma media_of_elem (pk k : Z) (m : ListingMedia) (tbl : gmap Z ListingMedia) :
  (k, m) ∈ media_of pk tbl ↔ tbl !! k = Some m ∧ media_listing_id m = pk.
Proof.
  unfold media_of. rewrite list_elem_of_filter, elem_of_map_to_list. simpl. tauto.
Qed.

Lemma media_of_ids (pk k : Z) (tbl : gmap Z ListingMedia) :
  k ∈ (media_of pk tbl).*1 ↔ ∃ m, tbl !! k = Some m ∧ media_listing_id m = pk.
Proof.
  rewrite list_elem_of_fmap. split.
  - intros ([k' m] & -> & Hm%media_of_elem). by exists m.
  - intros (m & Hm). exists (k, m). split; [done|]. by apply media_of_elem.
Qed.

Lemma media_of_NoDup (pk : Z) (tbl : gmap Z ListingMedia) : NoDup (media_of pk tbl).
Proof. apply NoDup_filter, NoDup_map_to_list. Qed.

Lemma update_order_ne (pk n order k : Z) (tbl : gmap Z ListingMedia) :
  k ≠ n → update_order pk n order tbl !! k = tbl !! k.
Proof.
  intros Hk. unfold update_order.
  destruct (tbl !! n) as [m|]; [|done]. case_bool_decide; [|done].
  by apply lookup_insert_ne.
Qed.

Lemma update_order_eq (pk n order : Z) (tbl : gmap Z ListingMedia) (m : ListingMedia) :
  tbl !! n = Some m → media_listing_id m = pk →
  update_order pk n order tbl !! n
  = Some (mkListingMedia (media_listing_id m) (media_image m) order).
Proof.
  intros Hm Hpk. unfold update_order. rewrite Hm, bool_decide_eq_true_2 by done.
  apply lookup_insert_eq.
Qed.

Lemma same_media_refl (tbl : gmap Z ListingMedia) : same_media tbl tbl.
Proof. by intros k. Qed.

Lemma same_media_trans (t1 t2 t3 : gmap Z ListingMedia) :
  same_media t1 t2 → same_media t2 t3 → same_media t1 t3.
Proof.
  intros H12 H23 k. destruct (H12 k) as [<- <-], (H23 k) as [<- <-]. done.
Qed.

Lemma update_order_same (pk n order : Z) (tbl : gmap Z ListingMedia) :
  same_media tbl (update_order pk n order tbl).
Proof.
  intros k. unfold update_order.
  destruct (tbl !! n) as [m|] eqn:Hm; [|done]. case_bool_decide; [|done].
  destruct (decide (k = n)) as [-> | Hk].
  - by rewrite lookup_insert_eq, Hm.
  - by rewrite lookup_insert_ne.
Qed.

Lemma update_order_foreign (pk n order k : Z) (tbl : gmap Z ListingMedia)
    (m : ListingMedia) :
  tbl !! k = Some m → media_listing_id m ≠ pk →
  update_order pk n order tbl !! k = Some m.
Proof.
  intros Hm Hpk. unfold update_order.
  destruct (tbl !! n) as [m'|] eqn:Hm'; [|done]. case_bool_decide; [|done].
  rewrite lookup_insert_ne; [done|]. intros ->. congruence.
Qed.

(** The second loop writes [order] columns of the listing, nothing else. *)
Lemma reorder_from_same (pk order : Z) (media_ids : list PyVal)
    (tbl : gmap Z ListingMedia) :
  same_media tbl (reorder_from pk order media_ids tbl).2 ∧
  ∀ k m, tbl !! k = Some m → media_listing_id m ≠ pk →
         (reorder_from pk order media_ids tbl).2 !! k = Some m.
Proof.
  revert order tbl. induction media_ids as [|v l IH]; intros order tbl; simpl.
  - split; [apply same_media_refl | done].
  - destruct (py_int v) as [n|]; simpl; [|split; [apply same_media_refl | done]].
    destruct (IH (order + 1) (update_order pk n order tbl)) as [Hsame Hforeign].
    split.
    + eapply same_media_trans; [apply update_order_same | exact Hsame].
    + intros k m Hm Hpk. apply Hforeign; [|done]. by apply update_order_foreign.
Qed.

(** X14: reordering the media of a listing changes [order] columns of
    that listing and nothing else: no media row is added or removed, no
    row changes its listing or its image, and the rows of other listings
    keep their order as well. A request that is not answered with status
    200, such as one whose list names, at any position, a media id that
    is not of the listing, has changed no order at all. *)
Theorem reorder_writes_orders_only
    (u : User) (pk : Z) (data : gmap string PyVal) (st : Store)
    (tbl : gmap Z ListingMedia) :
  same_media tbl (ListingMediaReorderView_post u pk data st tbl).2 ∧
  (∀ k m, tbl !! k = Some m → media_listing_id m ≠ pk →
          (ListingMediaReorderView_post u pk data st tbl).2 !! k = Some m) ∧
  (∀ resp, (ListingMediaReorderView_post u pk data st tbl).1 = Done resp →
           status resp ≠ 200 →
           (ListingMediaReorderView_post u pk data st tbl).2 = tbl).
Proof.
  unfold ListingMediaReorderView_post.
  destruct (get_own_listing st pk u) as [listing|];
    [|split; [apply same_media_refl | done]].
  destruct (default (PList []) (data !! "media_ids"));
    try (split; [apply same_media_refl | done]).
  destruct (check_media_ids pk _ _) as [[]|r];
    [|split; [apply same_media_refl | done]].
  destruct (reorder_from_same pk 0 l tbl) as [Hsame Hforeign].
  destruct (reorder_from pk 0 l tbl) as [[[] | e |] tbl']; simpl in *;
    (split; [done|]; split; [done|]); try done.
  intros resp [= <-]. done.
Qed.

Lemma check_media_ids_ints (pk : Z) (existing_ids ns : list Z) :
  (∀ n, n ∈ ns → n ∈ existing_ids) →
  check_media_ids pk existing_ids (PInt <$> ns) = Ok ().
Proof.
  induction ns as [|n ns IH]; intros Hns; [done|].
  simpl. rewrite bool_decide_eq_true_2 by (apply Hns; by left).
  apply IH. intros n' Hn'. apply Hns. by right.
Qed.

Lemma check_media_ids_foreign (pk : Z) (existing_ids ns : list Z) (n : Z) :
  (∀ n', n' ∈ ns → n' ∈ existing_ids) → n ∉ existing_ids →
  ∀ rest,
    check_media_ids pk existing_ids (PInt <$> (ns ++ n :: rest)%list)
    = Halt (Done (mkResponse 400 (NotInListing (PInt n) pk))).
Proof.
  intros Hns Hn rest. induction ns as [|n0 ns IH]; simpl.
  - by rewrite bool_decide_eq_false_2.
  - rewrite bool_decide_eq_true_2 by (apply Hns; by left).
    apply IH. intros n' Hn'. apply Hns. by right.
Qed.

(** The second loop on a list of distinct ids of the listing. *)
Lemma reorder_from_ints (pk order : Z) (ns : list Z) (tbl : gmap Z ListingMedia) :
  NoDup ns →
  (∀ n, n ∈ ns → ∃ m, tbl !! n = Some m ∧ media_listing_id m = pk) →
  ∃ tbl',
    reorder_from pk order (PInt <$> ns) tbl = (Done (), tbl') ∧
    (∀ (i : nat) n, ns !! i = Some n →
                    media_order <$> tbl' !! n = Some (order + Z.of_nat i)) ∧
    (∀ k, k ∉ ns → tbl' !! k = tbl !! k).
Proof.
  revert order tbl. induction ns as [|n ns IH]; intros order tbl Hnd Hns.
  - exists tbl. split; [done|]. split; [|done]. by intros i n [=].
  - apply NoDup_cons in Hnd as [Hn Hnd].
    destruct (Hns n) as (m & Hm & Hpk); [by left|].
    destruct (IH (order + 1) (update_order pk n order tbl) Hnd)
      as (tbl' & Hrun & Horders & Hrest).
    { intros n' Hn'. rewrite update_order_ne by (by intros ->).
      apply Hns. by right. }
    exists tbl'. split; [exact Hrun|]. split.
    + intros [|i] n' Hi; simpl in Hi.
      * injection Hi as <-. rewrite (Hrest n Hn).
        rewrite (update_order_eq pk n order tbl m Hm Hpk). simpl.
        f_equal. lia.
      * rewrite (Horders i n' Hi). f_equal. lia.
    + intros k Hk. apply not_elem_of_cons in Hk as [Hkn Hk].
      rewrite (Hrest k Hk). by apply update_order_ne.
Qed.

(** A list whose rows stand at rising orders is sorted. *)
Lemma media_rising_sorted (rows : list (Z * ListingMedia)) (order : Z) :
  (∀ (i : nat) kv, rows !! i = Some kv → media_order kv.2 = order + Z.of_nat i) →
  Sorted media_le rows.
Proof.
  revert order. induction rows as [|kv rows IH]; intros order Hrows; [constructor|].
  constructor.
  - apply (IH (order + 1)). intros i kv' Hi.
    rewrite (Hrows (S i) kv' Hi). lia.
  - destruct rows as [|kv' rows]; constructor.
    unfold media_le, key_le. apply order_id_le_iff. simpl.
    rewrite (Hrows 0%nat kv eq_refl), (Hrows 1%nat kv' eq_refl). lia.
Qed.

(** X15: the owner's reorder request with a list of distinct media ids
    of the listing is answered with status 200; afterwards the media row
    named at position [i] of the list has the order [i] and every row
    that the list does not name is as before. The answer lists the rows
    of the listing sorted by order and id, and when the list names every
    media row of the listing, the answer lists the rows in exactly the
    order of the list. *)
Theorem reorder_sets_positions
    (u : User) (pk : Z) (data row : gmap string PyVal) (st : Store)
    (tbl : gmap Z ListingMedia) (ns : list Z) :
  st_listings st !! pk = Some row →
  row !! "user_id" = Some (PInt (user_id u)) →
  data !! "media_ids" = Some (PList (PInt <$> ns)) →
  NoDup ns →
  (∀ n, n ∈ ns → ∃ m, tbl !! n = Some m ∧ media_listing_id m = pk) →
  ∃ media tbl',
    ListingMediaReorderView_post u pk data st tbl
    = (Done (mkResponse 200 (MediaList media)), tbl') ∧
    (∀ (i : nat) n, ns !! i = Some n →
                    media_order <$> tbl' !! n = Some (Z.of_nat i)) ∧
    (∀ k, k ∉ ns → tbl' !! k = tbl !! k) ∧
    media ≡ₚ media_of pk tbl' ∧
    Sorted media_le media ∧
    ((∀ k m, tbl !! k = Some m → media_listing_id m = pk → k ∈ ns) →
     media.*1 = ns).
Proof.
  intros Hrow Hu Hdata Hnd Hns.
  destruct (reorder_from_ints pk 0 ns tbl Hnd Hns) as (tbl' & Hrun & Horders & Hrest).
  destruct (reorder_from_same pk 0 (PInt <$> ns) tbl) as [Hsame _].
  rewrite Hrun in Hsame. simpl in Hsame.
  eexists _, tbl'. split; [|split; [exact Horders|split; [exact Hrest|]]].
  { unfold ListingMediaReorderView_post.
    rewrite (get_own_listing_owner st pk u row Hrow Hu), Hdata. simpl.
    rewrite check_media_ids_ints; [by rewrite Hrun|].
    intros n Hn. by apply media_of_ids, Hns. }
  set (media := sort_by_key _ _ _).
  assert (media ≡ₚ media_of pk tbl') as Hperm by apply sort_by_key_perm.
  assert (Sorted media_le media) as Hsorted.
  { apply sort_by_key_sorted. intros a b. apply order_id_ltb_asym. }
  split; [done|]. split; [done|]. intros Hall.
  (* the rows of the list, in the order of the list *)
  set (dummy := mkListingMedia 0 "" 0).
  set (named := (λ n, (n, default dummy (tbl' !! n))) <$> ns).
  assert (∀ n, n ∈ ns → ∃ m, tbl' !! n = Some m ∧ media_listing_id m = pk)
    as Hns'.
  { intros n (m & Hm & Hpk)%Hns. destruct (Hsame n) as [Hl _].
    rewrite Hm in Hl. destruct (tbl' !! n) as [m'|]; [|done].
    exists m'. split; [done|]. simpl in Hl. congruence. }
  assert (∀ kv, kv ∈ named ↔ kv ∈ media_of pk tbl') as Hnamed.
  { intros [k m]. unfold named. rewrite list_elem_of_fmap, media_of_elem. split.
    - intros (n & [= -> ->] & Hn). destruct (Hns' n Hn) as (m & -> & Hpk). done.
    - intros [Hm Hpk]. exists k. rewrite Hm. split; [done|].
      destruct (Hsame k) as [Hl _]. rewrite Hm in Hl.
      destruct (tbl !! k) as [m0|] eqn:Hm0; [|done].
      apply (Hall k m0 Hm0). simpl in Hl. congruence. }
  assert (media = named) as ->.
  { apply (@Sorted_unique_strong _ media_le media_le_trans); [| exact Hsorted | |].
    - intros [k1 m1] [k2 m2] H1 H2. rewrite Hperm in H1. apply Hnamed in H2.
      apply media_of_elem in H1 as [H1 _], H2 as [H2 _].
      unfold media_le, key_le. rewrite !order_id_le_iff. simpl.
      intros H12 H21. assert (k1 = k2) as -> by lia. congruence.
    - apply (media_rising_sorted named 0). intros i [k m] Hi. unfold named in Hi.
      rewrite list_lookup_fmap in Hi.
      destruct (ns !! i) as [n|] eqn:Hn; [|done]. injection Hi as <- <-.
      pose proof (Horders i n Hn) as Ho.
      destruct (tbl' !! n) as [m|]; [|done]. simpl in *. congruence.
    - rewrite Hperm. apply NoDup_Permutation.
      + apply media_of_NoDup.
      + apply (NoDup_fmap_1 fst). unfold named.
        rewrite <- list_fmap_compose. by rewrite list_fmap_id.
      + intros kv. symmetry. apply Hnamed. }
  unfold named. rewrite <- list_fmap_compose. apply list_fmap_id.
Qed.

(** X16: a reorder list that names a media id which is not of the
    listing is refused as a whole. The owner's request is answered with
    status 400 and the first such id, and no order is changed, although
    every id before it in the list is a media id of the listing. *)
Theorem reorder_refuses_foreign_id
    (u : User) (pk : Z) (data row : gmap string PyVal) (st : Store)
    (tbl : gmap Z ListingMedia) (ns rest : list Z) (n : Z) :
  st_listings st !! pk = Some row →
  row !! "user_id" = Some (PInt (user_id u)) →
  data !! "media_ids" = Some (PList (PInt <$> (ns ++ n :: rest)%list)) →
  (∀ n', n' ∈ ns → ∃ m, tbl !! n' = Some m ∧ media_listing_id m = pk) →
  (∀ m, tbl !! n = Some m → media_listing_id m ≠ pk) →
  ListingMediaReorderView_post u pk data st tbl
  = (Done (mkResponse 400 (NotInListing (PInt n) pk)), tbl).
Proof.
  intros Hrow Hu Hdata Hns Hn. unfold ListingMediaReorderView_post.
  rewrite (get_own_listing_owner st pk u row Hrow Hu), Hdata. simpl.
  rewrite check_media_ids_foreign; [done | |].
  - intros n' Hn'. by apply media_of_ids, Hns.
  - intros (m & Hm & Hpk)%media_of_ids. by apply (Hn m).
Qed.

(** X17: the deletion of a media row removes at most the row it names.
    Every other row is as before; a row that belongs to another listing
    than the one of the request is not removed and the answer is 404;
    and after a deletion that was answered with status 200 the row is
    gone, so that the same request again is answered with 404 and
    changes nothing. *)
Theorem media_delete_removes_one_row
    (u : User) (pk media_id : Z) (st : Store) (tbl : gmap Z ListingMedia) :
  (∀ k, k ≠ media_id →
        (ListingMediaDeleteView_delete u pk media_id st tbl).2 !! k = tbl !! k) ∧
  (∀ m, tbl !! media_id = Some m → media_listing_id m ≠ pk →
        ListingMediaDeleteView_delete u pk media_id st tbl
        = (Done (mkResponse 404 (Detail "Not found")), tbl)) ∧
  (status_of (ListingMediaDeleteView_delete u pk media_id st tbl).1 = Some 200 →
   (ListingMediaDeleteView_delete u pk media_id st tbl).2 = delete media_id tbl ∧
   is_Some (tbl !! media_id) ∧
   ListingMediaDeleteView_delete u pk media_id st
     (ListingMediaDeleteView_delete u pk media_id st tbl).2
   = (Done (mkResponse 404 (Detail "Not found")),
      (ListingMediaDeleteView_delete u pk media_id st tbl).2)).
Proof.
  unfold ListingMediaDeleteView_delete.
  destruct (get_own_listing st pk u) as [listing|];
    [|split; [done|]; split; [done|]; by intros [=]].
  destruct (tbl !! media_id) as [m|] eqn:Hm;
    [|split; [done|]; split; [done|]; by intros [=]].
  case_bool_decide as Hpk; simpl.
  - split; [intros k Hk; by apply lookup_delete_ne|].
    split; [intros m' [= <-] Hne; done|]. intros _.
    split; [done|]. split; [done|]. by rewrite lookup_delete_eq.
  - split; [done|]. split; [done|]. by intros [=].
Qed.

End media_facts.

(** X15 at the three images of the sample listing. *)
Lemma reorder_sets_positions_witness :
  ∃ media tbl',
    ListingMediaReorderView_post sample_user 1 reorder_all sample_store sample_media
    = (Done (mkResponse 200 (MediaList media)), tbl') ∧
    (∀ (i : nat) n, [12; 10; 11] !! i = Some n →
                    media_order <$> tbl' !! n = Some (Z.of_nat i)) ∧
    (∀ k, k ∉ [12; 10; 11] → tbl' !! k = sample_media !! k) ∧
    media ≡ₚ media_of 1 tbl' ∧
    Sorted media_le media ∧
    ((∀ k m, sample_media !! k = Some m → media_listing_id m = 1 →
             k ∈ [12; 10; 11]) →
     media.*1 = [12; 10; 11]).
Proof.
  apply (reorder_sets_positions sample_user 1 reorder_all sample_listing
           sample_store sample_media [12; 10; 11]).
  - reflexivity.
  - reflexivity.
  - reflexivity.
  - compute_done.
  - intros n Hn.
    repeat (apply elem_of_cons in Hn as [-> | Hn]); [..|by apply elem_of_nil in Hn];
      eexists; split; reflexivity.
Defined.

(** X16 at a list whose last id is an image of another listing. *)
Lemma reorder_refuses_foreign_id_witness :
  ListingMediaReorderView_post sample_user 1 reorder_foreign sample_store sample_media
  = (Done (mkResponse 400 (NotInListing (PInt 20) 1)), sample_media).
Proof.
  apply (reorder_refuses_foreign_id sample_user 1 reorder_foreign sample_listing
           sample_store sample_media [12; 10] [] 20).
  - reflexivity.
  - reflexivity.
  - reflexivity.
  - intros n Hn.
    repeat (apply elem_of_cons in Hn as [-> | Hn]); [..|by apply elem_of_nil in Hn];
      eexists; split; reflexivity.
  - intros m Hm. change (Some (mkListingMedia 2 "d.jpg" 0) = Some m) in Hm.
    injection Hm as <-. simpl. lia.
Defined.

(** ** The ancestor walk on a cycle *)

Section cyclic_walk.
Context (cats : list Category).
Hypothesis ids_NoDup : NoDup (cat_id <$> cats).

Lemma link_row (x p : Z) :
  parent_link cats x p →
  ∃ c, get_category cats x = Some c ∧ cat_parent_id c = Some p.
Proof.
  intros (c & Hc & <- & Hp). exists c. split; [|done].
  by apply get_category_NoDup.
Qed.

Lemma link_functional (x p q : Z) :
  parent_link cats x p → parent_link cats x q → p = q.
Proof.
  intros (c & Hc & Hp)%link_row (c' & Hc' & Hq)%link_row. congruence.
Qed.

(** Below a cycle, every step of the walk stays below the cycle. *)
Lemma below_cycle_step (x p : Z) :
  below_cycle cats x → parent_link cats x p → below_cycle cats p.
Proof.
  intros (y & Hxy & Hyy) Hp.
  destruct Hxy as [x | x q y Hq Hqy].
  - assert (∃ q, parent_link cats x q ∧ rtc (parent_link cats) q x)
      as (q & Hq & Hqx).
    { inversion Hyy as [? ? Hq | ? q ? Hq Hqx]; subst.
      - by exists x.
      - exists q. split; [done|]. by apply tc_rtc. }
    rewrite (link_functional x p q Hp Hq). exists x. done.
  - rewrite (link_functional x p q Hp Hq). by exists y.
Qed.

Lemma below_cycle_link (x : Z) :
  below_cycle cats x → ∃ p, parent_link cats x p.
Proof.
  intros (y & Hxy & Hyy). destruct Hxy as [x | x q y Hq _]; [|by exists q].
  inversion Hyy; subst; by eexists.
Qed.

Lemma ancestor_ids_below_cycle (fuel : nat) (c : Category) :
  c ∈ cats → below_cycle cats (cat_id c) →
  ancestor_ids fuel cats (Some c) = Diverged.
Proof.
  revert c. induction fuel as [|fuel IH]; intros c Hc Hbelow; [done|].
  destruct (below_cycle_link _ Hbelow) as [p Hp].
  pose proof (below_cycle_step _ _ Hbelow Hp) as Hbelow'.
  destruct (link_row _ _ Hp) as (c' & Hc' & Hparent).
  rewrite (get_category_NoDup cats ids_NoDup c Hc) in Hc'. injection Hc' as <-.
  destruct (below_cycle_link _ Hbelow') as [q Hq].
  destruct (link_row _ _ Hq) as (parent & Hrow & _).
  cbn [ancestor_ids]. rewrite Hparent, Hrow.
  apply get_category_Some in Hrow as [Hin Hid].
  rewrite IH; [done | done | by rewrite Hid].
Qed.

End cyclic_walk.

(** X18: the resolution of the attribute schema of a category that is
    on a cycle of parent links, or below one, does not end: the walk up
    the parents meets a row at every step, with every amount of fuel, and
    the view never answers. *)
Theorem schema_of_cyclic_category_diverges
    (cats : list Category) (attrs : list Attribute) (pk : Z) :
  NoDup (cat_id <$> cats) →
  below_cycle cats pk →
  (∀ fuel cat, get_category cats pk = Some cat →
               ancestor_ids fuel cats (Some cat) = Diverged) ∧
  CategoryAttributesView_get cats attrs pk = Diverged.
Proof.
  intros Hnd Hbelow.
  destruct (below_cycle_link cats pk Hbelow) as [p Hp].
  destruct (link_row cats Hnd pk p Hp) as (cat & Hcat & _).
  assert (∀ fuel, ancestor_ids fuel cats (Some cat) = Diverged) as Hwalk.
  { intros fuel. apply get_category_Some in Hcat as [Hin Hid].
    apply ancestor_ids_below_cycle; [done | done | by rewrite Hid]. }
  split.
  - intros fuel cat' Hcat'. rewrite Hcat in Hcat'. injection Hcat' as <-.
    apply Hwalk.
  - unfold CategoryAttributesView_get. by rewrite Hcat, Hwalk.
Qed.

(** X18 at the row 6, which hangs below the cycle of the rows 4 and 5. *)
Lemma schema_of_cyclic_category_witness :
  (∀ fuel cat, get_category cyclic_categories 6 = Some cat →
               ancestor_ids fuel cyclic_categories (Some cat) = Diverged) ∧
  CategoryAttributesView_get cyclic_categories sample_attributes 6 = Diverged.
Proof.
  apply (schema_of_cyclic_category_diverges cyclic_categories sample_attributes 6).
  - compute_done.
  - exists 4. split.
    + apply rtc_once. exists sample_cases. split; [|done].
      repeat first [apply list_elem_of_here | apply list_elem_of_further].
    + eapply tc_l; [|apply tc_once].
      * exists sample_phones. split; [|done].
        repeat first [apply list_elem_of_here | apply list_elem_of_further].
      * exists sample_tablets. split; [|done].
        repeat first [apply list_elem_of_here | apply list_elem_of_further].
Defined.

(** ** An invariant of the stored listings *)

Section checked_facts.
Context `{PyRuntime} `{!ListingsApp} `{!ListingStatus}.

Lemma column_checked_frame (st st' : Store) (col : string) (v : PyVal) :
  st_categories st' = st_categories st → st_locations st' = st_locations st →
  column_checked st col v → column_checked st' col v.
Proof.
  intros Hc Hl. unfold column_checked, category_exists, location_exists.
  by rewrite Hc, Hl.
Qed.

Lemma row_checked_frame (st st' : Store) (row : gmap string PyVal) :
  st_categories st' = st_categories st → st_locations st' = st_locations st →
  row_checked st row → row_checked st' row.
Proof.
  intros Hc Hl Hrow col Hcol. destruct (Hrow col Hcol) as (v & Hv & Hok).
  exists v. split; [done|]. by eapply column_checked_frame.
Qed.

Lemma row_checked_insert (st : Store) (row : gmap string PyVal)
    (col : string) (v : PyVal) :
  row_checked st row → column_checked st col v →
  row_checked st (<[col := v]> row).
Proof.
  intros Hrow Hv col' Hcol'. destruct (decide (col' = col)) as [-> | Hne].
  - exists v. by rewrite lookup_insert_eq.
  - rewrite lookup_insert_ne by done. by apply Hrow.
Qed.

Lemma assign_if_present_checked (st : Store) (data l l' : gmap string PyVal)
    (k col : string) (f : PyVal → Result (Run (Response Body)) PyVal) :
  (∀ v v', f v = Ok v' → column_checked st col v') →
  row_checked st l →
  assign_if_present data k col f l = Ok l' → row_checked st l'.
Proof.
  intros Hf Hl. unfold assign_if_present.
  destruct (data !! k) as [v|]; [|by intros [= <-]].
  intros (v' & Hv' & [= <-])%bind_Ok. apply row_checked_insert; [done|].
  by eapply Hf.
Qed.

Lemma assign_unless_none_checked (st : Store) (l : gmap string PyVal)
    (v : PyVal) (col : string) :
  (is_none v = false → column_checked st col v) →
  row_checked st l → row_checked st (assign_unless_none v col l).
Proof.
  intros Hv Hl. unfold assign_unless_none.
  destruct (is_none v); [done|]. apply row_checked_insert; [done|]. by apply Hv.
Qed.

Lemma checked_choice_Ok (field : string) (choices : list string) (v v' : PyVal) :
  checked_choice field choices v = Ok v' → ∃ s, v' = PStr s ∧ s ∈ choices.
Proof.
  unfold checked_choice. intros ([] & Hc & [= <-])%bind_Ok.
  by apply check_choice_Ok in Hc.
Qed.

(** The update assigns to a checked column only what has passed the
    check of that column. *)
Lemma patch_fields_checked (data : gmap string PyVal) (st : Store)
    (l l' : gmap string PyVal) :
  row_checked st l → patch_fields data st l = Ok l' → row_checked st l'.
Proof.
  intros Hl. unfold patch_fields. intros Hp.
  apply bind_Ok in Hp as ([] & Htitle & Hp).
  apply bind_Ok in Hp as (cid & Hcid & Hp).
  apply bind_Ok in Hp as (lid & Hlid & Hp).
  apply bind_Ok in Hp as (l1 & Hs1 & Hp).
  apply bind_Ok in Hp as (l2 & Hs2 & Hp).
  apply bind_Ok in Hp as (l3 & Hs3 & Hp).
  apply bind_Ok in Hp as (l4 & Hs4 & Hp).
  apply bind_Ok in Hp as (l5 & Hs5 & Hp).
  apply bind_Ok in Hp as (l6 & Hs6 & Hp).
  apply bind_Ok in Hp as (l7 & Hs7 & Hp).
  apply bind_Ok in Hp as (l8 & Hs8 & Hp).
  apply bind_Ok in Hp as (l9 & Hs9 & Hp).
  injection Hp as <-.
  assert (match cid with Some c => category_exists st c = true | None => True end)
    as Hc.
  { destruct (is_none (data_get data "category")); [by injection Hcid as <-|].
    apply bind_Ok in Hcid as (c & _ & Hcid).
    apply bind_Ok in Hcid as ([] & Hex & [= <-]).
    unfold require in Hex. by destruct (category_exists st c). }
  assert (match lid with Some c => location_exists st c = true | None => True end)
    as Hloc.
  { destruct (is_none (data_get data "location")); [by injection Hlid as <-|].
    apply bind_Ok in Hlid as (c & _ & Hlid).
    apply bind_Ok in Hlid as ([] & Hex & [= <-]).
    unfold require in Hex. by destruct (location_exists st c). }
  apply (assign_if_present_checked st) in Hs1; [|done|]; cycle 1.
  { apply assign_unless_none_checked; [|done]. intros Hnone.
    unfold require in Htitle. rewrite Hnone in Htitle. simpl in Htitle.
    unfold column_checked. simpl.
    by destruct (truthy (data_get data "title")). }
  apply (assign_if_present_checked st) in Hs2; [| |done]; cycle 1.
  { intros v v' (x & _ & [= <-])%bind_Ok. by exists x. }
  apply (assign_if_present_checked st) in Hs3; [|done|done].
  apply (assign_if_present_checked st) in Hs4; [| |done]; cycle 1.
  { intros v v' [= <-]. by eexists. }
  apply (assign_if_present_checked st) in Hs5; [| |done]; cycle 1.
  { intros v v'. apply checked_choice_Ok. }
  apply (assign_if_present_checked st) in Hs6; [| |done]; cycle 1.
  { intros v v'. apply checked_choice_Ok. }
  apply (assign_if_present_checked st) in Hs7; [| |done]; cycle 1.
  { intros v v'. apply checked_choice_Ok. }
  apply (assign_if_present_checked st) in Hs8; cycle 1.
  { intros v v' [= <-]. apply to_float_or_none_cases. }
  { destruct lid as [lid|]; [apply row_checked_insert; [|by exists lid]|];
      (destruct cid as [cid|]; [apply row_checked_insert; [done | by exists cid] | done]). }
  apply (assign_if_present_checked st) in Hs9; [| |done]; cycle 1.
  { intros v v' [= <-]. apply to_float_or_none_cases. }
  by repeat (apply assign_unless_none_checked; [done|]).
Qed.

(** The row the create handler writes has passed every check. *)
Lemma created_row_checked (u : User) (data : gmap string PyVal) (st : Store)
    (arguments : gmap string PyVal) (attributes : PyVal) :
  create_arguments u data st = Ok (arguments, attributes) →
  row_checked st (<["contact_phone_masked" := PStr (contact_phone_of u)]>
                    (arguments ∪ listing_defaults)).
Proof.
  intros (c & l & x & s1 & s2 & s3 & Ht & Hc & Hl & Hs1 & Hs2 & Hs3 & ->)
    %create_arguments_Ok.
  intros col Hcol. unfold checked_columns in Hcol.
  repeat (apply elem_of_cons in Hcol as [-> | Hcol]);
    [..|by apply elem_of_nil in Hcol];
    (eexists; split;
     [rewrite lookup_insert_ne by discriminate;
      apply lookup_union_Some_l; simpl;
      repeat (rewrite lookup_insert_ne by discriminate);
      apply lookup_insert_eq
     |unfold column_checked; simpl; eauto using to_float_or_none_cases]).
Qed.

Lemma store_checked_frame (st st' : Store) :
  st_categories st' = st_categories st → st_locations st' = st_locations st →
  store_checked st →
  (∀ pk row, st_listings st' !! pk = Some row →
             st_listings st !! pk = Some row ∨ row_checked st row) →
  store_checked st'.
Proof.
  intros Hc Hl Hst Hrows pk row Hrow.
  apply (row_checked_frame st st'); [done..|].
  destruct (Hrows pk row Hrow) as [Hold | Hnew]; [by eapply Hst | done].
Qed.

Lemma save_update_fields_checked (pk : Z) (columns : list (string * PyVal))
    (st : Store) :
  Forall (λ kv, column_checked st kv.1 kv.2) columns →
  store_checked st → store_checked (save_update_fields pk columns st).
Proof.
  intros Hcols Hst. apply (store_checked_frame st); [done..|].
  intros k row. simpl. destruct (decide (k = pk)) as [-> | Hk];
    [|rewrite lookup_alter_ne by done; by left].
  rewrite lookup_alter_eq.
  destruct (st_listings st !! pk) as [row0|] eqn:Hrow0; [|done].
  simpl. intros [= <-]. right.
  pose proof (Hst pk row0 Hrow0) as Hrow. clear Hrow0.
  revert row0 Hrow. induction Hcols as [|[col v] columns Hv _ IH]; intros row0 Hrow;
    [done|].
  simpl. apply IH. by apply row_checked_insert.
Qed.

(** X19: every handler that writes listings keeps the stored listings
    checked. If every stored listing has an integer owner, a truthy
    title, an existing category and location, a float price, a boolean
    negotiable flag, a member of the respective enumeration as condition,
    deal type and seller type, and a float or nothing as latitude and
    longitude, then the same holds after any number of create, update,
    refresh, deactivate and activate calls, with any users and payloads
    and whatever their outcomes are. *)
Theorem writes_keep_listings_checked (st st' : Store) :
  store_checked st → rtc listing_write st st' → store_checked st'.
Proof.
  intros Hst Hsteps. induction Hsteps as [st | st st1 st' Hstep _ IH]; [done|].
  apply IH. clear IH st'. destruct Hstep as [u data | u pk data | u pk now | u pk | u pk now].
  - unfold ListingCreateRawView_post.
    destruct (create_arguments u data st) as [[arguments attributes]|r] eqn:Hargs;
      [|done].
    apply created_row_checked in Hargs.
    set (pk := fresh_pk (st_listings st)) in *.
    set (row := <["contact_phone_masked" := _]> (arguments ∪ listing_defaults)) in *.
    set (st1 := set_listings _ (set_listings _ st)).
    assert (store_checked st1) as Hst1.
    { apply (store_checked_frame st); [done..|]. intros k row' Hk. simpl in Hk.
      destruct (decide (k = pk)) as [-> | Hne].
      - rewrite lookup_alter_eq, lookup_insert_eq in Hk. injection Hk as <-.
        by right.
      - rewrite lookup_alter_ne, lookup_insert_ne in Hk by done. by left. }
    assert (∀ l, store_checked
                   (save_attributes_then pk row l st1 (respond 201 pk row)).2)
      as Hsave.
    { intros l.
      destruct (save_attributes_then_frame pk row l st1 201) as (Hc & _ & Hl).
      apply (store_checked_frame st1); [done..|].
      intros k row' Hk. left. by rewrite save_attributes_then_listings in Hk. }
    destruct attributes as [| | | | |[|a l]|]; try exact Hst1. apply Hsave.
  - unfold ListingUpdateRawView_patch.
    destruct (get_own_listing st pk u) as [listing|] eqn:Hown; [|done].
    apply get_own_listing_Some in Hown.
    destruct (patch_fields data st listing) as [listing'|r] eqn:Hfields; [|done].
    apply patch_fields_checked in Hfields; [|by eapply Hst].
    set (st1 := set_listings _ st).
    assert (store_checked st1) as Hst1.
    { apply (store_checked_frame st); [done..|]. intros k row' Hk. simpl in Hk.
      destruct (decide (k = pk)) as [-> | Hne].
      - rewrite lookup_insert_eq in Hk. injection Hk as <-. by right.
      - rewrite lookup_insert_ne in Hk by done. by left. }
    assert (∀ l, store_checked
                   (save_attributes_then pk listing' l st1 (respond 200 pk listing')).2)
      as Hsave.
    { intros l.
      destruct (save_attributes_then_frame pk listing' l st1 200) as (Hc & _ & Hl).
      apply (store_checked_frame st1); [done..|].
      intros k row' Hk. left. by rewrite save_attributes_then_listings in Hk. }
    destruct (data_get data "attributes"); try exact Hst1. apply Hsave.
  - unfold ListingRefreshView_post.
    destruct (get_own_listing st pk u); [|done]. simpl.
    apply save_update_fields_checked; [|done]. by repeat constructor.
  - unfold ListingDeactivateView_post.
    destruct (get_own_listing st pk u); [|done]. simpl.
    apply save_update_fields_checked; [|done]. by repeat constructor.
  - unfold ListingActivateView_post.
    destruct (get_own_listing st pk u); [|done].
    destruct (negb (status_among _ _)); [done|]. simpl.
    apply save_update_fields_checked; [|done]. by repeat constructor.
Qed.

End checked_facts.

Lemma sample_store_checked : store_checked sample_store.
Proof.
  intros pk row Hrow.
  change (({[ 1 := sample_listing ]} : gmap Z (gmap string PyVal)) !! pk = Some row)
    in Hrow.
  apply lookup_singleton_Some in Hrow as [<- <-].
  intros col Hcol. unfold checked_columns in Hcol.
  repeat (apply elem_of_cons in Hcol as [-> | Hcol]);
    [..|by apply elem_of_nil in Hcol];
    (eexists; split; [reflexivity|]);
    unfold column_checked; simpl; eauto.
  - eexists. split; [done|]. compute_done.
  - eexists. split; [done|]. compute_done.
  - eexists. split; [done|]. compute_done.
Qed.

(** X19 at the sample store, after a create and an update. *)
Lemma writes_keep_listings_checked_witness :
  store_checked
    (ListingUpdateRawView_patch sample_user 1 update_price_only
       (ListingCreateRawView_post sample_user create_for_someone_else
                                  sample_store).2).2.
Proof.
  apply (writes_keep_listings_checked sample_store).
  - apply sample_store_checked.
  - eapply rtc_l; [apply (write_create _ sample_user create_for_someone_else)|].
    apply rtc_once. apply write_update.
Defined.

(** ** The creator of a listing *)

Section creator_facts.
Context `{PyRuntime} `{!ListingsApp}.

(** The row a create request of status 201 leaves under the new key. *)
Lemma post_201_row (u : User) (data : gmap string PyVal) (st st' : Store)
    (resp : Response Body) :
  ListingCreateRawView_post u data st = (Done resp, st') →
  status resp = 201 →
  ∃ arguments attributes,
    create_arguments u data st = Ok (arguments, attributes) ∧
    st_listings st' !! fresh_pk (st_listings st)
    = Some (<["contact_phone_masked" := PStr (contact_phone_of u)]>
              (arguments ∪ listing_defaults)).
Proof.
  unfold ListingCreateRawView_post.
  destruct (create_arguments u data st) as [[arguments attributes]|r] eqn:Hargs.
  - intros Hrun _. exists arguments, attributes. split; [done|].
    set (pk := fresh_pk (st_listings st)) in *.
    set (row := <["contact_phone_masked" := PStr (contact_phone_of u)]> (_ ∪ _)) in *.
    set (st1 := set_listings _ (set_listings _ st)) in Hrun.
    assert (st_listings st1 !! pk = Some row) as Hst1.
    { simpl. by rewrite lookup_alter_eq, lookup_insert_eq. }
    destruct attributes as [| | | | |[|a l']|];
      try (unfold respond in Hrun; by injection Hrun as <- <-).
    apply save_attributes_then_Done in Hrun as (_ & -> & _). done.
  - intros [= -> <-] Hstatus.
    apply create_arguments_Halt in Hargs as [Hr | Hr]; [|done].
    simpl in Hr. injection Hr as Hr. lia.
Qed.

(** X20: the user who created a listing, and no other user, passes the
    owner check of the later handlers. After a create request of status
    201 the lookup of the new listing for the creator finds it, whatever
    owner the payload named, and an update of the new listing by a user
    with another id is answered with 404 and writes nothing. *)
Theorem creator_owns_created_listing
    (u other : User) (data : gmap string PyVal) (st st' : Store)
    (resp : Response Body) :
  ListingCreateRawView_post u data st = (Done resp, st') →
  status resp = 201 →
  is_Some (get_own_listing st' (fresh_pk (st_listings st)) u) ∧
  (user_id other ≠ user_id u →
   get_own_listing st' (fresh_pk (st_listings st)) other = None ∧
   ∀ data',
     ListingUpdateRawView_patch other (fresh_pk (st_listings st)) data' st'
     = (Done (mkResponse 404 (Errors "detail" (Text "Not found"))), st')).
Proof.
  intros Hrun Hstatus.
  destruct (post_201_row u data st st' resp Hrun Hstatus)
    as (arguments & attributes & Hargs & Hrow).
  apply create_arguments_Ok in Hargs
    as (c & l & x & s1 & s2 & s3 & _ & _ & _ & _ & _ & _ & ->).
  set (row := <["contact_phone_masked" := _]> (_ ∪ _)) in Hrow.
  assert (row !! "user_id" = Some (PInt (user_id u))) as Hu.
  { unfold row. rewrite lookup_insert_ne by discriminate.
    apply lookup_union_Some_l. simpl. apply lookup_insert_eq. }
  assert (∀ v, get_own_listing st' (fresh_pk (st_listings st)) v
               = if user_id u =? user_id v then Some row else None) as Hown.
  { intros v. unfold get_own_listing. rewrite Hrow. simpl. by rewrite Hu. }
  split.
  - rewrite Hown, Z.eqb_refl. by eexists.
  - intros Hne.
    assert (get_own_listing st' (fresh_pk (st_listings st)) other = None) as Hother.
    { rewrite Hown. by rewrite (proj2 (Z.eqb_neq (user_id u) (user_id other))). }
    split; [done|]. intros data'. unfold ListingUpdateRawView_patch.
    by rewrite Hother.
Qed.

End creator_facts.

(** X20 at a create request of the user 7 that names the user 99. *)
Lemma creator_owns_created_listing_witness :
  is_Some
    (get_own_listing
       (ListingCreateRawView_post sample_user create_for_someone_else sample_store).2
       (fresh_pk (st_listings sample_store)) sample_user) ∧
  (user_id other_user ≠ user_id sample_user →
   get_own_listing
     (ListingCreateRawView_post sample_user create_for_someone_else sample_store).2
     (fresh_pk (st_listings sample_store)) other_user = None ∧
   ∀ data',
     ListingUpdateRawView_patch other_user (fresh_pk (st_listings sample_store)) data'
       (ListingCreateRawView_post sample_user create_for_someone_else sample_store).2
     = (Done (mkResponse 404 (Errors "detail" (Text "Not found"))),
        (ListingCreateRawView_post sample_user create_for_someone_else
                                   sample_store).2)).
Proof.
  apply (creator_owns_created_listing sample_user other_user create_for_someone_else
           sample_store _
           (mkResponse 201
              (ListingOut 2
                 (<["contact_phone_masked" := PStr "+998901234567"]>
                    (sample_arguments ∪ listing_defaults)) []))).
  - reflexivity.
  - reflexivity.
Defined.
